(** * EMC_NodeAnalysis: nonlinear magnetic-circuit solver

    A shallow embedding of the Python package [emc] (circuit graph,
    element formulas, material model, Newton solver) and the properties
    of it that the specification states.

    Numbers.  The program computes with binary64 floats (Python floats and
    numpy arrays).  The embedding computes with the real numbers [R]:
    rounding is not modelled.  A division whose divisor is program data is
    checked ([safe_div]): a zero divisor raises [ZeroDivisionError], as in
    Python.  The one quotient of numpy scalars that steers control flow
    (the relative error of [solve_circuit]) has numpy's behaviour instead:
    a zero divisor gives a non-finite value ([np_div]), no exception.

    Library calls.  [numpy.linalg.solve] is modelled by its contract in
    exact arithmetic ([linsolve]); [numpy.linalg.norm] is the Euclidean
    norm; the two scipy interpolants of a material model are functions
    [R -> R]. *)

From Stdlib Require Import Reals Lra ZArith String ClassicalDescription.
From stdpp Require Import gmap strings list fin_maps.

Local Open Scope Z_scope.
Local Open Scope R_scope.

(** ** Exceptions and the error monad *)

Inductive exn : Type :=
| TypeError | ValueError | KeyError | IndexError | ZeroDivisionError
| LinAlgError | CircuitError | ModelError.

Inductive result (A : Type) : Type :=
| Ok (a : A)
| Raise (e : exn).
Arguments Ok {A} a.
Arguments Raise {A} e.

#[export] Instance result_ret : MRet result := fun A a => Ok a.
#[export] Instance result_bind : MBind result := fun A B f m =>
  match m with
  | Ok a => f a
  | Raise e => Raise e
  end.

(** [foldM f xs s]: a Python [for] loop over [xs] that updates [s] and may
    raise. *)
Fixpoint foldM {A S : Type} (f : A -> S -> result S) (xs : list A) (s : S)
  : result S :=
  match xs with
  | [] => Ok s
  | a :: xs' => s' ← f a s; foldM f xs' s'
  end.

(** [mapM f xs]: a Python [for] loop that rewrites each item in place. *)
Fixpoint mapM {A B : Type} (f : A -> result B) (xs : list A) : result (list B) :=
  match xs with
  | [] => Ok []
  | a :: xs' => b ← f a; bs ← mapM f xs'; Ok (b :: bs)
  end.

(** ** Numbers and arrays *)

(** Python's [a / b] on floats. *)
Definition safe_div (a b : R) : result R :=
  if Req_dec_T b 0 then Raise ZeroDivisionError else Ok (a / b).

(** numpy's [a / b] on float64 scalars with [0 <= a]: [None] stands for
    the non-finite quotient ([inf] or [nan]) of a zero divisor. *)
Definition np_div (a b : R) : option R :=
  if Req_dec_T b 0 then None else Some (a / b).

(** [e < tol] on such a quotient; a comparison with [inf] or [nan] is
    false. *)
Definition np_lt (e : option R) (tol : R) : bool :=
  match e with
  | Some r => if Rlt_dec r tol then true else false
  | None => false
  end.

Abbreviation vec := (list R) (only parsing).           (* an (n,1) array *)
Abbreviation matrix := (list (list R)) (only parsing). (* an (n,n) array, by rows *)

Definition zeros (n : nat) : vec := replicate n 0.
Definition zeros2 (n m : nat) : matrix := replicate n (zeros m).

(** numpy index normalisation along an axis of length [n]: indices in
    [-n, n) are valid, negative ones count from the end. *)
Definition np_index (n : nat) (i : Z) : result nat :=
  if (0 <=? i)%Z then
    if (i <? Z.of_nat n)%Z then Ok (Z.to_nat i) else Raise IndexError
  else
    if (- Z.of_nat n <=? i)%Z then Ok (Z.to_nat (i + Z.of_nat n))
    else Raise IndexError.

Definition vget (v : vec) (i : Z) : result R :=
  k ← np_index (length v) i;
  match v !! k with
  | Some a => Ok a
  | None => Raise IndexError
  end.

Definition vset (v : vec) (i : Z) (a : R) : result vec :=
  k ← np_index (length v) i; Ok (<[k := a]> v).

Definition mget (M : matrix) (i j : Z) : result R :=
  k ← np_index (length M) i;
  match M !! k with
  | Some row => vget row j
  | None => Raise IndexError
  end.

Definition mset (M : matrix) (i j : Z) (a : R) : result matrix :=
  k ← np_index (length M) i;
  match M !! k with
  | Some row => row' ← vset row j a; Ok (<[k := row']> M)
  | None => Raise IndexError
  end.

Definition dot (u v : vec) : R := foldr Rplus 0 (zip_with Rmult u v).
Definition mat_vec (M : matrix) (v : vec) : vec := map (fun row => dot row v) M.
Definition vadd (u v : vec) : vec := zip_with Rplus u v.
Definition vsub (u v : vec) : vec := zip_with Rminus u v.
Definition vscale (a : R) (v : vec) : vec := map (Rmult a) v.

(** [numpy.linalg.norm] of an (n,1) array. *)
Definition norm (v : vec) : R := sqrt (foldr (fun a s => a * a + s) 0 v).

(** [x] solves the square system [M x = b]. *)
Definition is_solution (M : matrix) (b x : vec) : Prop :=
  length x = length M /\ mat_vec M x = b.

(** [numpy.linalg.solve M b] in exact arithmetic: the solution when the
    system has exactly one, [LinAlgError] (singular matrix) otherwise.
    numpy raises when its elimination meets a pivot that is exactly
    zero.  In floating point that is certain for a matrix with a zero
    row or column; for another matrix that is singular in exact
    arithmetic, rounding can leave a small pivot, and numpy then returns
    a vector.  Rounding is not modelled; what is claimed of a call that
    raises [LinAlgError] is claimed of a matrix with a zero column. *)
Definition linsolve (M : matrix) (b : vec) : result vec :=
  match excluded_middle_informative (exists! x, is_solution M b x) with
  | left H => Ok (proj1_sig (constructive_definite_description _ H))
  | right _ => Raise LinAlgError
  end.

(** ** emc/constants.py *)

Module const.
(** Modelled from the spec: emc/constants.py is not among the sources;
    the spec names [mu0] the vacuum permeability.  The development uses
    only that it is positive. *)
Definition mu0 : R := 4 * PI * 1e-7.
End const.

(** ** emc/non_linear_bh.py *)

Module non_linear_bh.

Definition fp (inter_bhcurve : R -> R) (x : R) : R :=
  let eps := 1e-3 in
  (inter_bhcurve (x + eps) - inter_bhcurve x) / eps.

(** A fitted model: its name and the two interpolants the constructor
    stores, [hb] for B(H) and [hu] for B(H)/H.  Reading the table and
    fitting the splines is outside the embedding. *)
Record bh_model : Type := mk_bh_model {
  name : string;
  hb : R -> R;
  hu : R -> R
}.

(** Lines 35-58 of [__init__], between reading the rows and fitting
    the splines.  [extension] is the loop that appends 50 points of
    slope [mu0] after the last row read. *)
Definition extension (H_max B_max : R) : list (R * R) :=
  map (fun i : nat =>
         let H_ex := H_max * (2 + IZR (Z.of_nat i) * 10000) in
         let B_ex := B_max + const.mu0 * (H_ex - H_max) in
         (H_ex, B_ex))
      (seq 0 50).

(** The rows [[H, ur]] before the first one is overridden.  [ur] is
    a numpy quotient: [None] stands for the non-finite value of a zero
    [H]. *)
Definition uH_rows (bh_data : list (R * R)) : list (R * option R) :=
  map (fun '(H, B) => (H, if Req_dec_T B 0 then Some 0 else np_div B H)) bh_data.

(** The two tables handed to [CubicSpline]: [(H, B)] and [(H, u)].
    [None]: no row was read, and [HB] is unbound. *)
Definition spline_tables (rows : list (R * R))
  : option (list (R * R) * list (R * option R)) :=
  match last rows with
  | None => None
  | Some (H_max, B_max) =>
      let bh_data := rows ++ extension H_max B_max in
      let uH_data := uH_rows bh_data in
      let uH_data :=
        match uH_data with
        | (H0, _) :: (H1, u1) :: rest =>
            (H0, (fun u => u * 1.05) <$> u1) :: (H1, u1) :: rest
        | _ => uH_data
        end in
      Some (bh_data, uH_data)
  end.

Definition mur (self : bh_model) (H : R) : result R :=
  if Rlt_dec 0 H then
    q ← safe_div (hb self H) H; safe_div q const.mu0
  else
    safe_div (hb self 1) const.mu0.

Definition dmu_dH (self : bh_model) (H : R) : R := fp (hu self) H.

Definition mur_d (self : bh_model) (H : R) : result R :=
  mur ← mur self H;
  dmur_dH ← safe_div (dmu_dH self H) const.mu0;
  let mur_d := mur + dmur_dH * H in
  Ok mur_d.

End non_linear_bh.

(** ** emc/components *)

Module Permeance.

Record t : Type := mk {
  part_id : string;
  n1 : Z;
  n2 : Z;
  mur : R;
  mur_d : R;
  w : R;
  d : R;
  l : R;
  model_label : option string
}.

(** [__init__]: the differential permeability starts equal to [mur]. *)
Definition init (part_id : string) (n1 n2 : Z) (mur w d l : R)
    (model_label : option string) : t :=
  mk part_id n1 n2 mur mur w d l model_label.

Definition set_mur (self : t) (mur mur_d : R) : t :=
  mk (part_id self) (n1 self) (n2 self) mur mur_d
     (w self) (d self) (l self) (model_label self).

Definition P (self : t) : result R :=
  q ← safe_div (const.mu0 * mur self * w self * d self) (l self);
  Ok (q * 1e-3).

Definition dP (self : t) : result R :=
  q ← safe_div (const.mu0 * mur_d self * w self * d self) (l self);
  Ok (q * 1e-3).

Definition MMF (self : t) (ports_v : vec) : result R :=
  let n1 := (n1 self - 1)%Z in
  let n2 := (n2 self - 1)%Z in
  u1 ← (if (0 <=? n1)%Z then vget ports_v n1 else Ok 0);
  u2 ← (if (0 <=? n2)%Z then vget ports_v n2 else Ok 0);
  Ok (u1 - u2).

Definition PHI (self : t) (ports_v : vec) : result R :=
  MMF ← MMF self ports_v;
  p ← P self;
  Ok (MMF * p).

(** [B] and [H] divide by [l].  With a path length of zero the
    quotient of a numpy estimate is non-finite and no exception is
    raised; the embedding has no such value and raises there.
    [add_permeance] refuses a zero [l], and what is proved of [B] and
    [H] is proved under a path length other than zero or of a call
    that returned. *)
Definition B (self : t) (ports_v : vec) : result R :=
  MMF ← MMF self ports_v;
  q ← safe_div (const.mu0 * mur self * MMF) (l self);
  Ok (q * 1000).

Definition H (self : t) (ports_v : vec) : result R :=
  MMF ← MMF self ports_v;
  q ← safe_div MMF (l self);
  Ok (q * 1000).

End Permeance.

Module MMFSource.
Record t : Type := mk { part_id : string; n1 : Z; n2 : Z; value : R }.
Definition MMF (self : t) : R := value self.
End MMFSource.

Module PHISource.
Record t : Type := mk { part_id : string; n1 : Z; n2 : Z; value : R }.
Definition PHI (self : t) : R := value self.
End PHISource.

Module Component.
(** The base class, for an element that is none of the three kinds. *)
Record t : Type := mk { part_id : string; n1 : Z; n2 : Z }.
End Component.

(** What a circuit holds: [isinstance] dispatch becomes a match. *)
Inductive element : Type :=
| EPermeance (e : Permeance.t)
| EMMFSource (e : MMFSource.t)
| EPHISource (e : PHISource.t)
| EComponent (e : Component.t).

Definition elem_n1 (e : element) : Z :=
  match e with
  | EPermeance p => Permeance.n1 p
  | EMMFSource s => MMFSource.n1 s
  | EPHISource s => PHISource.n1 s
  | EComponent s => Component.n1 s
  end.

Definition elem_n2 (e : element) : Z :=
  match e with
  | EPermeance p => Permeance.n2 p
  | EMMFSource s => MMFSource.n2 s
  | EPHISource s => PHISource.n2 s
  | EComponent s => Component.n2 s
  end.

Definition elem_part_id (e : element) : string :=
  match e with
  | EPermeance p => Permeance.part_id p
  | EMMFSource s => MMFSource.part_id s
  | EPHISource s => PHISource.part_id s
  | EComponent s => Component.part_id s
  end.

(** ** emc/circuit.py *)

Module circuit.
Import non_linear_bh.

(** Keys and values of [nodes_dict]: the dictionary maps the internal
    integer of a node to its name and the name back to the integer. *)
Abbreviation key := (Z + string)%type (only parsing).

(** [Circuit] is a Python list of elements ([elems]) with attributes. *)
Record Circuit : Type := mk {
  elems : list element;
  title : string;
  nodes_dict : gmap key key;
  models : gmap string bh_model
}.

Definition init (title : string) : Circuit := mk [] title ∅ ∅.

Definition set_nodes_dict (self : Circuit) (nd : gmap key key) : Circuit :=
  mk (elems self) (title self) nd (models self).
Definition set_elems (self : Circuit) (es : list element) : Circuit :=
  mk es (title self) (nodes_dict self) (models self).
Definition set_models (self : Circuit) (ms : gmap string bh_model) : Circuit :=
  mk (elems self) (title self) (nodes_dict self) ms.
Definition append (self : Circuit) (e : element) : Circuit :=
  set_elems self (elems self ++ [e]).

(** [0 in self.nodes_dict] *)
Definition got_ref (self : Circuit) : bool :=
  match nodes_dict self !! (inl 0%Z : key) with Some _ => true | None => false end.

(** [int(len(self.nodes_dict) / 2) + 1 * (not got_ref)] *)
Definition next_int_node (self : Circuit) : Z :=
  (Z.of_nat (size (nodes_dict self)) / 2 + 1 * (if got_ref self then 0 else 1))%Z.

(** Both entries of a new node. *)
Definition register (self : Circuit) (int_node : Z) (name : string) : Circuit :=
  set_nodes_dict self
    (<[(inr name : key) := (inl int_node : key)]>
       (<[(inl int_node : key) := (inr name : key)]> (nodes_dict self))).

(** A method that mutates the circuit returns the circuit it leaves
    behind, also when it raises.  The [TypeError] checks on the type
    of [name] are discharged by its type here. *)
Definition create_node (self : Circuit) (name : string) : Circuit * result string :=
  match nodes_dict self !! (inr name : key) with
  | None =>
      let int_node := if String.eqb name "0" then 0%Z else next_int_node self in
      (register self int_node name, Ok name)
  | Some _ => (self, Raise ValueError)
  end.

Definition add_node (self : Circuit) (ext_name : string) : Circuit * result Z :=
  match nodes_dict self !! (inr ext_name : key) with
  | None =>
      let int_node := if String.eqb ext_name "0" then 0%Z else next_int_node self in
      (register self int_node ext_name, Ok int_node)
  | Some (inl int_node) => (self, Ok int_node)
  | Some (inr _) =>
      (* a name bound to a name: never stored by these methods
         ([built_name_bound_to_int]); the first arithmetic on the
         returned value would raise *)
      (self, Raise TypeError)
  end.

Definition get_nodes_number (self : Circuit) : Z :=
  (Z.of_nat (size (nodes_dict self)) / 2)%Z.

Definition ext_node_to_int (self : Circuit) (ext_node : string) : result key :=
  match nodes_dict self !! (inr ext_node : key) with
  | Some v => Ok v
  | None => Raise KeyError
  end.

Definition int_node_to_ext (self : Circuit) (int_node : Z) : result key :=
  match nodes_dict self !! (inl int_node : key) with
  | Some v => Ok v
  | None => Raise KeyError
  end.

(** [len(set(all_ids)) != len(all_ids)] *)
Definition has_duplicate_elem (self : Circuit) : bool :=
  let all_ids := map elem_part_id (elems self) in
  negb (size (list_to_set all_ids : gset string) =? length all_ids)%nat.

Definition get_ground_node (self : Circuit) : string := "0".

(** The loop of [get_elem_by_name]: the first element whose lowered
    [part_id] is the lowered argument.  [str.lower] is the parameter
    [lower]. *)
Fixpoint first_by_name (lower : string -> string) (es : list element)
    (part_id : string) : result element :=
  match es with
  | [] => Raise ValueError
  | e :: es' =>
      if String.eqb (lower (elem_part_id e)) (lower part_id) then Ok e
      else first_by_name lower es' part_id
  end.

Definition get_elem_by_name (lower : string -> string) (self : Circuit)
    (part_id : string) : result element :=
  first_by_name lower (elems self) part_id.

(** The constructor of [bh_model] reads the table and fits the two
    splines; here the fitted interpolants are the arguments. *)
Definition add_model (self : Circuit) (model_type model_label : string)
    (hb hu : R -> R) : Circuit * result unit :=
  if String.eqb model_type "BH" then
    let model_iter := mk_bh_model model_label hb hu in
    (set_models self (<[model_label := model_iter]> (models self)), Ok tt)
  else (self, Raise CircuitError).

Definition remove_model (self : Circuit) (model_label : string) : Circuit :=
  set_models self (delete model_label (models self)).

Definition add_permeance (self : Circuit) (part_id n1 n2 : string)
    (mur w d l : R) (model_label : option string) : Circuit * result unit :=
  match add_node self n1 with
  | (self, Raise e) => (self, Raise e)
  | (self, Ok n1) =>
  match add_node self n2 with
  | (self, Raise e) => (self, Raise e)
  | (self, Ok n2) =>
      if Req_dec_T w 0 then (self, Raise CircuitError)
      else if Req_dec_T d 0 then (self, Raise CircuitError)
      else if Req_dec_T l 0 then (self, Raise CircuitError)
      else
        match model_label with
        | Some label =>
            match models self !! label with
            | None => (self, Raise ModelError)
            | Some _ =>
                (append self (EPermeance (Permeance.init part_id n1 n2 mur w d l model_label)), Ok tt)
            end
        | None =>
            (append self (EPermeance (Permeance.init part_id n1 n2 mur w d l model_label)), Ok tt)
        end
  end end.

Definition add_mmf_source (self : Circuit) (part_id n1 n2 : string) (value : R)
  : Circuit * result unit :=
  match add_node self n1 with
  | (self, Raise e) => (self, Raise e)
  | (self, Ok n1) =>
  match add_node self n2 with
  | (self, Raise e) => (self, Raise e)
  | (self, Ok n2) => (append self (EMMFSource (MMFSource.mk part_id n1 n2 value)), Ok tt)
  end end.

Definition add_phi_source (self : Circuit) (part_id n1 n2 : string) (value : R)
  : Circuit * result unit :=
  match add_node self n1 with
  | (self, Raise e) => (self, Raise e)
  | (self, Ok n1) =>
  match add_node self n2 with
  | (self, Raise e) => (self, Raise e)
  | (self, Ok n2) => (append self (EPHISource (PHISource.mk part_id n1 n2 value)), Ok tt)
  end end.

Definition get_MMFs_number (self : Circuit) : Z :=
  fold_left (fun count elem =>
               match elem with
               | EMMFSource _ => (count + 1)%Z
               | _ => count
               end) (elems self) 0%Z.

End circuit.

(** ** emc/analysis.py *)

Module analysis.
Import circuit non_linear_bh.

Definition update_elem (circ : Circuit) (x : vec) (elem : element) : result element :=
  match elem with
  | EPermeance p =>
      match Permeance.model_label p with
      | Some label =>
          match models circ !! label with
          | None => Raise KeyError
          | Some model =>
              h ← Permeance.H p x;
              let H := Rabs h in
              m ← mur model H;
              md ← mur_d model H;
              Ok (EPermeance (Permeance.set_mur p m md))
          end
      | None => Ok elem
      end
  | _ => Ok elem
  end.

Definition update_mur (circ : Circuit) (x : vec) : result Circuit :=
  es ← mapM (update_elem circ x) (elems circ);
  Ok (set_elems circ es).

(** The arrays [A], [dA] and [b] under assembly. *)
Record system : Type := mk_sys { sA : matrix; sdA : matrix; sb : vec }.

(** [M[i, j] = M[i, j] + 1.0 * v] and [M[i, j] = M[i, j] - 1.0 * v] *)
Definition add_to (M : matrix) (i j : Z) (v : result R) : result matrix :=
  a ← mget M i j; p ← v; mset M i j (a + 1 * p).
Definition sub_from (M : matrix) (i j : Z) (v : result R) : result matrix :=
  a ← mget M i j; p ← v; mset M i j (a - 1 * p).

(** Body of the first loop of [make_system_matrix]. *)
Definition stamp_elem (elem : element) (s : system) : result system :=
  let n1 := (elem_n1 elem - 1)%Z in
  let n2 := (elem_n2 elem - 1)%Z in
  match elem with
  | EPermeance p =>
      s ← (if (0 <=? n1)%Z then
             A ← add_to (sA s) n1 n1 (Permeance.P p);
             dA ← add_to (sdA s) n1 n1 (Permeance.dP p);
             Ok (mk_sys A dA (sb s))
           else Ok s);
      s ← (if (0 <=? n2)%Z then
             A ← add_to (sA s) n2 n2 (Permeance.P p);
             dA ← add_to (sdA s) n2 n2 (Permeance.dP p);
             Ok (mk_sys A dA (sb s))
           else Ok s);
      if (0 <=? n1)%Z && (0 <=? n2)%Z then
        A ← sub_from (sA s) n1 n2 (Permeance.P p);
        dA ← sub_from (sdA s) n1 n2 (Permeance.dP p);
        A ← sub_from A n2 n1 (Permeance.P p);
        dA ← sub_from dA n2 n1 (Permeance.dP p);
        Ok (mk_sys A dA (sb s))
      else Ok s
  | EPHISource src =>
      s ← (if (0 <=? n1)%Z then
             a ← vget (sb s) n1;
             b ← vset (sb s) n1 (a + PHISource.PHI src);
             Ok (mk_sys (sA s) (sdA s) b)
           else Ok s);
      if (0 <=? n2)%Z then
        a ← vget (sb s) n2;
        b ← vset (sb s) n2 (a - PHISource.PHI src);
        Ok (mk_sys (sA s) (sdA s) b)
      else Ok s
  | EMMFSource _ => Ok s          (* its lines are added afterwards *)
  | EComponent _ => Ok s          (* prints a message, stamps nothing *)
  end.

(** Body of the second loop, which threads [index]. *)
Definition stamp_mmf (elem : element) (st : Z * system) : result (Z * system) :=
  let '(index, s) := st in
  let n1 := (elem_n1 elem - 1)%Z in
  let n2 := (elem_n2 elem - 1)%Z in
  match elem with
  | EMMFSource src =>
      (* KCL *)
      s ← (if (0 <=? n1)%Z then
             A ← mset (sA s) n1 index 1;
             dA ← mset (sdA s) n1 index 1;
             Ok (mk_sys A dA (sb s))
           else Ok s);
      s ← (if (0 <=? n2)%Z then
             A ← mset (sA s) n2 index (-1);
             dA ← mset (sdA s) n2 index (-1);
             Ok (mk_sys A dA (sb s))
           else Ok s);
      (* KVL *)
      s ← (if (0 <=? n1)%Z then
             A ← mset (sA s) index n1 1;
             dA ← mset (sdA s) index n1 1;
             Ok (mk_sys A dA (sb s))
           else Ok s);
      s ← (if (0 <=? n2)%Z then
             A ← mset (sA s) index n2 (-1);
             dA ← mset (sdA s) index n2 (-1);
             Ok (mk_sys A dA (sb s))
           else Ok s);
      b ← vset (sb s) index (1 * MMFSource.MMF src);
      Ok ((index + 1)%Z, mk_sys (sA s) (sdA s) b)
  | _ => Ok st
  end.

(** Lines 20-81: the two stamping loops over fresh arrays of size
    [n_size], before the right-hand side is adjusted. *)
Definition assemble (circ : Circuit) (n_size : nat) : result system :=
  let s := mk_sys (zeros2 n_size n_size) (zeros2 n_size n_size) (zeros n_size) in
  s ← foldM stamp_elem (elems circ) s;
  let index := (get_nodes_number circ - 1)%Z in
  '(_, s) ← foldM stamp_mmf (elems circ) (index, s);
  Ok s.

(** Returns the circuit with refreshed permeabilities, [dA] and the
    adjusted right-hand side. *)
Definition make_system_matrix (circ : Circuit) (u_prev : vec)
  : result (Circuit * (matrix * vec)) :=
  circ ← update_mur circ u_prev;
  let n_size := length u_prev in
  s ← assemble circ n_size;
  let b := vsub (sb s) (mat_vec (sA s) u_prev) in
  Ok (circ, (sdA s, b)).

Definition n_matrix_size (circ : Circuit) : Z :=
  (get_nodes_number circ + get_MMFs_number circ - 1)%Z.

(** Variables of the loop of [solve_circuit]. *)
Record loop_state : Type := mk_state {
  ls_circ : Circuit;
  ls_x : vec;
  ls_norm : R;
  ls_iter : Z
}.

(** What one pass computed: the system solved, the increment, the new
    iterate and the value [err] that is printed and tested. *)
Record pass_log : Type := mk_log {
  pl_iter : Z;
  pl_A : matrix;
  pl_b : vec;
  pl_dx : vec;
  pl_x : vec;
  pl_err : option R
}.

(** Lines 99-113: one pass, up to the test. *)
Definition newton_pass (gamma : R) (st : loop_state) : result (loop_state * pass_log) :=
  '(circ, (A, b)) ← make_system_matrix (ls_circ st) (ls_x st);
  dx ← linsolve A b;
  let x := if (ls_iter st =? 0)%Z then dx
           else vadd (ls_x st) (vscale gamma dx) in
  let err := norm dx in
  let nrm := if (ls_iter st =? 0)%Z then err else ls_norm st in
  let err := np_div err nrm in
  let nrm := norm x in
  Ok (mk_state circ x nrm (ls_iter st),
      mk_log (ls_iter st) A b dx x err).

Inductive status : Type := CONVERGED | EXHAUSTED.

Inductive outcome : Type :=
| Returned (s : status) (circ : Circuit) (x : vec)
| Raised (e : exn)
| OutOfFuel.

(** The passes made, in order, and how the call ended. *)
Record run : Type := mk_run { trace : list pass_log; out : outcome }.

(** The [while True] loop.  [fuel] bounds the unfolding; the loop itself
    leaves by its own test ([solve_circuit_leaves_by_its_test]). *)
Fixpoint newton_loop (fuel : nat) (gamma : R) (st : loop_state) : run :=
  match fuel with
  | O => mk_run [] OutOfFuel
  | S fuel =>
      match newton_pass gamma st with
      | Raise e => mk_run [] (Raised e)
      | Ok (st, log) =>
          if np_lt (pl_err log) 0.001 then
            mk_run [log] (Returned CONVERGED (ls_circ st) (ls_x st))
          else if (2000 <? ls_iter st)%Z then
            mk_run [log] (Returned EXHAUSTED (ls_circ st) (ls_x st))
          else
            let r := newton_loop fuel gamma
                       (mk_state (ls_circ st) (ls_x st) (ls_norm st) (ls_iter st + 1)%Z) in
            mk_run (log :: trace r) (out r)
      end
  end.

Arguments newton_loop : simpl never.

Definition solve_circuit (circ : Circuit) (gamma : R) : run :=
  (* step 1: initialize x *)
  let n_nodes := get_nodes_number circ in
  let n_MMFs := get_MMFs_number circ in
  let n_matrix_size := (n_nodes + n_MMFs - 1)%Z in
  if (n_matrix_size <? 0)%Z then mk_run [] (Raised ValueError)
  else
    let x := zeros (Z.to_nat n_matrix_size) in
    (* step 2: apply Newton-Raphson method *)
    newton_loop 2002 gamma (mk_state circ x 0 0%Z).

(** The value the Python function hands back. *)
Definition solution (r : run) : option vec :=
  match out r with
  | Returned _ _ x => Some x
  | _ => None
  end.

End analysis.

(** ** Circuits as callers build them *)

Import circuit.

(** The circuits reachable from [Circuit(title)] through the methods of the
    class, whether a call returned or raised. *)
Inductive built : Circuit -> Prop :=
| built_init title :
    built (init title)
| built_create_node c name :
    built c -> built (create_node c name).1
| built_add_node c name :
    built c -> built (add_node c name).1
| built_add_model c model_type label hb hu :
    built c -> built (add_model c model_type label hb hu).1
| built_remove_model c label :
    built c -> built (remove_model c label)
| built_add_permeance c part_id n1 n2 mur w d l label :
    built c -> built (add_permeance c part_id n1 n2 mur w d l label).1
| built_add_mmf_source c part_id n1 n2 value :
    built c -> built (add_mmf_source c part_id n1 n2 value).1
| built_add_phi_source c part_id n1 n2 value :
    built c -> built (add_phi_source c part_id n1 n2 value).1.

(** An entry of [nodes_dict] that stands for a node other than ground:
    its key is a name and the name is not ['0']. *)
Definition nonground_name (kv : key * key) : Prop :=
  match kv.1 with
  | inr s => s <> "0"%string
  | inl _ => False
  end.

#[export] Instance nonground_name_dec kv : Decision (nonground_name kv).
Proof. unfold nonground_name. destruct (kv.1); apply _. Defined.

(** Number of nodes excluding ground. *)
Definition nodes_excl_ground (c : Circuit) : Z :=
  Z.of_nat (size (filter nonground_name (nodes_dict c))).

(** The ground name has been registered. *)
Definition has_ground (c : Circuit) : Prop :=
  is_Some (nodes_dict c !! (inr "0"%string : key)).

(** The MMF sources of an element list, in list order. *)
Fixpoint mmf_sources (es : list element) : list MMFSource.t :=
  match es with
  | [] => []
  | EMMFSource s :: es' => s :: mmf_sources es'
  | _ :: es' => mmf_sources es'
  end.

(** The potential of terminal [n] under the estimate [x]: node [n] has
    entry [n - 1]; ground (any [n] below 1) is 0. *)
Definition potential (x : vec) (n : Z) : R :=
  if (n <=? 0)%Z then 0 else default 0 (x !! Z.to_nat (n - 1)).

(** ** Vocabulary of the properties *)

(** The formula of the specification for a permeance value. *)
Definition permeance_formula (mu w d l : R) : R :=
  const.mu0 * mu * w * d / l * 1e-3.

(** The shape of [nodes_dict] with [k] nodes besides ground and ground
    present iff [g]. *)
Record nodes_inv (nd : gmap key key) (k : nat) (g : bool) : Prop := {
  ni_int : forall i : Z,
    is_Some (nd !! (inl i : key)) <-> (1 <= i <= Z.of_nat k)%Z \/ (i = 0%Z /\ g = true);
  ni_size : size nd = (2 * (k + if g then 1 else 0))%nat;
  ni_gnd : is_Some (nd !! (inr "0"%string : key)) <-> g = true;
  ni_name : forall s v, nd !! (inr s : key) = Some v ->
    exists i : Z, v = inl i /\ is_Some (nd !! (inl i : key));
  ni_count : size (filter nonground_name nd) = k
}.

(** What every built circuit satisfies: the dictionary has its shape,
    every terminal is a registered integer, and every permeance has a
    nonzero path length and the differential permeability it was
    constructed with. *)
Definition circuit_inv (c : Circuit) (k : nat) (g : bool) : Prop :=
  nodes_inv (nodes_dict c) k g /\
  (forall e, e ∈ elems c ->
     is_Some (nodes_dict c !! (inl (elem_n1 e) : key)) /\
     is_Some (nodes_dict c !! (inl (elem_n2 e) : key))) /\
  (forall p, EPermeance p ∈ elems c ->
     Permeance.l p <> 0 /\ Permeance.mur_d p = Permeance.mur p).

(** An [n] by [n] matrix. *)
Definition square (n : nat) (M : matrix) : Prop :=
  length M = n /\ Forall (fun row => length row = n) M.

Import analysis.

(** The arrays under assembly have the size of the unknown vector. *)
Definition shaped (n : nat) (s : system) : Prop :=
  square n (sA s) /\ square n (sdA s) /\ length (sb s) = n.

(** A linear element: a permeance bound to no model, with the
    differential permeability of its constructor. *)
Definition linear_elem (e : element) : Prop :=
  match e with
  | EPermeance p => Permeance.model_label p = None /\ Permeance.mur_d p = Permeance.mur p
  | _ => True
  end.

(** A matrix with a nonzero vector in its kernel. *)
Definition singular (M : matrix) : Prop :=
  exists y, length y = length M /\ y <> zeros (length M) /\
            mat_vec M y = zeros (length M).

(** The state the loop carries into the pass after [st]. *)
Definition next_state (st : loop_state) : loop_state :=
  mk_state (ls_circ st) (ls_x st) (ls_norm st) (ls_iter st + 1)%Z.

(** *** The refresh of the operating point, in the words of the spec *)

Import non_linear_bh.

(** Permeability of a model at field [H]. *)
Definition mur_value (m : bh_model) (H : R) : R :=
  if Rlt_dec 0 H then hb m H / H / const.mu0 else hb m 1 / const.mu0.

(** Differential permeability of a model at field [H]. *)
Definition mur_d_value (m : bh_model) (H : R) : R :=
  mur_value m H + H * ((hu m (H + 1e-3) - hu m H) / 1e-3) / const.mu0.

(** Field strength of a permeance under the estimate [x]: the magnitude
    of its potential difference over its path length, times 1000. *)
Definition field_strength (p : Permeance.t) (x : vec) : R :=
  Rabs ((potential x (Permeance.n1 p) - potential x (Permeance.n2 p))
        / Permeance.l p * 1000).

(** An element after the refresh. *)
Definition refreshed (c : Circuit) (x : vec) (e : element) : element :=
  match e with
  | EPermeance p =>
      match Permeance.model_label p with
      | Some label =>
          match models c !! label with
          | Some model =>
              let H := field_strength p x in
              EPermeance (Permeance.set_mur p (mur_value model H) (mur_d_value model H))
          | None => e
          end
      | None => e
      end
  | _ => e
  end.

(** An element the refresh can handle: a bound permeance names a
    registered model, has a nonzero path length and terminals within the
    estimate. *)
Definition operable (c : Circuit) (x : vec) (e : element) : Prop :=
  match e with
  | EPermeance p =>
      forall label, Permeance.model_label p = Some label ->
        is_Some (models c !! label) /\ Permeance.l p <> 0 /\
        (Permeance.n1 p <= Z.of_nat (length x))%Z /\
        (Permeance.n2 p <= Z.of_nat (length x))%Z
  | _ => True
  end.

(** *** Example circuits *)

(** The circuit of main.py without its iron core: an MMF source of
    value [V] from node [n1] to ground, over the air gap [Rg]. *)
Definition gap_circuit (V : R) : Circuit :=
  (add_permeance (add_mmf_source (init "EMC") "MMF1" "n1" "0" V).1
     "Rg" "n1" "0" 1 10 10 1 None).1.

Definition gap_nodes : gmap key key :=
  <[(inr "0"%string : key) := (inl 0%Z : key)]>
    (<[(inl 0%Z : key) := (inr "0"%string : key)]>
       (<[(inr "n1"%string : key) := (inl 1%Z : key)]>
          (<[(inl 1%Z : key) := (inr "n1"%string : key)]> ∅))).

(** The permeance of the gap and the assembled matrix. *)
Definition gap_P : R := permeance_formula 1 10 10 1.
Definition gap_A : list (list R) := [[0 + 1 * gap_P; 1]; [1; 0]].


(** A material whose B(H) table lies on the line [B = mu0 * (H + 1)],
    given by its two interpolants: the natural cubic spline through
    points of a line is the line; the permeability interpolant, which
    enters the Jacobian only, is taken constant. *)
Definition line_model : bh_model :=
  mk_bh_model "M" (fun H => const.mu0 * (H + 1)) (fun _ => const.mu0).

(** A flux source of [4 * mu0] from node [a] to ground, across a core
    bound to [line_model]. *)
Definition core_circuit : Circuit :=
  (add_permeance
     (add_phi_source
        (add_model (init "EMC") "BH" "M" (hb line_model) (hu line_model)).1
        "I1" "a" "0" (4 * const.mu0)).1
     "Rc" "a" "0" 1 1000 1000 1000 (Some "M"%string)).1.

Definition core_nodes : gmap key key :=
  <[(inr "0"%string : key) := (inl 0%Z : key)]>
    (<[(inl 0%Z : key) := (inr "0"%string : key)]>
       (<[(inr "a"%string : key) := (inl 1%Z : key)]>
          (<[(inl 1%Z : key) := (inr "a"%string : key)]> ∅))).

(** The core circuit when the core holds permeabilities [m] and [md]. *)
Definition core (m md : R) : Circuit :=
  mk [EPHISource (PHISource.mk "I1" 1 0 (4 * const.mu0));
      EPermeance (Permeance.mk "Rc" 1 0 m md 1000 1000 1000 (Some "M"%string))]
     "EMC" core_nodes (<["M"%string := line_model]> ∅).

(** Permeabilities and increment of a pass from the estimate [[v]]. *)
Definition core_mur (v : R) : R := mur_value line_model (Rabs ((v - 0) / 1000 * 1000)).
Definition core_mur_d (v : R) : R := mur_d_value line_model (Rabs ((v - 0) / 1000 * 1000)).
Definition core_A (v : R) : R := 0 + 1 * permeance_formula (core_mur v) 1000 1000 1000.
Definition core_dA (v : R) : R := 0 + 1 * permeance_formula (core_mur_d v) 1000 1000 1000.
Definition core_b (v : R) : R := 0 + 4 * const.mu0 - (core_A v * v + 0).
Definition core_dx (v : R) : R := core_b v / core_dA v.

(** An MMF source between two nodes, in a circuit that never names
    ground. *)
Definition float_circuit : Circuit :=
  (add_mmf_source (init "EMC") "V1" "a" "b" 1).1.

(** The terminals of [e] are nodes numbered at most [k]. *)
Definition terminals_within (k : Z) (e : element) : Prop :=
  (0 <= elem_n1 e <= k)%Z /\ (0 <= elem_n2 e <= k)%Z.

(** A permeance has a nonzero path length. *)
Definition nonzero_length (e : element) : Prop :=
  match e with EPermeance p => Permeance.l p <> 0 | _ => True end.

(** The gap circuit with one more node, [n2], that no element touches. *)
Definition lonely_circuit : Circuit :=
  (add_node (gap_circuit 10000) "n2").1.

Definition lonely_nodes : gmap key key :=
  <[(inr "n2"%string : key) := (inl 2%Z : key)]>
    (<[(inl 2%Z : key) := (inr "n2"%string : key)]> gap_nodes).

(** Its assembled matrix: row and column 1, those of [n2], hold zeros. *)
Definition lonely_A : list (list R) :=
  [[0 + 1 * gap_P; 0; 1];
   [0; 0; 0];
   [1; 0; 0]].

(** *** Further vocabulary *)

(** The two directions of [nodes_dict] mirror each other, and the integer
    0 belongs to the ground name alone. *)
Definition nodes_paired (nd : gmap key key) : Prop :=
  (forall (i : Z) v, nd !! (inl i : key) = Some v ->
     exists s, v = inr s /\ nd !! (inr s : key) = Some (inl i)) /\
  (forall s v, nd !! (inr s : key) = Some v ->
     exists i : Z, v = inl i /\ nd !! (inl i : key) = Some (inr s)) /\
  (forall s, nd !! (inr s : key) = Some (inl 0%Z) -> s = "0"%string) /\
  (forall v, nd !! (inr "0"%string : key) = Some v -> v = inl 0%Z).

(** A permeance with its two terminals exchanged. *)
Definition reversed (p : Permeance.t) : Permeance.t :=
  Permeance.mk (Permeance.part_id p) (Permeance.n2 p) (Permeance.n1 p)
    (Permeance.mur p) (Permeance.mur_d p)
    (Permeance.w p) (Permeance.d p) (Permeance.l p) (Permeance.model_label p).

(** Entry [(i, j)] of a matrix, when it has one. *)
Definition entry (M : matrix) (i j : nat) : option R :=
  row ← M !! i; row !! j.

Definition symmetric (M : matrix) : Prop :=
  forall i j, entry M i j = entry M j i.

(** [M'] is [M] with entry [(k, l)] set to [v]. *)
Definition updated (M' M : matrix) (k l : nat) (v : R) : Prop :=
  forall a b, entry M' a b = if decide (a = k /\ b = l) then Some v else entry M a b.

(** The arrays under assembly have their shape and both matrices are
    symmetric. *)
Definition symmetric_system (n : nat) (s : system) : Prop :=
  shaped n s /\ symmetric (sA s) /\ symmetric (sdA s).

(** A circuit whose elements fit its numbering: ground and [k] other
    nodes, every terminal among them, every permeance with a path
    length. *)
Definition laid_out (k : nat) (c : Circuit) : Prop :=
  get_nodes_number c = (Z.of_nat k + 1)%Z /\
  Forall (terminals_within (Z.of_nat k)) (elems c) /\
  Forall nonzero_length (elems c).

(** Every permeance that names a model names a registered one. *)
Definition models_registered (c : Circuit) : Prop :=
  forall p label, EPermeance p ∈ elems c ->
    Permeance.model_label p = Some label -> is_Some (models c !! label).

(** Rows and columns from [k] on hold zeros. *)
Definition blank_from (k n : nat) (M : matrix) : Prop :=
  forall r c, (r < n)%nat -> (c < n)%nat -> (k <= r \/ k <= c)%nat ->
    entry M r c = Some 0.

(** The row of the equation of an MMF source: 1 in the column of its
    first terminal, -1 in that of its second, ground having no column. *)
Definition source_row (src : MMFSource.t) (col : nat) : R :=
  if decide (Z.of_nat col = (MMFSource.n2 src - 1)%Z) then -1
  else if decide (Z.of_nat col = (MMFSource.n1 src - 1)%Z) then 1
  else 0.

(** Row [k + j] of [M] is the row of the [j]-th source of [srcs]. *)
Definition has_source_rows (k n : nat) (srcs : list MMFSource.t) (M : matrix) : Prop :=
  forall j src col, srcs !! j = Some src -> (col < n)%nat ->
    entry M (k + j) col = Some (source_row src col).

(** The estimate [x] gives the source its value as potential
    difference. *)
Definition honours (x : vec) (src : MMFSource.t) : Prop :=
  potential x (MMFSource.n1 src) - potential x (MMFSource.n2 src)
  = MMFSource.value src.

(** The writes of one MMF source into one matrix: column [idx] in the
    rows [i] and [j] of its terminals, then row [idx] in their columns,
    each write guarded by its terminal being off ground. *)
Definition source_writes (t1 t2 : bool) (i j idx : Z) (M M4 : matrix) : Prop :=
  exists M1 M2 M3,
    (if t1 then mset M i idx 1 else Ok M) = Ok M1 /\
    (if t2 then mset M1 j idx (-1) else Ok M1) = Ok M2 /\
    (if t1 then mset M2 idx i 1 else Ok M2) = Ok M3 /\
    (if t2 then mset M3 idx j (-1) else Ok M3) = Ok M4.

(** The potential of terminal [n] read from a vector [x] that holds the
    unknowns from position [off] on. *)
Definition potential_from (off : nat) (x : vec) (n : Z) : R :=
  if decide (Z.of_nat off <= n - 1)%Z
  then default 0 (x !! (Z.to_nat (n - 1) - off)%nat)
  else 0.

(** What the loop keeps from pass to pass with respect to the source
    [src] of the list [srcs]: the circuit fits its numbering, the
    estimate has its size, and after the first pass the estimate honours
    the source; before it, the estimate has no potential difference
    across the source. *)
Definition keeps_source (k : nat) (srcs : list MMFSource.t) (src : MMFSource.t)
    (st : loop_state) : Prop :=
  laid_out k (ls_circ st) /\ mmf_sources (elems (ls_circ st)) = srcs /\
  length (ls_x st) = (k + length srcs)%nat /\ (0 <= ls_iter st)%Z /\
  (ls_iter st = 0%Z ->
   potential (ls_x st) (MMFSource.n1 src) - potential (ls_x st) (MMFSource.n2 src) = 0) /\
  (ls_iter st <> 0%Z -> honours (ls_x st) src).

(** A material whose B(H) curve is the line [B = mu0 * mu * H] and whose
    permeability curve is constant. *)
Definition linear_material (name : string) (mu u : R) : bh_model :=
  mk_bh_model name (fun H => const.mu0 * mu * H) (fun _ => u).

(** No permeance of the circuit is bound to a material model. *)
Definition unbound (c : Circuit) : Prop :=
  forall p, EPermeance p ∈ elems c -> Permeance.model_label p = None.

(** The pass over the core circuit that leads from the estimate
    [3 - 1/q] to [3 - 1/q']. *)
Definition core_log (iter : Z) (q q' : R) : pass_log :=
  mk_log iter [[core_dA (3 - 1 / q)]] [core_b (3 - 1 / q)]
    [1 / q - 1 / q'] [3 - 1 / q'] (Some (1 / q')).

(** Its first pass, from the estimate 0. *)
Definition core_log0 : pass_log :=
  mk_log 0 [[core_dA 0]] [core_b 0] [3 - 1 / 1] [3 - 1 / 1] (Some 1).

(** The circuit the solver leaves and the estimate it returns. *)
Definition core_left : Circuit :=
  core (core_mur (3 - 1 / 683)) (core_mur_d (3 - 1 / 683)).
Definition core_solution : list R := [3 - 1 / 2731].


(** * Properties *)

(** ** Arithmetic helpers *)

Lemma mu0_pos : 0 < const.mu0.
Proof. unfold const.mu0. pose proof PI_RGT_0. lra. Qed.

Lemma mu0_neq_0 : const.mu0 <> 0.
Proof. pose proof mu0_pos. lra. Qed.

Lemma safe_div_nz (a b : R) : b <> 0 -> safe_div a b = Ok (a / b).
Proof. intros Hb. unfold safe_div. destruct (Req_dec_T b 0); [contradiction | reflexivity]. Qed.

Lemma safe_div_zero (a : R) : safe_div a 0 = Raise ZeroDivisionError.
Proof. unfold safe_div. destruct (Req_dec_T 0 0); [reflexivity | contradiction]. Qed.

Lemma np_div_nz (a b : R) : b <> 0 -> np_div a b = Some (a / b).
Proof. intros Hb. unfold np_div. destruct (Req_dec_T b 0); [contradiction | reflexivity]. Qed.

Lemma np_div_zero (a : R) : np_div a 0 = None.
Proof. unfold np_div. destruct (Req_dec_T 0 0); [reflexivity | contradiction]. Qed.

Lemma np_lt_true (e : option R) (tol : R) :
  np_lt e tol = true <-> exists r, e = Some r /\ r < tol.
Proof.
  destruct e as [r|]; simpl.
  - destruct (Rlt_dec r tol); split; try discriminate; eauto.
    intros (r' & [= <-] & Hr). contradiction.
  - split; [discriminate | intros (r & [=] & _)].
Qed.

(** ** The material model *)

Section material_model.
Import non_linear_bh.
Variable self : bh_model.

Lemma mur_positive_field (H : R) :
  0 < H -> mur self H = Ok (hb self H / H / const.mu0).
Proof.
  intros HH. unfold mur. destruct (Rlt_dec 0 H); [| contradiction].
  rewrite safe_div_nz by lra. simpl. apply safe_div_nz, mu0_neq_0.
Qed.

Lemma mur_fallback (H : R) :
  H <= 0 -> mur self H = Ok (hb self 1 / const.mu0).
Proof.
  intros HH. unfold mur. destruct (Rlt_dec 0 H); [lra |].
  apply safe_div_nz, mu0_neq_0.
Qed.

(** C7. For every H <= 0, in particular H = 0, [mur] raises nothing and
    returns the fallback B(1)/mu0, the value at unit field; for every
    H > 0 it returns B(H)/H/mu0. *)
Theorem mur_zero_field_fallback (H : R) :
  (H <= 0 -> mur self H = Ok (hb self 1 / const.mu0)) /\
  (0 < H -> mur self H = Ok (hb self H / H / const.mu0)) /\
  mur self 0 = Ok (hb self 1 / const.mu0).
Proof.
  split; [apply mur_fallback |]. split; [apply mur_positive_field |].
  apply mur_fallback. lra.
Qed.

Lemma mur_value_eq (H : R) : mur self H = Ok (mur_value self H).
Proof.
  unfold mur_value. destruct (Rlt_dec 0 H).
  - apply mur_positive_field. assumption.
  - apply mur_fallback. lra.
Qed.

Lemma mur_d_value_eq (H : R) : mur_d self H = Ok (mur_d_value self H).
Proof.
  unfold mur_d. rewrite mur_value_eq. simpl.
  rewrite safe_div_nz by apply mu0_neq_0. simpl.
  unfold mur_d_value, dmu_dH, fp. f_equal. cbv zeta. field. apply mu0_neq_0.
Qed.

(** C8. For every H, [mur_d H] is [mur H + H * (du/dH) / mu0], with
    du/dH the forward difference [(u (H + 1e-3) - u H) / 1e-3] of the
    permeability interpolant. *)
Theorem mur_d_forward_difference (H : R) :
  dmu_dH self H = (hu self (H + 1e-3) - hu self H) / 1e-3 /\
  mur_d self H =
    (m ← mur self H;
     Ok (m + H * ((hu self (H + 1e-3) - hu self H) / 1e-3) / const.mu0)).
Proof.
  split; [reflexivity |].
  rewrite mur_d_value_eq, mur_value_eq. reflexivity.
Qed.

End material_model.

(** ** Element formulas *)

Section permeance_value.
Import Permeance.
Variables (id : string) (a b : Z) (label : option string).

Lemma P_value (mu mu_d w d l : R) :
  l <> 0 -> P (mk id a b mu mu_d w d l label) = Ok (permeance_formula mu w d l).
Proof. intros Hl. unfold P. simpl. rewrite safe_div_nz by assumption. reflexivity. Qed.

Lemma dP_value (mu mu_d w d l : R) :
  l <> 0 -> dP (mk id a b mu mu_d w d l label) = Ok (permeance_formula mu_d w d l).
Proof. intros Hl. unfold dP. simpl. rewrite safe_div_nz by assumption. reflexivity. Qed.

(** C6. For every permeance element (of nonzero path length, as
    [add_permeance] enforces) [P()] is [mu0*mur*w*d/l*1e-3] and [dP()] is
    the same formula at [mur_d]; multiplying [w], [d] or the permeability
    by [k] multiplies the value by [k], and multiplying [l] by a nonzero
    [k] divides it by [k]. *)
Theorem permeance_P_dP_scaling (mu mu_d w d l k : R) :
  l <> 0 ->
  let p := mk id a b mu mu_d w d l label in
  P p = Ok (const.mu0 * mu * w * d / l * 1e-3) /\
  dP p = Ok (const.mu0 * mu_d * w * d / l * 1e-3) /\
  dP p = P (set_mur p mu_d mu_d) /\
  P (mk id a b mu mu_d (k * w) d l label) = Ok (k * permeance_formula mu w d l) /\
  dP (mk id a b mu mu_d (k * w) d l label) = Ok (k * permeance_formula mu_d w d l) /\
  P (mk id a b mu mu_d w (k * d) l label) = Ok (k * permeance_formula mu w d l) /\
  dP (mk id a b mu mu_d w (k * d) l label) = Ok (k * permeance_formula mu_d w d l) /\
  P (mk id a b (k * mu) mu_d w d l label) = Ok (k * permeance_formula mu w d l) /\
  dP (mk id a b mu (k * mu_d) w d l label) = Ok (k * permeance_formula mu_d w d l) /\
  (k <> 0 ->
   P (mk id a b mu mu_d w d (k * l) label) = Ok (permeance_formula mu w d l / k) /\
   dP (mk id a b mu mu_d w d (k * l) label) = Ok (permeance_formula mu_d w d l / k)).
Proof.
  intros Hl p. subst p. unfold set_mur. simpl.
  rewrite !P_value, !dP_value by assumption.
  unfold permeance_formula.
  repeat (split; [f_equal; field; assumption |]).
  intros Hk.
  rewrite P_value, dP_value by (apply Rmult_integral_contrapositive; tauto).
  unfold permeance_formula. split; f_equal; field; tauto.
Qed.

End permeance_value.

(** C6 at the air-gap element of the example circuit, width doubled. *)
Lemma permeance_P_dP_scaling_witness :
  Permeance.P (Permeance.mk "Rg" 2 0 1 1 (2 * 10) 10 1 None)
  = Ok (2 * permeance_formula 1 10 10 1).
Proof.
  assert (H : (1:R) <> 0) by lra.
  exact (proj1 (proj2 (proj2 (proj2
    (permeance_P_dP_scaling "Rg" 2%Z 0%Z None 1 1 10 10 1 2 H))))).
Defined.

(** C7 at a line [B = mu0 * (H + 1)], for fields 0 and 2. *)
Lemma mur_zero_field_fallback_witness :
  let m := non_linear_bh.mk_bh_model "line" (fun H => const.mu0 * (H + 1)) (fun _ => const.mu0) in
  non_linear_bh.mur m 0 = Ok (const.mu0 * (1 + 1) / const.mu0) /\
  non_linear_bh.mur m 2 = Ok (const.mu0 * (2 + 1) / 2 / const.mu0).
Proof.
  intros m. split.
  - apply (proj1 (mur_zero_field_fallback m 0)). lra.
  - apply (proj1 (proj2 (mur_zero_field_fallback m 2))). lra.
Defined.

(** ** The node dictionary *)

Section node_dictionary.

Lemma nodes_inv_empty : nodes_inv ∅ 0 false.
Proof.
  split.
  - intros i. rewrite lookup_empty. split.
    + intros [? [=]].
    + intros [H | [_ [=]]]. lia.
  - reflexivity.
  - rewrite lookup_empty. split; [intros [? [=]] | discriminate].
  - intros s v. rewrite lookup_empty. discriminate.
  - rewrite map_filter_empty. reflexivity.
Qed.

Lemma got_ref_inv c k g :
  nodes_inv (nodes_dict c) k g -> got_ref c = g.
Proof.
  intros Hinv. unfold got_ref.
  destruct (nodes_dict c !! (inl 0%Z : key)) as [v|] eqn:E.
  - assert (Hs : is_Some (nodes_dict c !! (inl 0%Z : key))) by (rewrite E; eauto).
    apply (ni_int _ _ _ Hinv) in Hs as [Hs | [_ Hs]]; [lia | congruence].
  - destruct g; [| reflexivity].
    assert (Hs : is_Some (nodes_dict c !! (inl 0%Z : key))).
    { apply (ni_int _ _ _ Hinv). right. split; reflexivity. }
    rewrite E in Hs. destruct Hs as [? [=]].
Qed.

Lemma get_nodes_number_inv c k g :
  nodes_inv (nodes_dict c) k g ->
  get_nodes_number c = (Z.of_nat k + if g then 1 else 0)%Z.
Proof.
  intros Hinv. unfold get_nodes_number. rewrite (ni_size _ _ _ Hinv).
  rewrite Nat2Z.inj_mul, Z.mul_comm, Z.div_mul by lia.
  destruct g; lia.
Qed.

Lemma next_int_node_inv c k g :
  nodes_inv (nodes_dict c) k g -> next_int_node c = (Z.of_nat k + 1)%Z.
Proof.
  intros Hinv. unfold next_int_node.
  fold (get_nodes_number c).
  rewrite (get_nodes_number_inv _ _ _ Hinv), (got_ref_inv _ _ _ Hinv).
  destruct g; lia.
Qed.

(** Registering the ground name. *)
Lemma register_ground_inv nd k :
  nodes_inv nd k false ->
  nodes_inv (<[(inr "0"%string : key) := (inl 0%Z : key)]>
               (<[(inl 0%Z : key) := (inr "0"%string : key)]> nd)) k true.
Proof.
  intros Hinv.
  assert (Hn0 : nd !! (inl 0%Z : key) = None).
  { destruct (nd !! (inl 0%Z : key)) eqn:E; [| reflexivity].
    assert (Hs : is_Some (nd !! (inl 0%Z : key))) by (rewrite E; eauto).
    apply (ni_int _ _ _ Hinv) in Hs as [Hs | [_ Hs]]; [lia | discriminate]. }
  assert (Hg0 : nd !! (inr "0"%string : key) = None).
  { destruct (nd !! (inr "0"%string : key)) eqn:E; [| reflexivity].
    assert (Hs : is_Some (nd !! (inr "0"%string : key))) by (rewrite E; eauto).
    apply (ni_gnd _ _ _ Hinv) in Hs. discriminate. }
  split.
  - intros i. rewrite lookup_insert_ne by discriminate.
    rewrite lookup_insert_is_Some. rewrite (ni_int _ _ _ Hinv).
    split.
    + intros [[= <-] | [_ [H | [_ [=]]]]]; [right | left]; auto.
    + intros [H | [-> _]]; [right | left]; [| reflexivity].
      split; [intros [= <-]; lia | left; assumption].
  - rewrite map_size_insert_None.
    2:{ rewrite lookup_insert_ne by discriminate. assumption. }
    rewrite map_size_insert_None by assumption.
    rewrite (ni_size _ _ _ Hinv). lia.
  - rewrite lookup_insert_eq. split; eauto.
  - intros s v Hs.
    apply lookup_insert_Some in Hs as [[[= <-] <-] | [Hne Hs]].
    + exists 0%Z. split; [reflexivity |].
      rewrite lookup_insert_ne by discriminate. rewrite lookup_insert_eq. eauto.
    + rewrite lookup_insert_ne in Hs by discriminate.
      destruct (ni_name _ _ _ Hinv _ _ Hs) as (i & -> & Hi).
      exists i. split; [reflexivity |].
      rewrite lookup_insert_ne by discriminate.
      apply lookup_insert_is_Some'. right. assumption.
  - rewrite map_filter_insert_False by (unfold nonground_name; simpl; tauto).
    rewrite delete_id.
    2:{ rewrite lookup_insert_ne by discriminate. assumption. }
    rewrite map_filter_insert_False by (unfold nonground_name; simpl; tauto).
    rewrite delete_id by assumption.
    apply (ni_count _ _ _ Hinv).
Qed.

(** Registering a new name other than ground under the next integer. *)
Lemma register_fresh_inv nd k g s :
  nodes_inv nd k g -> s <> "0"%string -> nd !! (inr s : key) = None ->
  nodes_inv (<[(inr s : key) := (inl (Z.of_nat k + 1)%Z : key)]>
               (<[(inl (Z.of_nat k + 1)%Z : key) := (inr s : key)]> nd)) (S k) g.
Proof.
  intros Hinv Hs0 Hs.
  assert (Hn : nd !! (inl (Z.of_nat k + 1)%Z : key) = None).
  { destruct (nd !! (inl (Z.of_nat k + 1)%Z : key)) eqn:E; [| reflexivity].
    assert (Hi : is_Some (nd !! (inl (Z.of_nat k + 1)%Z : key))) by (rewrite E; eauto).
    apply (ni_int _ _ _ Hinv) in Hi as [Hi | [Hi _]]; lia. }
  split.
  - intros i. rewrite lookup_insert_ne by discriminate.
    rewrite lookup_insert_is_Some. rewrite (ni_int _ _ _ Hinv).
    split.
    + intros [[= <-] | [_ [H | H]]]; [left; lia | left; lia | right; assumption].
    + intros [H | H]; [| right; split; [intros [= H']; lia | right; assumption]].
      destruct (decide (i = (Z.of_nat k + 1)%Z)) as [-> | Hne]; [left; reflexivity |].
      right. split; [congruence | left; lia].
  - rewrite map_size_insert_None.
    2:{ rewrite lookup_insert_ne by discriminate. assumption. }
    rewrite map_size_insert_None by assumption.
    rewrite (ni_size _ _ _ Hinv). lia.
  - rewrite lookup_insert_ne by congruence.
    rewrite lookup_insert_ne by discriminate.
    apply (ni_gnd _ _ _ Hinv).
  - intros s' v Hs'.
    apply lookup_insert_Some in Hs' as [[[= <-] <-] | [Hne Hs']].
    + eexists. split; [reflexivity |].
      rewrite lookup_insert_ne by discriminate. rewrite lookup_insert_eq. eauto.
    + rewrite lookup_insert_ne in Hs' by discriminate.
      destruct (ni_name _ _ _ Hinv _ _ Hs') as (i & -> & Hi).
      exists i. split; [reflexivity |].
      rewrite lookup_insert_ne by discriminate.
      apply lookup_insert_is_Some'. right. assumption.
  - rewrite map_filter_insert_True by (unfold nonground_name; simpl; assumption).
    rewrite map_size_insert_None.
    2:{ apply map_lookup_filter_None. left.
        rewrite lookup_insert_ne by discriminate. assumption. }
    rewrite map_filter_insert_False by (unfold nonground_name; simpl; tauto).
    rewrite delete_id by assumption.
    rewrite (ni_count _ _ _ Hinv). reflexivity.
Qed.

(** What [add_node] does to a dictionary of that shape. *)
Lemma add_node_inv c k g s :
  nodes_inv (nodes_dict c) k g ->
  exists nd' i k' g',
    add_node c s = (set_nodes_dict c nd', Ok i) /\
    nodes_inv nd' k' g' /\
    nodes_dict c ⊆ nd' /\
    nd' !! (inr s : key) = Some (inl i) /\
    is_Some (nd' !! (inl i : key)) /\
    (nodes_dict c !! (inr s : key) <> None -> nd' = nodes_dict c) /\
    (g = true -> g' = true).
Proof.
  intros Hinv. unfold add_node.
  destruct (nodes_dict c !! (inr s : key)) as [v|] eqn:E.
  - destruct (ni_name _ _ _ Hinv _ _ E) as (i & -> & Hi).
    exists (nodes_dict c), i, k, g.
    destruct c; simpl in *.
    split; [reflexivity |]. split; [assumption |]. split; [reflexivity |].
    split; [assumption |]. split; [assumption |]. split; auto.
  - destruct (String.eqb_spec s "0") as [-> | Hs0].
    + assert (Hg : g = false).
      { destruct g; [| reflexivity].
        assert (Hs : is_Some (nodes_dict c !! (inr "0"%string : key)))
          by (apply (ni_gnd _ _ _ Hinv); reflexivity).
        rewrite E in Hs. destruct Hs as [? [=]]. }
      subst g. pose proof (register_ground_inv _ _ Hinv) as Hinv'.
      eexists _, 0%Z, k, true. unfold register.
      split; [reflexivity |]. split; [exact Hinv' |].
      split.
      { etrans; [apply insert_subseteq | apply insert_subseteq].
        - destruct (nodes_dict c !! (inl 0%Z : key)) eqn:E0; [| reflexivity].
          assert (Hs : is_Some (nodes_dict c !! (inl 0%Z : key))) by (rewrite E0; eauto).
          apply (ni_int _ _ _ Hinv) in Hs as [Hs | [_ Hs]]; [lia | discriminate].
        - rewrite lookup_insert_ne by discriminate. assumption. }
      split; [apply lookup_insert_eq |].
      split.
      { rewrite lookup_insert_ne by discriminate. rewrite lookup_insert_eq. eauto. }
      split; [congruence | auto].
    + rewrite (next_int_node_inv _ _ _ Hinv).
      pose proof (register_fresh_inv _ _ _ _ Hinv Hs0 E) as Hinv'.
      eexists _, _, (S k), g. unfold register.
      split; [reflexivity |]. split; [exact Hinv' |].
      split.
      { etrans; [apply insert_subseteq | apply insert_subseteq].
        - destruct (nodes_dict c !! (inl (Z.of_nat k + 1)%Z : key)) eqn:E0; [| reflexivity].
          assert (Hi : is_Some (nodes_dict c !! (inl (Z.of_nat k + 1)%Z : key)))
            by (rewrite E0; eauto).
          apply (ni_int _ _ _ Hinv) in Hi as [Hi | [Hi _]]; lia.
        - rewrite lookup_insert_ne by discriminate. assumption. }
      split; [apply lookup_insert_eq |].
      split.
      { rewrite lookup_insert_ne by discriminate. rewrite lookup_insert_eq. eauto. }
      split; [congruence | auto].
Qed.

End node_dictionary.

(** ** Circuits built through the methods *)

Section built_circuits.

Lemma set_nodes_dict_twice c nd1 nd2 :
  set_nodes_dict (set_nodes_dict c nd1) nd2 = set_nodes_dict c nd2.
Proof. reflexivity. Qed.

Lemma set_nodes_dict_id c : set_nodes_dict c (nodes_dict c) = c.
Proof. destruct c; reflexivity. Qed.

(** The two [add_node] calls that open every [add_*] method. *)
Lemma add_two_nodes c k g s1 s2 :
  nodes_inv (nodes_dict c) k g ->
  exists nd1 nd' i1 i2 k' g',
    add_node c s1 = (set_nodes_dict c nd1, Ok i1) /\
    add_node (set_nodes_dict c nd1) s2 = (set_nodes_dict c nd', Ok i2) /\
    nodes_inv nd' k' g' /\
    nodes_dict c ⊆ nd' /\
    nd' !! (inr s1 : key) = Some (inl i1) /\
    nd' !! (inr s2 : key) = Some (inl i2) /\
    is_Some (nd' !! (inl i1 : key)) /\
    is_Some (nd' !! (inl i2 : key)) /\
    (g = true -> g' = true).
Proof.
  intros Hinv.
  destruct (add_node_inv c k g s1 Hinv)
    as (nd1 & i1 & k1 & g1 & E1 & Hinv1 & Hsub1 & Hs1 & Hi1 & _ & Hg1).
  destruct (add_node_inv (set_nodes_dict c nd1) k1 g1 s2 Hinv1)
    as (nd2 & i2 & k2 & g2 & E2 & Hinv2 & Hsub2 & Hs2 & Hi2 & _ & Hg2).
  simpl in Hsub2.
  exists nd1, nd2, i1, i2, k2, g2.
  split; [exact E1 |]. split; [exact E2 |]. split; [exact Hinv2 |].
  split; [etrans; eassumption |].
  split; [eapply lookup_weaken; eassumption |].
  split; [assumption |].
  split.
  { destruct Hi1 as [v Hv]. exists v. eapply lookup_weaken; eassumption. }
  split; [assumption | auto].
Qed.

Lemma circuit_inv_append c nd' k' g' e :
  (exists k g, circuit_inv c k g) ->
  nodes_inv nd' k' g' -> nodes_dict c ⊆ nd' ->
  is_Some (nd' !! (inl (elem_n1 e) : key)) ->
  is_Some (nd' !! (inl (elem_n2 e) : key)) ->
  (forall p, e = EPermeance p -> Permeance.l p <> 0 /\ Permeance.mur_d p = Permeance.mur p) ->
  circuit_inv (append (set_nodes_dict c nd') e) k' g'.
Proof.
  intros (k & g & Hn & He & Hp) Hinv' Hsub H1 H2 Hnew.
  split; [exact Hinv' |]. simpl. split.
  - intros e' [Hin | ->%list_elem_of_singleton]%elem_of_app; [| auto].
    destruct (He e' Hin) as [[v1 Hv1] [v2 Hv2]].
    split; eexists; eapply lookup_weaken; eassumption.
  - intros p [Hin | Hin%list_elem_of_singleton]%elem_of_app; auto.
Qed.

Lemma circuit_inv_nodes c nd' k' g' :
  (exists k g, circuit_inv c k g) ->
  nodes_inv nd' k' g' -> nodes_dict c ⊆ nd' ->
  circuit_inv (set_nodes_dict c nd') k' g'.
Proof.
  intros (k & g & Hn & He & Hp) Hinv' Hsub.
  split; [exact Hinv' |]. simpl. split; [| exact Hp].
  intros e' Hin. destruct (He e' Hin) as [[v1 Hv1] [v2 Hv2]].
  split; eexists; eapply lookup_weaken; eassumption.
Qed.

Lemma create_node_state c k g s :
  nodes_inv (nodes_dict c) k g -> (create_node c s).1 = (add_node c s).1.
Proof.
  intros Hinv. unfold create_node, add_node.
  destruct (nodes_dict c !! (inr s : key)) as [v|] eqn:E; [| reflexivity].
  destruct (ni_name _ _ _ Hinv _ _ E) as (i & -> & _). reflexivity.
Qed.

Lemma add_permeance_state c k g part_id s1 s2 mur w d l label :
  nodes_inv (nodes_dict c) k g ->
  let c2 := (add_node (add_node c s1).1 s2).1 in
  exists i1 i2,
    nodes_dict c2 !! (inr s1 : key) = Some (inl i1) /\
    nodes_dict c2 !! (inr s2 : key) = Some (inl i2) /\
    add_permeance c part_id s1 s2 mur w d l label =
      if Req_dec_T w 0 then (c2, Raise CircuitError)
      else if Req_dec_T d 0 then (c2, Raise CircuitError)
      else if Req_dec_T l 0 then (c2, Raise CircuitError)
      else match label with
           | Some m =>
               match models c !! m with
               | None => (c2, Raise ModelError)
               | Some _ =>
                   (append c2 (EPermeance (Permeance.init part_id i1 i2 mur w d l label)), Ok tt)
               end
           | None =>
               (append c2 (EPermeance (Permeance.init part_id i1 i2 mur w d l label)), Ok tt)
           end.
Proof.
  intros Hinv c2.
  destruct (add_two_nodes c k g s1 s2 Hinv)
    as (nd1 & nd' & i1 & i2 & k' & g' & E1 & E2 & _ & _ & Hs1 & Hs2 & _).
  subst c2. exists i1, i2. unfold add_permeance.
  rewrite E1. simpl. rewrite E2. simpl. auto.
Qed.

Lemma add_mmf_source_state c k g part_id s1 s2 value :
  nodes_inv (nodes_dict c) k g ->
  exists nd' i1 i2 k' g',
    add_mmf_source c part_id s1 s2 value =
      (append (set_nodes_dict c nd') (EMMFSource (MMFSource.mk part_id i1 i2 value)), Ok tt) /\
    nodes_inv nd' k' g' /\ nodes_dict c ⊆ nd' /\
    is_Some (nd' !! (inl i1 : key)) /\ is_Some (nd' !! (inl i2 : key)) /\
    (g = true -> g' = true).
Proof.
  intros Hinv.
  destruct (add_two_nodes c k g s1 s2 Hinv)
    as (nd1 & nd' & i1 & i2 & k' & g' & E1 & E2 & Hinv' & Hsub & _ & _ & H1 & H2 & Hg).
  exists nd', i1, i2, k', g'. unfold add_mmf_source.
  rewrite E1, E2. auto 10.
Qed.

Lemma add_phi_source_state c k g part_id s1 s2 value :
  nodes_inv (nodes_dict c) k g ->
  exists nd' i1 i2 k' g',
    add_phi_source c part_id s1 s2 value =
      (append (set_nodes_dict c nd') (EPHISource (PHISource.mk part_id i1 i2 value)), Ok tt) /\
    nodes_inv nd' k' g' /\ nodes_dict c ⊆ nd' /\
    is_Some (nd' !! (inl i1 : key)) /\ is_Some (nd' !! (inl i2 : key)) /\
    (g = true -> g' = true).
Proof.
  intros Hinv.
  destruct (add_two_nodes c k g s1 s2 Hinv)
    as (nd1 & nd' & i1 & i2 & k' & g' & E1 & E2 & Hinv' & Hsub & _ & _ & H1 & H2 & Hg).
  exists nd', i1, i2, k', g'. unfold add_phi_source.
  rewrite E1, E2. auto 10.
Qed.

Lemma built_inv c : built c -> exists k g, circuit_inv c k g.
Proof.
  induction 1 as [title | c name Hb IH | c name Hb IH | c ty label hb hu Hb IH
                 | c label Hb IH | c part s1 s2 mur w d l label Hb IH
                 | c part s1 s2 value Hb IH | c part s1 s2 value Hb IH].
  - exists 0%nat, false. split; [apply nodes_inv_empty |].
    simpl. split; intros ? Hin; apply elem_of_nil in Hin; contradiction.
  - destruct IH as (k & g & IH). pose proof IH as (Hinv & _).
    rewrite (create_node_state _ _ _ _ Hinv).
    destruct (add_node_inv c k g name Hinv) as (nd' & i & k' & g' & E & Hinv' & Hsub & _).
    rewrite E. simpl. exists k', g'. apply circuit_inv_nodes; eauto.
  - destruct IH as (k & g & IH). pose proof IH as (Hinv & _).
    destruct (add_node_inv c k g name Hinv) as (nd' & i & k' & g' & E & Hinv' & Hsub & _).
    rewrite E. simpl. exists k', g'. apply circuit_inv_nodes; eauto.
  - destruct IH as (k & g & IH). exists k, g. unfold add_model.
    destruct (String.eqb ty "BH"); exact IH.
  - destruct IH as (k & g & IH). exists k, g. exact IH.
  - destruct IH as (k & g & IH). pose proof IH as (Hinv & _).
    destruct (add_two_nodes c k g s1 s2 Hinv)
      as (nd1 & nd' & i1 & i2 & k' & g' & E1 & E2 & Hinv' & Hsub & Hs1 & Hs2 & H1 & H2 & _).
    destruct (add_permeance_state c k g part s1 s2 mur w d l label Hinv)
      as (j1 & j2 & Hj1 & Hj2 & ->).
    rewrite E1 in *. simpl in *. rewrite E2 in *. simpl in Hj1, Hj2.
    assert (j1 = i1) as -> by congruence. assert (j2 = i2) as -> by congruence.
    exists k', g'.
    assert (Hplain : circuit_inv (set_nodes_dict c nd') k' g')
      by (apply circuit_inv_nodes; eauto).
    assert (Happ : l <> 0 ->
              circuit_inv (append (set_nodes_dict c nd')
                (EPermeance (Permeance.init part i1 i2 mur w d l label))) k' g').
    { intros Hl. apply circuit_inv_append; eauto.
      intros p [= <-]. split; [exact Hl | reflexivity]. }
    repeat (destruct (Req_dec_T _ 0); [exact Hplain |]).
    destruct label as [m |]; [destruct (models c !! m) |]; simpl; auto.
  - destruct IH as (k & g & IH). pose proof IH as (Hinv & _).
    destruct (add_mmf_source_state c k g part s1 s2 value Hinv)
      as (nd' & i1 & i2 & k' & g' & -> & Hinv' & Hsub & H1 & H2 & _).
    exists k', g'. apply circuit_inv_append; eauto. discriminate.
  - destruct IH as (k & g & IH). pose proof IH as (Hinv & _).
    destruct (add_phi_source_state c k g part s1 s2 value Hinv)
      as (nd' & i1 & i2 & k' & g' & -> & Hinv' & Hsub & H1 & H2 & _).
    exists k', g'. apply circuit_inv_append; eauto. discriminate.
Qed.

(** In a built circuit a name is bound to an integer. *)
Lemma built_name_bound_to_int c s v :
  built c -> nodes_dict c !! (inr s : key) = Some v -> exists i : Z, v = inl i.
Proof.
  intros (k & g & Hinv & _)%built_inv Hs.
  destruct (ni_name _ _ _ Hinv _ _ Hs) as (i & -> & _). eauto.
Qed.

End built_circuits.

(** ** Node and element creation *)

Lemma create_node_existing c name :
  is_Some (nodes_dict c !! (inr name : key)) ->
  create_node c name = (c, Raise ValueError).
Proof. intros [v Hv]. unfold create_node. rewrite Hv. reflexivity. Qed.

Lemma create_node_fresh c name :
  nodes_dict c !! (inr name : key) = None ->
  (create_node c name).2 = Ok name /\
  is_Some (nodes_dict (create_node c name).1 !! (inr name : key)).
Proof.
  intros Hn. unfold create_node. rewrite Hn. simpl. split; [reflexivity |].
  rewrite lookup_insert_eq. eauto.
Qed.

(** C4. [create_node] raises on a name the circuit already has.  That
    includes the ground name: on a new circuit the first
    [create_node('0')] registers ground and the second raises
    [ValueError], where the docstring and the specification promise no exception. *)
Theorem create_node_ground_twice_raises :
  let c0 := init "EMC" in
  let c1 := (create_node c0 "0").1 in
  (create_node c0 "0").2 = Ok "0"%string /\
  create_node c1 "0" = (c1, Raise ValueError).
Proof.
  intros c0 c1. split; [reflexivity |].
  apply create_node_existing. subst c1 c0. unfold create_node. simpl.
  rewrite lookup_empty. simpl. rewrite lookup_insert_eq. eauto.
Qed.

(** C10. [add_permeance] registers both node names before it validates:
    whatever the outcome, the dictionary is the one the two [add_node]
    calls leave, so names that were new stay registered.  It raises
    exactly when [w], [d] or [l] is zero or the label is given and not in
    the registry; then no element is appended.  Otherwise the new
    permeance is appended at the end. *)
Theorem add_permeance_not_atomic c part_id s1 s2 mur w d l label :
  built c ->
  let c' := (add_permeance c part_id s1 s2 mur w d l label).1 in
  let r := (add_permeance c part_id s1 s2 mur w d l label).2 in
  nodes_dict c' = nodes_dict (add_node (add_node c s1).1 s2).1 /\
  nodes_dict c ⊆ nodes_dict c' /\
  is_Some (nodes_dict c' !! (inr s1 : key)) /\
  is_Some (nodes_dict c' !! (inr s2 : key)) /\
  models c' = models c /\
  ((exists e, r = Raise e) <->
   (w = 0 \/ d = 0 \/ l = 0 \/ exists m, label = Some m /\ models c !! m = None)) /\
  ((exists e, r = Raise e) -> elems c' = elems c) /\
  (r = Ok tt ->
   exists i1 i2,
     nodes_dict c' !! (inr s1 : key) = Some (inl i1) /\
     nodes_dict c' !! (inr s2 : key) = Some (inl i2) /\
     elems c' = elems c ++ [EPermeance (Permeance.init part_id i1 i2 mur w d l label)]).
Proof.
  intros (k & g & Hinv & _)%built_inv c' r. subst c' r.
  destruct (add_two_nodes c k g s1 s2 Hinv)
    as (nd1 & nd' & i1 & i2 & k' & g' & E1 & E2 & _ & Hsub & Hs1 & Hs2 & _).
  destruct (add_permeance_state c k g part_id s1 s2 mur w d l label Hinv)
    as (j1 & j2 & Hj1 & Hj2 & ->).
  rewrite E1 in *. simpl in *. rewrite E2 in *. simpl in *.
  assert (j1 = i1) as -> by congruence. assert (j2 = i2) as -> by congruence.
  destruct (Req_dec_T w 0) as [Hw | Hw]; simpl.
  { repeat (split; eauto). discriminate. }
  destruct (Req_dec_T d 0) as [Hd | Hd]; simpl.
  { repeat (split; eauto). discriminate. }
  destruct (Req_dec_T l 0) as [Hl | Hl]; simpl.
  { repeat (split; eauto). discriminate. }
  destruct label as [m |]; [destruct (models c !! m) eqn:Em |]; simpl.
  - repeat (split; eauto); try (intros [e [=]]).
    intros [? | [? | [? | (m' & [= <-] & Hm)]]]; try contradiction. congruence.
  - repeat (split; eauto 10). discriminate.
  - repeat (split; eauto); try (intros [e [=]]).
    intros [? | [? | [? | (m' & [=] & _)]]]; contradiction.
Qed.

(** C10 on a new circuit: a zero width is refused after nodes [a] and [b]
    were registered. *)
Lemma add_permeance_not_atomic_witness :
  let c := init "EMC" in
  let c' := (add_permeance c "R1" "a" "b" 1 0 1 1 None).1 in
  nodes_dict c !! (inr "a"%string : key) = None /\
  is_Some (nodes_dict c' !! (inr "a"%string : key)) /\
  is_Some (nodes_dict c' !! (inr "b"%string : key)) /\
  elems c' = [].
Proof.
  intros c c'.
  pose proof (add_permeance_not_atomic c "R1" "a" "b" 1 0 1 1 None (built_init "EMC"))
    as (_ & _ & Ha & Hb & _ & Hr & He & _).
  split; [reflexivity |]. split; [exact Ha |]. split; [exact Hb |].
  apply He, Hr. left. reflexivity.
Defined.

(** ** Arrays *)

Lemma bind_Ok {A B} (m : result A) (f : A -> result B) (b : B) :
  (m ≫= f) = Ok b -> exists a, m = Ok a /\ f a = Ok b.
Proof. destruct m as [a | e]; simpl; [eauto | discriminate]. Qed.

Lemma bind_Ok_l {A B} (m : result A) (f : A -> result B) (a : A) :
  m = Ok a -> (m ≫= f) = f a.
Proof. intros ->. reflexivity. Qed.

(** Splits a hypothesis [(x ← m; k) = Ok b] into its two steps. *)
Ltac bind_inv H :=
  let a := fresh "a" in
  let Ha := fresh "E" in
  apply bind_Ok in H as (a & Ha & H); simpl in H.

Lemma np_index_Ok n i k : np_index n i = Ok k -> (k < n)%nat.
Proof.
  unfold np_index. repeat case_match; intros [= <-]; lia.
Qed.

Lemma np_index_in_range n i :
  (0 <= i < Z.of_nat n)%Z -> np_index n i = Ok (Z.to_nat i).
Proof.
  intros Hi. unfold np_index.
  destruct (Z.leb_spec 0 i); [| lia]. destruct (Z.ltb_spec i (Z.of_nat n)); [reflexivity | lia].
Qed.

Lemma vset_length v i a v' : vset v i a = Ok v' -> length v' = length v.
Proof. unfold vset. intros H. bind_inv H. injection H as <-. apply length_insert. Qed.

Lemma vget_in_range (v : vec) i :
  (0 <= i < Z.of_nat (length v))%Z -> exists a, vget v i = Ok a /\ v !! Z.to_nat i = Some a.
Proof.
  intros Hi. unfold vget. rewrite np_index_in_range by assumption. simpl.
  destruct (lookup_lt_is_Some_2 v (Z.to_nat i)) as [a Ha]; [lia |].
  rewrite Ha. eauto.
Qed.

Lemma vset_in_range (v : vec) i a :
  (0 <= i < Z.of_nat (length v))%Z -> vset v i a = Ok (<[Z.to_nat i := a]> v).
Proof. intros Hi. unfold vset. rewrite np_index_in_range by assumption. reflexivity. Qed.

Lemma square_zeros2 n : square n (zeros2 n n).
Proof.
  split; [apply length_replicate |].
  apply Forall_forall. intros row Hrow%elem_of_replicate. destruct Hrow as [-> _].
  apply length_replicate.
Qed.

Lemma mset_square n M i j a M' :
  mset M i j a = Ok M' -> square n M -> square n M'.
Proof.
  unfold mset. intros H [Hlen Hrows]. bind_inv H.
  destruct (M !! a0) as [row |] eqn:Erow; [| discriminate].
  bind_inv H. injection H as <-.
  split; [rewrite length_insert; assumption |].
  apply Forall_insert; [assumption |].
  rewrite (vset_length _ _ _ _ E0).
  eapply Forall_lookup_1 in Hrows; eauto.
Qed.

Lemma mget_in_range n M i j :
  square n M -> (0 <= i < Z.of_nat n)%Z -> (0 <= j < Z.of_nat n)%Z ->
  exists a, mget M i j = Ok a.
Proof.
  intros [Hlen Hrows] Hi Hj. unfold mget.
  rewrite np_index_in_range by lia. simpl.
  destruct (lookup_lt_is_Some_2 M (Z.to_nat i)) as [row Hrow]; [lia |].
  rewrite Hrow. eapply Forall_lookup_1 in Hrows; eauto.
  destruct (vget_in_range row j) as (a & -> & _); [lia | eauto].
Qed.

Lemma mset_in_range n M i j a :
  square n M -> (0 <= i < Z.of_nat n)%Z -> (0 <= j < Z.of_nat n)%Z ->
  exists M', mset M i j a = Ok M'.
Proof.
  intros [Hlen Hrows] Hi Hj. unfold mset.
  rewrite np_index_in_range by lia. simpl.
  destruct (lookup_lt_is_Some_2 M (Z.to_nat i)) as [row Hrow]; [lia |].
  rewrite Hrow. eapply Forall_lookup_1 in Hrows; eauto.
  rewrite vset_in_range by lia. simpl. eauto.
Qed.

(** *** Vectors as a module over the reals *)

Lemma length_zeros n : length (zeros n) = n.
Proof. apply length_replicate. Qed.

Lemma dot_zeros_r (u : vec) n : dot u (zeros n) = 0.
Proof.
  unfold dot, zeros. revert n. induction u as [| a u IH]; intros [| n]; simpl; try reflexivity.
  rewrite IH. lra.
Qed.

Lemma mat_vec_zeros (M : matrix) n : mat_vec M (zeros n) = zeros (length M).
Proof.
  unfold mat_vec. induction M as [| row M IH]; simpl; [reflexivity |].
  rewrite dot_zeros_r, IH. reflexivity.
Qed.

Lemma length_mat_vec (M : matrix) v : length (mat_vec M v) = length M.
Proof. apply length_map. Qed.

Lemma vsub_zeros (b : vec) n : length b = n -> vsub b (zeros n) = b.
Proof.
  unfold vsub, zeros. revert n. induction b as [| a b IH]; intros n Hn; [reflexivity |].
  destruct n as [| n]; [discriminate |]. simpl. rewrite IH by (simpl in Hn; lia).
  f_equal. lra.
Qed.

Lemma vsub_diag (b : vec) : vsub b b = zeros (length b).
Proof.
  unfold vsub, zeros. induction b as [| a b IH]; simpl; [reflexivity |].
  rewrite IH. f_equal. lra.
Qed.

Lemma vscale_zeros a n : vscale a (zeros n) = zeros n.
Proof.
  unfold vscale, zeros. induction n as [| n IH]; simpl; [reflexivity |].
  rewrite IH. f_equal. lra.
Qed.

Lemma vadd_zeros_r (v : vec) : vadd v (zeros (length v)) = v.
Proof.
  unfold vadd, zeros. induction v as [| a v IH]; simpl; [reflexivity |].
  rewrite IH. f_equal. lra.
Qed.

Lemma length_vadd u v : length u = length v -> length (vadd u v) = length u.
Proof. intros H. unfold vadd. rewrite length_zip_with. lia. Qed.

Lemma dot_vadd_r (r u v : vec) :
  length u = length v -> dot r (vadd u v) = dot r u + dot r v.
Proof.
  unfold dot, vadd. revert u v.
  induction r as [| a r IH]; intros [| x u] [| y v] Hlen; simpl in *;
    try discriminate; try lra.
  rewrite IH by lia. lra.
Qed.

Lemma mat_vec_vadd (M : matrix) (u v : vec) :
  length u = length v -> mat_vec M (vadd u v) = vadd (mat_vec M u) (mat_vec M v).
Proof.
  intros Hlen. unfold mat_vec. induction M as [| row M IH]; simpl; [reflexivity |].
  rewrite dot_vadd_r by assumption. unfold vadd in *. simpl. rewrite IH. reflexivity.
Qed.

Lemma vadd_cancel_l (u v : vec) :
  length u = length v -> vadd u v = u -> v = zeros (length v).
Proof.
  unfold vadd, zeros. revert v.
  induction u as [| a u IH]; intros [| b v] Hlen H; simpl in *; try discriminate; [reflexivity |].
  injection H as Ha Hu. rewrite <- (IH v) by (assumption || lia).
  f_equal. lra.
Qed.

Lemma norm_zeros n : norm (zeros n) = 0.
Proof.
  unfold norm, zeros.
  replace (foldr (fun a s => a * a + s) 0 (replicate n 0)) with 0; [apply sqrt_0 |].
  induction n as [| n IH]; simpl; [reflexivity |]. rewrite <- IH. lra.
Qed.

Lemma norm_singleton a : norm [a] = Rabs a.
Proof.
  unfold norm. simpl. replace (a * a + 0) with (Rsqr a) by (unfold Rsqr; lra).
  apply sqrt_Rsqr_abs.
Qed.

(** ** Assembly *)

Section assembly.
Import analysis.

Lemma shaped_zeros n : shaped n (mk_sys (zeros2 n n) (zeros2 n n) (zeros n)).
Proof. split; [| split]; [apply square_zeros2 .. | apply length_zeros]. Qed.

Lemma add_to_square n M i j v M' :
  add_to M i j v = Ok M' -> square n M -> square n M'.
Proof. unfold add_to. intros H. bind_inv H. bind_inv H. eapply mset_square; eauto. Qed.

Lemma sub_from_square n M i j v M' :
  sub_from M i j v = Ok M' -> square n M -> square n M'.
Proof. unfold sub_from. intros H. bind_inv H. bind_inv H. eapply mset_square; eauto. Qed.

(** Takes a successful run of loop-body code apart, one step at a time. *)
Ltac steps :=
  repeat match goal with
    | H : Ok _ = Ok _ |- _ => inversion H; subst; clear H
    | H : (if ?c then _ else _) = Ok _ |- _ => destruct c eqn:?
    | H : (_ ≫= _) = Ok _ |- _ => bind_inv H
    end.

Lemma stamp_elem_shaped n elem s s' :
  stamp_elem elem s = Ok s' -> shaped n s -> shaped n s'.
Proof.
  intros H (HA & HdA & Hb). unfold stamp_elem in H.
  destruct elem; steps; unfold shaped; simpl;
    repeat match goal with
      | H : add_to _ _ _ _ = Ok _ |- _ => eapply add_to_square in H; [| eassumption]
      | H : sub_from _ _ _ _ = Ok _ |- _ => eapply sub_from_square in H; [| eassumption]
      | H : vset _ _ _ = Ok _ |- _ => apply vset_length in H
      end; simpl in *; unfold square in *; intuition congruence.
Qed.

Lemma stamp_mmf_shaped n elem index s index' s' :
  stamp_mmf elem (index, s) = Ok (index', s') -> shaped n s -> shaped n s'.
Proof.
  intros H (HA & HdA & Hb). unfold stamp_mmf in H.
  destruct elem; steps; try (repeat split; assumption);
  unfold shaped; simpl in *;
  repeat match goal with
    | H : mset _ _ _ _ = Ok _ |- _ => eapply mset_square in H; [| eassumption]
    | H : vset _ _ _ = Ok _ |- _ => apply vset_length in H
    end; unfold square in *; intuition congruence.
Qed.

Lemma foldM_stamp_elem_shaped n es s s' :
  foldM stamp_elem es s = Ok s' -> shaped n s -> shaped n s'.
Proof.
  revert s. induction es as [| e es IH]; simpl; intros s H Hs.
  - injection H as <-. assumption.
  - bind_inv H. eapply IH; eauto using stamp_elem_shaped.
Qed.

Lemma foldM_stamp_mmf_shaped n es index s index' s' :
  foldM stamp_mmf es (index, s) = Ok (index', s') -> shaped n s -> shaped n s'.
Proof.
  revert index s. induction es as [| e es IH]; simpl; intros index s H Hs.
  - injection H as <- <-. assumption.
  - bind_inv H. destruct a as [index1 s1]. eapply IH; eauto using stamp_mmf_shaped.
Qed.

Lemma assemble_shaped c n s : assemble c n = Ok s -> shaped n s.
Proof.
  unfold assemble. intros H. bind_inv H. bind_inv H. destruct a0 as [index s2].
  injection H as <-.
  eapply foldM_stamp_mmf_shaped; [eassumption |].
  eapply foldM_stamp_elem_shaped; [eassumption | apply shaped_zeros].
Qed.

(** [make_system_matrix] returns arrays of the size of its argument. *)
Lemma make_system_matrix_shape c x c' J b :
  make_system_matrix c x = Ok (c', (J, b)) ->
  square (length x) J /\ length b = length x.
Proof.
  unfold make_system_matrix. intros H. bind_inv H. bind_inv H.
  injection H as <- <- <-.
  destruct (assemble_shaped _ _ _ E0) as ((HA & HAr) & HdA & Hb).
  split; [assumption |].
  unfold vsub. rewrite length_zip_with, length_mat_vec. lia.
Qed.

(** *** Linear elements give a Jacobian equal to the matrix *)

Lemma dP_linear p : Permeance.mur_d p = Permeance.mur p -> Permeance.dP p = Permeance.P p.
Proof. intros H. unfold Permeance.dP, Permeance.P. rewrite H. reflexivity. Qed.

Lemma stamp_elem_linear elem s s' :
  linear_elem elem -> stamp_elem elem s = Ok s' -> sdA s = sA s -> sdA s' = sA s'.
Proof.
  intros Hlin H Heq. unfold stamp_elem in H.
  destruct elem as [p | | |]; simpl in Hlin; steps; simpl in *; try assumption;
    destruct Hlin as [_ Hlin]; rewrite ?(dP_linear _ Hlin) in *; congruence.
Qed.

Lemma stamp_mmf_linear elem index s index' s' :
  stamp_mmf elem (index, s) = Ok (index', s') -> sdA s = sA s -> sdA s' = sA s'.
Proof.
  intros H Heq. unfold stamp_mmf in H.
  destruct elem; steps; try assumption; simpl in *; congruence.
Qed.

Lemma foldM_stamp_elem_linear es s s' :
  Forall linear_elem es -> foldM stamp_elem es s = Ok s' -> sdA s = sA s -> sdA s' = sA s'.
Proof.
  revert s. induction es as [| e es IH]; simpl; intros s Hlin H Heq.
  - injection H as <-. assumption.
  - bind_inv H. inversion Hlin; subst. eapply IH; eauto using stamp_elem_linear.
Qed.

Lemma foldM_stamp_mmf_linear es index s index' s' :
  foldM stamp_mmf es (index, s) = Ok (index', s') -> sdA s = sA s -> sdA s' = sA s'.
Proof.
  revert index s. induction es as [| e es IH]; simpl; intros index s H Heq.
  - injection H as <- <-. assumption.
  - bind_inv H. destruct a as [index1 s1]. eapply IH; eauto using stamp_mmf_linear.
Qed.

Lemma assemble_linear c n s :
  Forall linear_elem (elems c) -> assemble c n = Ok s -> sdA s = sA s.
Proof.
  unfold assemble. intros Hlin H. bind_inv H. bind_inv H. destruct a0 as [index s2].
  injection H as <-.
  eapply foldM_stamp_mmf_linear; [eassumption |].
  eapply foldM_stamp_elem_linear; [eassumption | eassumption | reflexivity].
Qed.

Lemma update_mur_linear c x :
  Forall linear_elem (elems c) -> update_mur c x = Ok c.
Proof.
  intros Hlin. unfold update_mur.
  assert (H : mapM (update_elem c x) (elems c) = Ok (elems c)).
  { generalize c at 1. intros c0.
    induction Hlin as [| e es He Hes IH]; simpl; [reflexivity |].
    assert (He' : update_elem c0 x e = Ok e).
    { destruct e as [p | | |]; simpl; try reflexivity.
      destruct He as [-> _]. reflexivity. }
    rewrite He'. simpl. rewrite IH. reflexivity. }
  rewrite H. simpl. destruct c; reflexivity.
Qed.

Lemma make_system_matrix_linear c x :
  Forall linear_elem (elems c) ->
  make_system_matrix c x =
    (s ← assemble c (length x);
     Ok (c, (sA s, vsub (sb s) (mat_vec (sA s) x)))).
Proof.
  intros Hlin. unfold make_system_matrix. rewrite update_mur_linear by assumption.
  simpl. destruct (assemble c (length x)) as [s | e] eqn:E; simpl; [| reflexivity].
  rewrite (assemble_linear _ _ _ Hlin E). reflexivity.
Qed.

End assembly.

(** ** The linear solve *)

Lemma linsolve_Ok M b x :
  linsolve M b = Ok x ->
  is_solution M b x /\ forall y, is_solution M b y -> y = x.
Proof.
  unfold linsolve.
  destruct (excluded_middle_informative (exists! x, is_solution M b x)) as [H | H];
    [| discriminate].
  intros [= <-].
  destruct (constructive_definite_description _ H) as [x Hx]. simpl.
  destruct H as (x' & Hx' & Huniq).
  split; [exact Hx |]. intros y Hy.
  rewrite <- (Huniq x Hx). symmetry. apply Huniq, Hy.
Qed.

Lemma linsolve_unique M b x :
  is_solution M b x -> (forall y, is_solution M b y -> y = x) -> linsolve M b = Ok x.
Proof.
  intros Hx Huniq. unfold linsolve.
  destruct (excluded_middle_informative (exists! x, is_solution M b x)) as [H | H].
  - destruct (constructive_definite_description _ H) as [x0 Hx0]. simpl.
    f_equal. apply Huniq, Hx0.
  - exfalso. apply H. exists x. split; [exact Hx |].
    intros y Hy. symmetry. apply Huniq, Hy.
Qed.

Lemma linsolve_Raise M b e :
  linsolve M b = Raise e -> e = LinAlgError /\ ~ exists! x, is_solution M b x.
Proof.
  unfold linsolve.
  destruct (excluded_middle_informative (exists! x, is_solution M b x)) as [H | H];
    [discriminate |].
  intros [= <-]. auto.
Qed.

Lemma linsolve_singular M b :
  singular M -> linsolve M b = Raise LinAlgError.
Proof.
  intros (y & Hlen & Hy & HMy).
  destruct (linsolve M b) as [x | e] eqn:E.
  - exfalso. apply linsolve_Ok in E as ((Hxl & Hx) & Huniq).
    assert (Hxy : is_solution M b (vadd x y)).
    { split; [rewrite length_vadd by congruence; assumption |].
      rewrite mat_vec_vadd by congruence. rewrite HMy, Hx.
      rewrite <- (length_mat_vec M x), Hx. apply vadd_zeros_r. }
    apply Huniq in Hxy. apply vadd_cancel_l in Hxy; [| congruence].
    apply Hy. congruence.
  - apply linsolve_Raise in E as [-> _]. reflexivity.
Qed.

(** A regular system with a zero right-hand side has the zero solution. *)
Lemma linsolve_zeros M b x :
  linsolve M b = Ok x -> linsolve M (zeros (length M)) = Ok (zeros (length M)).
Proof.
  intros ((Hxl & Hx) & Huniq)%linsolve_Ok.
  apply linsolve_unique.
  - split; [apply length_zeros | apply mat_vec_zeros].
  - intros y (Hyl & Hy).
    assert (Hxy : is_solution M b (vadd x y)).
    { split; [rewrite length_vadd by congruence; assumption |].
      rewrite mat_vec_vadd by congruence. rewrite Hy, Hx.
      rewrite <- (length_mat_vec M x), Hx. apply vadd_zeros_r. }
    apply Huniq in Hxy. apply vadd_cancel_l in Hxy; [| congruence].
    congruence.
Qed.

(** ** The Newton loop *)

Section newton.
Import analysis.
Variable gamma : R.

Lemma newton_pass_Ok st st' lg :
  newton_pass gamma st = Ok (st', lg) ->
  make_system_matrix (ls_circ st) (ls_x st) = Ok (ls_circ st', (pl_A lg, pl_b lg)) /\
  linsolve (pl_A lg) (pl_b lg) = Ok (pl_dx lg) /\
  pl_x lg = (if (ls_iter st =? 0)%Z then pl_dx lg
             else vadd (ls_x st) (vscale gamma (pl_dx lg))) /\
  pl_err lg = np_div (norm (pl_dx lg))
                (if (ls_iter st =? 0)%Z then norm (pl_dx lg) else ls_norm st) /\
  pl_iter lg = ls_iter st /\
  ls_x st' = pl_x lg /\ ls_norm st' = norm (pl_x lg) /\ ls_iter st' = ls_iter st.
Proof.
  unfold newton_pass. intros H.
  destruct (make_system_matrix (ls_circ st) (ls_x st)) as [[c' [A b]] | e]; [| discriminate].
  simpl in H. destruct (linsolve A b) as [dx | e] eqn:E; [| discriminate].
  simpl in H. injection H as <- <-. simpl. auto 10.
Qed.

Lemma newton_pass_singular st c' J b :
  make_system_matrix (ls_circ st) (ls_x st) = Ok (c', (J, b)) ->
  singular J -> newton_pass gamma st = Raise LinAlgError.
Proof.
  intros E HJ. unfold newton_pass. rewrite E. simpl.
  rewrite (linsolve_singular _ b HJ). reflexivity.
Qed.

Lemma newton_loop_S fuel st :
  newton_loop (S fuel) gamma st =
    match newton_pass gamma st with
    | Raise e => mk_run [] (Raised e)
    | Ok (st', log) =>
        if np_lt (pl_err log) 0.001 then
          mk_run [log] (Returned CONVERGED (ls_circ st') (ls_x st'))
        else if (2000 <? ls_iter st')%Z then
          mk_run [log] (Returned EXHAUSTED (ls_circ st') (ls_x st'))
        else
          let r := newton_loop fuel gamma (next_state st') in
          mk_run (log :: trace r) (out r)
    end.
Proof. reflexivity. Qed.

Lemma newton_loop_raise fuel st e :
  newton_pass gamma st = Raise e ->
  newton_loop (S fuel) gamma st = mk_run [] (Raised e).
Proof. intros H. rewrite newton_loop_S, H. reflexivity. Qed.

Lemma newton_loop_head fuel st lg :
  trace (newton_loop fuel gamma st) !! 0%nat = Some lg ->
  exists st', newton_pass gamma st = Ok (st', lg).
Proof.
  destruct fuel as [| fuel]; [discriminate |].
  rewrite newton_loop_S.
  destruct (newton_pass gamma st) as [[st' lg'] | e]; [| discriminate].
  repeat case_match; simpl; intros [= <-]; eauto.
Qed.

(** Two consecutive passes: the later one started from the iterate and
    the norm the earlier one left, one iteration count higher. *)
Lemma newton_loop_step fuel st k lg lg' :
  trace (newton_loop fuel gamma st) !! k = Some lg ->
  trace (newton_loop fuel gamma st) !! S k = Some lg' ->
  exists stk stk',
    newton_pass gamma stk = Ok (stk', lg') /\
    ls_x stk = pl_x lg /\ ls_norm stk = norm (pl_x lg) /\
    ls_iter stk = (pl_iter lg + 1)%Z.
Proof.
  revert st k. induction fuel as [| fuel IH]; intros st k; [discriminate |].
  rewrite newton_loop_S.
  destruct (newton_pass gamma st) as [[st' lg0] | e] eqn:E; [| discriminate].
  repeat case_match; simpl; try (destruct k; discriminate).
  destruct k as [| k]; simpl.
  - intros [= <-] Hnext.
    apply newton_loop_head in Hnext as [stk' Hpass].
    apply newton_pass_Ok in E as (_ & _ & _ & _ & Hit & Hx & Hn & Hi).
    exists (next_state st'), stk'. simpl. rewrite Hx, Hn, Hi, Hit. auto.
  - apply IH.
Qed.

Lemma newton_loop_iter fuel st k lg :
  trace (newton_loop fuel gamma st) !! k = Some lg ->
  pl_iter lg = (ls_iter st + Z.of_nat k)%Z.
Proof.
  revert st k. induction fuel as [| fuel IH]; intros st k; [discriminate |].
  rewrite newton_loop_S.
  destruct (newton_pass gamma st) as [[st' lg0] | e] eqn:E; [| discriminate].
  apply newton_pass_Ok in E as (_ & _ & _ & _ & Hit & _ & _ & Hi).
  repeat case_match; simpl;
    (destruct k as [| k]; simpl; [intros [= <-]; lia |]); try discriminate.
  intros Hk. apply IH in Hk. simpl in Hk. lia.
Qed.

Lemma newton_loop_any fuel st k lg :
  trace (newton_loop fuel gamma st) !! k = Some lg ->
  exists stk stk', newton_pass gamma stk = Ok (stk', lg).
Proof.
  intros H. destruct k as [| k].
  - apply newton_loop_head in H as [st' H]. eauto.
  - destruct (lookup_lt_is_Some_2 (trace (newton_loop fuel gamma st)) k) as [lg0 H0].
    { apply lookup_lt_Some in H. lia. }
    destruct (newton_loop_step _ _ _ _ _ H0 H) as (stk & stk' & Hp & _). eauto.
Qed.

(** How the loop leaves: the tested value of every pass but the last is
    not below the tolerance and its count is at most 2000; the last pass
    decides the status. *)
Lemma newton_loop_exit fuel st :
  let r := newton_loop fuel gamma st in
  (forall k lg, trace r !! k = Some lg -> (S k < length (trace r))%nat ->
     np_lt (pl_err lg) 0.001 = false /\ (pl_iter lg <= 2000)%Z) /\
  (forall c' x, out r = Returned CONVERGED c' x ->
     exists lg, last (trace r) = Some lg /\ np_lt (pl_err lg) 0.001 = true /\
                x = pl_x lg) /\
  (forall c' x, out r = Returned EXHAUSTED c' x ->
     exists lg, last (trace r) = Some lg /\ np_lt (pl_err lg) 0.001 = false /\
                (2000 < pl_iter lg)%Z /\ x = pl_x lg) /\
  (forall lg, last (trace r) = Some lg -> np_lt (pl_err lg) 0.001 = true ->
     exists c', out r = Returned CONVERGED c' (pl_x lg)).
Proof.
  revert st. induction fuel as [| fuel IH]; intros st.
  { simpl. repeat split; intros; discriminate. }
  cbv zeta. rewrite newton_loop_S.
  destruct (newton_pass gamma st) as [[st' lg0] | e] eqn:E.
  2:{ simpl. repeat split; intros; discriminate. }
  apply newton_pass_Ok in E as (_ & _ & _ & _ & Hit & Hx & _ & Hi).
  destruct (np_lt (pl_err lg0) 0.001) eqn:Elt; simpl.
  { split; [| split; [| split]].
    - intros k lg Hk Hlen. apply lookup_lt_Some in Hk. simpl in *. lia.
    - intros c' x [= <- <-]. eauto.
    - discriminate.
    - intros lg [= <-] _. rewrite Hx. eauto. }
  destruct (2000 <? ls_iter st')%Z eqn:Eit; simpl.
  { split; [| split; [| split]].
    - intros k lg Hk Hlen. apply lookup_lt_Some in Hk. simpl in *. lia.
    - discriminate.
    - intros c' x [= <- <-]. exists lg0. repeat split; auto. lia.
    - intros lg [= <-] Hlt. congruence. }
  destruct (IH (next_state st')) as (IH1 & IH2 & IH3 & IH4). cbv zeta in *.
  fold (next_state st').
  set (r := newton_loop fuel gamma (next_state st')) in *.
  assert (Hlast : forall lg, last (lg0 :: trace r) = Some lg ->
                    last (trace r) = Some lg \/ (trace r = [] /\ lg = lg0)).
  { intros lg. destruct (trace r) as [| lg1 tr]; simpl; [intros [= <-]; auto |]. auto. }
  split; [| split; [| split]].
  - intros [| k] lg Hk Hlen; simpl in *.
    + injection Hk as <-. split; [assumption | lia].
    + apply (IH1 k lg Hk). lia.
  - intros c' x Hout. destruct (IH2 c' x Hout) as (lg & Hl & Hlt & ->).
    exists lg. split; [| auto].
    destruct (trace r); [discriminate | exact Hl].
  - intros c' x Hout. destruct (IH3 c' x Hout) as (lg & Hl & Hlt & Hgt & ->).
    exists lg. split; [| auto].
    destruct (trace r); [discriminate | exact Hl].
  - intros lg Hl Hlt. apply Hlast in Hl as [Hl | [_ ->]]; [eauto | congruence].
Qed.

Lemma newton_loop_fuel fuel st :
  (ls_iter st <= 2001)%Z -> (2001 < Z.of_nat fuel + ls_iter st)%Z ->
  out (newton_loop fuel gamma st) <> OutOfFuel.
Proof.
  revert st. induction fuel as [| fuel IH]; intros st Hle Hfuel; [lia |].
  rewrite newton_loop_S.
  destruct (newton_pass gamma st) as [[st' lg0] | e] eqn:E; [| discriminate].
  apply newton_pass_Ok in E as (_ & _ & _ & _ & _ & _ & _ & Hi).
  destruct (np_lt (pl_err lg0) 0.001); [discriminate |].
  destruct (Z.ltb_spec 2000 (ls_iter st')); [discriminate |].
  simpl. apply IH; simpl; lia.
Qed.

End newton.

(** ** What [solve_circuit] computes *)

Section solve_circuit_properties.
Import analysis.
Variables (c : Circuit) (gamma : R).

Let x0 : list R := zeros (Z.to_nat (n_matrix_size c)).
Let st0 : loop_state := mk_state c x0 0 0%Z.

Lemma solve_circuit_cases :
  ((n_matrix_size c < 0)%Z /\ solve_circuit c gamma = mk_run [] (Raised ValueError)) \/
  ((0 <= n_matrix_size c)%Z /\ solve_circuit c gamma = newton_loop 2002 gamma st0).
Proof.
  unfold solve_circuit. fold (n_matrix_size c).
  destruct (Z.ltb_spec (n_matrix_size c) 0); [left | right]; auto.
Qed.

(** The loop always leaves by its own test, within 2002 passes. *)
Lemma solve_circuit_leaves_by_its_test : out (solve_circuit c gamma) <> OutOfFuel.
Proof.
  destruct solve_circuit_cases as [[_ ->] | [_ ->]]; [discriminate |].
  apply newton_loop_fuel; simpl; lia.
Qed.

Lemma solve_circuit_pass_count k lg :
  trace (solve_circuit c gamma) !! k = Some lg -> pl_iter lg = Z.of_nat k.
Proof.
  destruct solve_circuit_cases as [[_ ->] | [_ ->]]; [discriminate |].
  intros H%newton_loop_iter. simpl in H. lia.
Qed.

(** C1. The value tested after a pass is [norm(dx)] divided by the norm
    of the iterate the previous pass produced; on the first pass by
    [norm(dx)] itself, so on the second pass by the first [norm(dx)].
    The loop stops as CONVERGED exactly when that value is below 0.001
    (a non-finite value is not), and as EXHAUSTED, returning the last
    iterate, after 2002 passes none of which met the tolerance. *)
Theorem convergence_test_uses_previous_iterate :
  let r := solve_circuit c gamma in
  (forall lg, trace r !! 0%nat = Some lg ->
     pl_err lg = np_div (norm (pl_dx lg)) (norm (pl_dx lg))) /\
  (forall lg0 lg1, trace r !! 0%nat = Some lg0 -> trace r !! 1%nat = Some lg1 ->
     pl_err lg1 = np_div (norm (pl_dx lg1)) (norm (pl_dx lg0))) /\
  (forall k lg lg', trace r !! k = Some lg -> trace r !! S k = Some lg' ->
     pl_err lg' = np_div (norm (pl_dx lg')) (norm (pl_x lg))) /\
  out r <> OutOfFuel /\
  (forall k lg, trace r !! k = Some lg -> (S k < length (trace r))%nat ->
     np_lt (pl_err lg) 0.001 = false) /\
  (forall lg, last (trace r) = Some lg ->
     (np_lt (pl_err lg) 0.001 = true <->
      exists c', out r = Returned CONVERGED c' (pl_x lg))) /\
  (forall c' x, out r = Returned EXHAUSTED c' x ->
     length (trace r) = 2002%nat /\
     (exists lg, last (trace r) = Some lg /\ x = pl_x lg) /\
     (forall lg, lg ∈ trace r -> np_lt (pl_err lg) 0.001 = false)).
Proof.
  intros r.
  assert (Hhead : forall lg, trace r !! 0%nat = Some lg ->
            pl_err lg = np_div (norm (pl_dx lg)) (norm (pl_dx lg)) /\
            pl_x lg = pl_dx lg).
  { subst r. destruct solve_circuit_cases as [[_ ->] | [_ ->]]; [discriminate |].
    intros lg [st' H]%newton_loop_head.
    apply newton_pass_Ok in H as (_ & _ & Hx & He & _). simpl in Hx, He. auto. }
  assert (Hstep : forall k lg lg', trace r !! k = Some lg -> trace r !! S k = Some lg' ->
            pl_err lg' = np_div (norm (pl_dx lg')) (norm (pl_x lg))).
  { intros k lg lg' Hk HSk.
    pose proof (solve_circuit_pass_count _ _ Hk) as Hit. fold r in Hit.
    subst r. destruct solve_circuit_cases as [[_ E] | [_ E]]; rewrite E in *; [discriminate |].
    destruct (newton_loop_step _ _ _ _ _ _ Hk HSk) as (stk & stk' & Hp & _ & Hn & Hi).
    apply newton_pass_Ok in Hp as (_ & _ & _ & He & _).
    rewrite He, Hn. destruct (Z.eqb_spec (ls_iter stk) 0); [lia | reflexivity]. }
  assert (Hexit := newton_loop_exit gamma 2002 st0). cbv zeta in Hexit.
  destruct Hexit as (H1 & H2 & H3 & H4).
  split; [apply Hhead |].
  split. { intros lg0 lg1 H0 HS. rewrite (Hstep _ _ _ H0 HS).
           destruct (Hhead _ H0) as [_ ->]. reflexivity. }
  split; [exact Hstep |].
  split; [apply solve_circuit_leaves_by_its_test |].
  subst r. destruct solve_circuit_cases as [[_ E] | [_ E]]; rewrite E in *.
  { simpl. repeat split; discriminate. }
  split. { intros k lg Hk Hlen. apply (H1 k lg Hk Hlen). }
  split.
  { intros lg Hl. split; [apply H4, Hl |].
    intros [c' Hout]. destruct (H2 _ _ Hout) as (lg' & Hl' & Hlt & _). congruence. }
  intros c' x Hout. destruct (H3 _ _ Hout) as (lg & Hl & Hlt & Hgt & ->).
  assert (Hlen : length (trace (newton_loop 2002 gamma st0)) = 2002%nat).
  { pose proof Hl as Hl'. rewrite last_lookup in Hl'.
    pose proof (newton_loop_iter _ _ _ _ _ Hl') as Hit. simpl in Hit.
    destruct (length (trace (newton_loop 2002 gamma st0))) as [| [| n]] eqn:En;
      simpl in *; [lia | lia |].
    destruct (lookup_lt_is_Some_2 (trace (newton_loop 2002 gamma st0)) n) as [lg1 Hn];
      [lia |].
    destruct (H1 n lg1 Hn) as [_ Hle]; [lia |].
    pose proof (newton_loop_iter _ _ _ _ _ Hn) as Hit1. simpl in Hit1. lia. }
  split; [exact Hlen |]. split; [eauto |].
  intros lg' (k & Hk)%list_elem_of_lookup.
  destruct (decide (S k < length (trace (newton_loop 2002 gamma st0)))%nat) as [Hlt' | Hge].
  - apply (H1 k lg' Hk Hlt').
  - apply lookup_lt_Some in Hk as Hk'. rewrite last_lookup in Hl.
    replace (pred (length (trace (newton_loop 2002 gamma st0)))) with k in Hl by lia.
    congruence.
Qed.

End solve_circuit_properties.

(** ** Linear circuits *)

Section linear_circuits.
Import analysis.
Variables (c : Circuit) (gamma : R).
Hypothesis Hlin : Forall linear_elem (elems c).

(** One pass over a linear circuit: the permeabilities stay, the
    matrix is its own Jacobian. *)
Lemma newton_pass_linear x nrm iter s :
  assemble c (length x) = Ok s ->
  newton_pass gamma (mk_state c x nrm iter) =
    (dx ← linsolve (sA s) (vsub (sb s) (mat_vec (sA s) x));
     let x' := if (iter =? 0)%Z then dx else vadd x (vscale gamma dx) in
     Ok (mk_state c x' (norm x') iter,
         mk_log iter (sA s) (vsub (sb s) (mat_vec (sA s) x)) dx x'
           (np_div (norm dx) (if (iter =? 0)%Z then norm dx else nrm)))).
Proof.
  intros Hs. unfold newton_pass. simpl.
  rewrite make_system_matrix_linear by assumption. rewrite Hs. reflexivity.
Qed.

Lemma newton_pass_linear_assembled x nrm iter st' lg :
  newton_pass gamma (mk_state c x nrm iter) = Ok (st', lg) ->
  exists s, assemble c (length x) = Ok s.
Proof.
  unfold newton_pass. simpl. rewrite make_system_matrix_linear by assumption.
  destruct (assemble c (length x)) as [s | e]; [eauto | discriminate].
Qed.

(** The run over a linear circuit whose first pass succeeds with a
    nonzero increment. *)
Lemma linear_run st1 lg0 :
  (0 <= n_matrix_size c)%Z ->
  newton_pass gamma (mk_state c (zeros (Z.to_nat (n_matrix_size c))) 0 0%Z)
    = Ok (st1, lg0) ->
  norm (pl_dx lg0) <> 0 ->
  exists lg1,
    solve_circuit c gamma
      = mk_run [lg0; lg1] (Returned CONVERGED c (pl_dx lg0)) /\
    is_solution (pl_A lg0) (pl_b lg0) (pl_dx lg0) /\
    pl_b lg1 = zeros (length (pl_dx lg0)) /\
    pl_dx lg1 = zeros (length (pl_dx lg0)) /\
    pl_x lg1 = pl_dx lg0 /\
    pl_err lg1 = Some 0.
Proof.
  intros Hn Hpass He0.
  set (n := Z.to_nat (n_matrix_size c)) in *.
  destruct (newton_pass_linear_assembled _ _ _ _ _ Hpass) as [s Hs].
  pose proof Hs as Hs0. rewrite length_zeros in Hs0.
  destruct (assemble_shaped _ _ _ Hs0) as ((HAl & _) & _ & Hbl).
  rewrite (newton_pass_linear _ _ _ _ Hs) in Hpass.
  rewrite mat_vec_zeros, HAl, vsub_zeros in Hpass by assumption.
  destruct (linsolve (sA s) (sb s)) as [dx0 |] eqn:Esolve; [| discriminate].
  simpl in Hpass. injection Hpass as <- <-. simpl in He0 |- *.
  pose proof (linsolve_Ok _ _ _ Esolve) as ((Hdl & Hdx) & _).
  assert (Hs1 : assemble c (length dx0) = Ok s) by (rewrite Hdl, HAl; exact Hs0).
  pose proof (linsolve_zeros _ _ _ Esolve) as Hzero. rewrite HAl in Hzero.
  assert (Hpass1 : newton_pass gamma (mk_state c dx0 (norm dx0) 1%Z) =
            Ok (mk_state c dx0 (norm dx0) 1%Z,
                mk_log 1%Z (sA s) (zeros n) (zeros n) dx0 (Some 0))).
  { rewrite (newton_pass_linear _ _ _ _ Hs1).
    rewrite Hdx, vsub_diag, Hbl, Hzero. simpl.
    rewrite vscale_zeros.
    assert (Hv : vadd dx0 (zeros n) = dx0).
    { replace n with (length dx0) by congruence. apply vadd_zeros_r. }
    rewrite Hv, norm_zeros, np_div_nz by assumption.
    unfold Rdiv. rewrite Rmult_0_l. reflexivity. }
  eexists. split; [| split; [| split; [| split; [| split]]]].
  - unfold solve_circuit. fold (n_matrix_size c).
    destruct (Z.ltb_spec (n_matrix_size c) 0); [lia |]. fold n.
    change 2002%nat with (S (S 2000)).
    rewrite newton_loop_S, (newton_pass_linear _ _ _ _ Hs).
    rewrite mat_vec_zeros, HAl, vsub_zeros, Esolve by assumption. simpl.
    rewrite np_div_nz by assumption. unfold np_lt.
    match goal with |- context [Rlt_dec ?a ?b] => destruct (Rlt_dec a b) as [Hlt | _] end.
    { exfalso. unfold Rdiv in Hlt. rewrite Rinv_r in Hlt by assumption. lra. }
    unfold next_state. simpl.
    change (0 + 1)%Z with 1%Z.
    rewrite newton_loop_S, Hpass1. simpl. unfold np_lt.
    match goal with |- context [Rlt_dec ?a ?b] => destruct (Rlt_dec a b) as [_ | Hge] end;
      [reflexivity | lra].
  - simpl. split; assumption.
  - simpl. congruence.
  - simpl. congruence.
  - reflexivity.
  - reflexivity.
Qed.

(** C9. Over a circuit whose permeances are all linear, when the first
    pass can be solved and its increment is not the zero vector, the
    call makes two passes and returns CONVERGED: the first increment
    solves the system, the second increment is zero and the tested
    value is 0. *)
Theorem linear_circuit_converges_in_two_passes st1 lg0 :
  (0 <= n_matrix_size c)%Z ->
  newton_pass gamma (mk_state c (zeros (Z.to_nat (n_matrix_size c))) 0 0%Z)
    = Ok (st1, lg0) ->
  norm (pl_dx lg0) <> 0 ->
  exists lg1,
    solve_circuit c gamma
      = mk_run [lg0; lg1] (Returned CONVERGED c (pl_dx lg0)) /\
    is_solution (pl_A lg0) (pl_b lg0) (pl_dx lg0) /\
    pl_b lg1 = zeros (length (pl_dx lg0)) /\
    pl_dx lg1 = zeros (length (pl_dx lg0)) /\
    pl_x lg1 = pl_dx lg0 /\
    pl_err lg1 = Some 0.
Proof. apply linear_run. Qed.

End linear_circuits.

(** ** Example circuits *)

Section gap_circuit.
Import analysis.

Lemma gap_circuit_eq V :
  gap_circuit V =
    mk [EMMFSource (MMFSource.mk "MMF1" 1 0 V);
        EPermeance (Permeance.init "Rg" 1 0 1 10 10 1 None)]
       "EMC" gap_nodes ∅.
Proof.
  unfold gap_circuit.
  assert (E1 : add_mmf_source (init "EMC") "MMF1" "n1" "0" V =
               (mk [EMMFSource (MMFSource.mk "MMF1" 1 0 V)] "EMC" gap_nodes ∅, Ok tt))
    by reflexivity.
  rewrite E1. unfold add_permeance. simpl.
  assert (E2 : forall es, add_node (mk es "EMC" gap_nodes ∅) "n1"
                          = (mk es "EMC" gap_nodes ∅, Ok 1%Z)) by reflexivity.
  assert (E3 : forall es, add_node (mk es "EMC" gap_nodes ∅) "0"
                          = (mk es "EMC" gap_nodes ∅, Ok 0%Z)) by reflexivity.
  rewrite E2, E3.
  repeat match goal with
         | |- context [Req_dec_T ?a ?b] => destruct (Req_dec_T a b); [lra |]
         end.
  reflexivity.
Qed.

Lemma gap_built V : built (gap_circuit V).
Proof. unfold gap_circuit. repeat constructor. Qed.

Lemma gap_linear V : Forall linear_elem (elems (gap_circuit V)).
Proof. rewrite gap_circuit_eq. repeat constructor. Qed.

Lemma gap_nodes_number V : get_nodes_number (gap_circuit V) = 2%Z.
Proof. rewrite gap_circuit_eq. reflexivity. Qed.

Lemma gap_matrix_size V : n_matrix_size (gap_circuit V) = 2%Z.
Proof.
  unfold n_matrix_size. rewrite gap_nodes_number, gap_circuit_eq. reflexivity.
Qed.

Lemma gap_assemble V :
  assemble (gap_circuit V) 2 = Ok (mk_sys gap_A gap_A [0; 1 * V]).
Proof.
  unfold assemble. rewrite gap_nodes_number, gap_circuit_eq. simpl.
  unfold Permeance.init. rewrite P_value, dP_value by lra.
  unfold add_to, sub_from, mget, mset, vget, vset, np_index. simpl.
  reflexivity.
Qed.

Lemma gap_linsolve b1 b2 :
  linsolve gap_A [b1; b2] = Ok [b2; b1 - gap_P * b2].
Proof.
  apply linsolve_unique.
  - split; [reflexivity |]. unfold mat_vec, dot, gap_A. simpl.
    f_equal; [ring | f_equal; ring].
  - intros y [Hlen Hy]. destruct y as [| y1 [| y2 [| ? ?]]]; try discriminate.
    unfold mat_vec, dot, gap_A in Hy. simpl in Hy.
    injection Hy as H1 H2.
    assert (y1 = b2) as -> by lra.
    f_equal. f_equal. lra.
Qed.

Lemma gap_first_pass gamma V :
  newton_pass gamma (mk_state (gap_circuit V) (zeros 2) 0 0%Z) =
    Ok (mk_state (gap_circuit V) [1 * V; 0 - gap_P * (1 * V)]
          (norm [1 * V; 0 - gap_P * (1 * V)]) 0%Z,
        mk_log 0%Z gap_A [0; 1 * V] [1 * V; 0 - gap_P * (1 * V)]
          [1 * V; 0 - gap_P * (1 * V)]
          (np_div (norm [1 * V; 0 - gap_P * (1 * V)])
                  (norm [1 * V; 0 - gap_P * (1 * V)]))).
Proof.
  rewrite (newton_pass_linear (gap_circuit V) gamma (gap_linear V) (zeros 2) 0 0%Z
             _ (gap_assemble V)).
  cbn [sA sb]. rewrite mat_vec_zeros. change (length gap_A) with 2%nat.
  rewrite vsub_zeros by reflexivity. rewrite gap_linsolve. reflexivity.
Qed.

Lemma gap_first_norm V :
  V <> 0 -> norm [1 * V; 0 - gap_P * (1 * V)] <> 0.
Proof.
  intros HV. unfold norm. simpl.
  assert (H : 0 < 1 * V * (1 * V) + ((0 - gap_P * (1 * V)) * (0 - gap_P * (1 * V)) + 0)).
  { assert (0 < V * V) by nra.
    assert (0 <= (0 - gap_P * (1 * V)) * (0 - gap_P * (1 * V))) by nra.
    nra. }
  apply sqrt_lt_R0 in H. lra.
Qed.

(** The run for a source of 10000, as in main.py. *)
Lemma gap_run :
  exists lg0 lg1,
    solve_circuit (gap_circuit 10000) 1
      = mk_run [lg0; lg1] (Returned CONVERGED (gap_circuit 10000) (pl_dx lg0)) /\
    pl_dx lg0 = [1 * 10000; 0 - gap_P * (1 * 10000)] /\
    pl_x lg0 = pl_dx lg0 /\
    pl_dx lg1 = zeros 2 /\
    pl_x lg1 = pl_dx lg0.
Proof.
  assert (Hn : (0 <= n_matrix_size (gap_circuit 10000))%Z)
    by (rewrite gap_matrix_size; lia).
  assert (Hpass := gap_first_pass 1 10000).
  change 2%nat with (Z.to_nat 2) in Hpass at 1.
  rewrite <- (gap_matrix_size 10000) in Hpass.
  assert (Hnorm : norm [1 * 10000; 0 - gap_P * (1 * 10000)] <> 0)
    by (apply gap_first_norm; lra).
  destruct (linear_run (gap_circuit 10000) 1 (gap_linear _) _ _ Hn Hpass Hnorm)
    as (lg1 & Hrun & _ & _ & Hdx & Hx & _).
  eexists _, lg1. split; [exact Hrun |]. simpl in *. auto.
Qed.

End gap_circuit.

Section gap_circuit_runs.
Import analysis.

(** C9 at the gap circuit with a source of 10000 and [gamma = 1]. *)
Lemma linear_circuit_converges_in_two_passes_witness :
  exists lg0 lg1,
    solve_circuit (gap_circuit 10000) 1
      = mk_run [lg0; lg1] (Returned CONVERGED (gap_circuit 10000) (pl_dx lg0)) /\
    pl_dx lg0 = [1 * 10000; 0 - gap_P * (1 * 10000)] /\
    pl_err lg1 = Some 0.
Proof.
  assert (Hn : (0 <= n_matrix_size (gap_circuit 10000))%Z)
    by (rewrite gap_matrix_size; lia).
  assert (Hpass := gap_first_pass 1 10000).
  change 2%nat with (Z.to_nat 2) in Hpass at 1.
  rewrite <- (gap_matrix_size 10000) in Hpass.
  assert (Hnorm : norm [1 * 10000; 0 - gap_P * (1 * 10000)] <> 0)
    by (apply gap_first_norm; lra).
  destruct (linear_circuit_converges_in_two_passes
              (gap_circuit 10000) 1 (gap_linear _) _ _ Hn Hpass Hnorm)
    as (lg1 & Hrun & _ & _ & _ & _ & Herr).
  eexists _, lg1. split; [exact Hrun |]. split; [reflexivity | exact Herr].
Defined.

(** C1 at the same run. *)
Lemma convergence_test_uses_previous_iterate_witness :
  exists lg0 lg1,
    trace (solve_circuit (gap_circuit 10000) 1) = [lg0; lg1] /\
    pl_err lg0 = np_div (norm (pl_dx lg0)) (norm (pl_dx lg0)) /\
    pl_err lg1 = np_div (norm (pl_dx lg1)) (norm (pl_x lg0)) /\
    np_lt (pl_err lg1) 0.001 = true.
Proof.
  destruct gap_run as (lg0 & lg1 & Hrun & _ & _ & _ & Hx1).
  pose proof (convergence_test_uses_previous_iterate (gap_circuit 10000) 1)
    as (H0 & _ & Hstep & _ & _ & Hlast & _).
  rewrite Hrun in H0, Hstep, Hlast. simpl in H0, Hstep, Hlast.
  exists lg0, lg1. rewrite Hrun. split; [reflexivity |].
  split; [apply (H0 lg0 eq_refl) |].
  split; [apply (Hstep 0%nat lg0 lg1 eq_refl eq_refl) |].
  apply (Hlast lg1 eq_refl). rewrite Hx1. eauto.
Defined.

(** *** A source of value zero *)

Lemma gap_zero_pass gamma iter :
  newton_pass gamma (mk_state (gap_circuit 0) [0; 0] 0 iter) =
    Ok (mk_state (gap_circuit 0) [0; 0] 0 iter,
        mk_log iter gap_A [0; 0] [0; 0] [0; 0] None).
Proof.
  rewrite (newton_pass_linear (gap_circuit 0) gamma (gap_linear 0) [0; 0] 0 iter
             _ (gap_assemble 0)).
  cbn [sA sb].
  assert (Hb : vsub [0; 1 * 0] (mat_vec gap_A [0; 0]) = [0; 0]).
  { unfold vsub, mat_vec, dot, gap_A. simpl. f_equal; [lra | f_equal; lra]. }
  rewrite Hb, gap_linsolve. simpl.
  replace (0 - gap_P * 0) with 0 by lra.
  replace (0 + gamma * 0) with 0 by lra.
  change [0; 0] with (zeros 2). rewrite norm_zeros.
  destruct (iter =? 0)%Z; rewrite ?norm_zeros, np_div_zero; reflexivity.
Qed.

Lemma gap_zero_loop gamma fuel iter :
  (0 <= iter <= 2001)%Z -> (Z.of_nat fuel + iter = 2002)%Z ->
  out (newton_loop fuel gamma (mk_state (gap_circuit 0) [0; 0] 0 iter))
    = Returned EXHAUSTED (gap_circuit 0) [0; 0] /\
  length (trace (newton_loop fuel gamma (mk_state (gap_circuit 0) [0; 0] 0 iter)))
    = fuel.
Proof.
  revert iter. induction fuel as [| fuel IH]; intros iter Hi Hf; [lia |].
  rewrite newton_loop_S, gap_zero_pass. simpl.
  destruct (Z.ltb_spec 2000 iter) as [Hgt | Hle]; simpl.
  - split; [reflexivity |]. f_equal. lia.
  - unfold next_state. simpl.
    destruct (IH (iter + 1)%Z) as [Hout Hlen]; [lia | lia |].
    split; [exact Hout | f_equal; exact Hlen].
Qed.

(** The gap circuit with a source of value 0 has only a linear permeance
    and one MMF source; every pass has a zero increment, the tested
    quotient 0/0 is never below the tolerance, and the call ends
    EXHAUSTED after 2002 passes. *)
Lemma zero_source_never_converges :
  Forall linear_elem (elems (gap_circuit 0)) /\
  length (mmf_sources (elems (gap_circuit 0))) = 1%nat /\
  out (solve_circuit (gap_circuit 0) 1)
    = Returned EXHAUSTED (gap_circuit 0) [0; 0] /\
  length (trace (solve_circuit (gap_circuit 0) 1)) = 2002%nat.
Proof.
  split; [apply gap_linear |].
  split; [rewrite gap_circuit_eq; reflexivity |].
  unfold solve_circuit. fold (n_matrix_size (gap_circuit 0)).
  rewrite gap_matrix_size.
  change (2 <? 0)%Z with false. cbv iota.
  change (zeros (Z.to_nat 2)) with [0; 0].
  apply gap_zero_loop; lia.
Qed.

End gap_circuit_runs.

(** ** The refresh of the operating point *)

Section operating_point.
Import analysis non_linear_bh.

Lemma vget_potential (x : list R) n a :
  (0 <= n - 1)%Z -> vget x (n - 1) = Ok a -> a = potential x n.
Proof.
  intros Hn. unfold vget, np_index, potential.
  destruct (Z.leb_spec 0 (n - 1)); [| lia].
  destruct (Z.ltb_spec (n - 1) (Z.of_nat (length x))); simpl; [| discriminate].
  destruct (Z.leb_spec n 0); [lia |].
  destruct (x !! Z.to_nat (n - 1)); [| discriminate]. intros [= <-]. reflexivity.
Qed.

Lemma terminal_potential (x : list R) n u :
  (if (0 <=? n - 1)%Z then vget x (n - 1) else Ok 0) = Ok u -> u = potential x n.
Proof.
  destruct (Z.leb_spec 0 (n - 1)) as [Hn | Hn].
  - apply vget_potential, Hn.
  - intros [= <-]. unfold potential. destruct (Z.leb_spec n 0); [reflexivity | lia].
Qed.

Lemma MMF_potential p x m :
  Permeance.MMF p x = Ok m ->
  m = potential x (Permeance.n1 p) - potential x (Permeance.n2 p).
Proof.
  unfold Permeance.MMF. intros H. cbv zeta in H.
  bind_inv H. bind_inv H. injection H as <-.
  apply terminal_potential in E, E0. congruence.
Qed.

Lemma H_field_strength p x h :
  Permeance.H p x = Ok h -> Rabs h = field_strength p x.
Proof.
  unfold Permeance.H. intros H. bind_inv H. bind_inv H. injection H as <-.
  apply MMF_potential in E. subst a.
  unfold safe_div in E0. destruct (Req_dec_T (Permeance.l p) 0); [discriminate |].
  injection E0 as <-. reflexivity.
Qed.

Lemma field_strength_positive_length p x :
  0 < Permeance.l p ->
  field_strength p x =
    Rabs (potential x (Permeance.n1 p) - potential x (Permeance.n2 p))
    / Permeance.l p * 1000.
Proof.
  intros Hl. unfold field_strength, Rdiv.
  rewrite !Rabs_mult, Rabs_inv.
  rewrite (Rabs_pos_eq (Permeance.l p)) by lra.
  rewrite (Rabs_pos_eq 1000) by lra. reflexivity.
Qed.

Lemma update_elem_refreshed c x e e' :
  update_elem c x e = Ok e' -> e' = refreshed c x e.
Proof.
  unfold update_elem, refreshed.
  destruct e as [p | | |]; try (intros [= <-]; reflexivity).
  destruct (Permeance.model_label p) as [label |]; [| intros [= <-]; reflexivity].
  destruct (models c !! label) as [model |]; [| discriminate].
  intros H. bind_inv H. cbv zeta in H.
  rewrite mur_value_eq, mur_d_value_eq in H. simpl in H. injection H as <-.
  rewrite (H_field_strength _ _ _ E). reflexivity.
Qed.

Lemma update_elem_operable c x e :
  operable c x e -> exists e', update_elem c x e = Ok e'.
Proof.
  unfold update_elem, operable.
  destruct e as [p | | |]; eauto.
  destruct (Permeance.model_label p) as [label |]; [| eauto].
  intros Hop. destruct (Hop label eq_refl) as ([model ->] & Hl & H1 & H2).
  assert (Hterm : forall n, (n <= Z.of_nat (length x))%Z ->
            exists u, (if (0 <=? n - 1)%Z then vget x (n - 1) else Ok 0) = Ok u).
  { intros n Hn. destruct (Z.leb_spec 0 (n - 1)); [| eauto].
    destruct (vget_in_range x (n - 1)) as (u & -> & _); [lia | eauto]. }
  destruct (Hterm _ H1) as [u1 Hu1]. destruct (Hterm _ H2) as [u2 Hu2].
  unfold Permeance.H, Permeance.MMF. cbv zeta. rewrite Hu1, Hu2. simpl.
  rewrite safe_div_nz by assumption. simpl.
  rewrite mur_value_eq, mur_d_value_eq. simpl. eauto.
Qed.

Lemma mapM_Ok_map {A B} (f : A -> result B) (g : A -> B) xs ys :
  (forall a b, f a = Ok b -> b = g a) -> mapM f xs = Ok ys -> ys = map g xs.
Proof.
  intros Hfg. revert ys. induction xs as [| a xs IH]; simpl; intros ys H.
  - injection H as <-. reflexivity.
  - bind_inv H. bind_inv H. injection H as <-.
    rewrite (Hfg _ _ E), (IH _ E0). reflexivity.
Qed.

Lemma mapM_total {A B} (f : A -> result B) (P : A -> Prop) xs :
  (forall a, P a -> exists b, f a = Ok b) -> Forall P xs ->
  exists ys, mapM f xs = Ok ys.
Proof.
  intros Hf. induction 1 as [| a xs Ha Hxs [ys IH]]; simpl; [eauto |].
  destruct (Hf a Ha) as [b ->]. rewrite IH. simpl. eauto.
Qed.

Lemma update_mur_refreshed c x c' :
  update_mur c x = Ok c' -> c' = set_elems c (map (refreshed c x) (elems c)).
Proof.
  unfold update_mur. intros H. bind_inv H. injection H as <-.
  f_equal. eapply mapM_Ok_map; [| eassumption].
  intros e e'. apply update_elem_refreshed.
Qed.

Lemma update_mur_operable c x :
  Forall (operable c x) (elems c) ->
  update_mur c x = Ok (set_elems c (map (refreshed c x) (elems c))).
Proof.
  intros Hop.
  destruct (mapM_total (update_elem c x) (operable c x) (elems c)) as [es Hes];
    [apply update_elem_operable | assumption |].
  assert (H : update_mur c x = Ok (set_elems c es))
    by (unfold update_mur; rewrite Hes; reflexivity).
  rewrite H. f_equal. apply (update_mur_refreshed _ _ _ H).
Qed.

(** C3. Every assembly pass starts by refreshing the circuit.  A
    permeance bound to a model gets [mur = model.mur(H)] and
    [mur_d = model.mur_d(H)] at the field strength
    [H = |MMF(x) / l * 1000|], where [MMF(x)] is the potential difference
    of its terminals and ground counts 0; for a positive length that is
    [|MMF(x)| / l * 1000].  Every other element is left as it is. *)
Theorem update_mur_refreshes_operating_point c x :
  (forall c', update_mur c x = Ok c' ->
     c' = set_elems c (map (refreshed c x) (elems c))) /\
  (Forall (operable c x) (elems c) ->
     update_mur c x = Ok (set_elems c (map (refreshed c x) (elems c)))) /\
  (forall c' J b, make_system_matrix c x = Ok (c', (J, b)) ->
     update_mur c x = Ok c' /\
     exists s, assemble c' (length x) = Ok s /\ J = sdA s /\
               b = vsub (sb s) (mat_vec (sA s) x)) /\
  (forall p, 0 < Permeance.l p ->
     field_strength p x =
       Rabs (potential x (Permeance.n1 p) - potential x (Permeance.n2 p))
       / Permeance.l p * 1000).
Proof.
  split; [apply update_mur_refreshed |].
  split; [apply update_mur_operable |].
  split; [| intros p; apply field_strength_positive_length].
  intros c' J b H. unfold make_system_matrix in H.
  bind_inv H. bind_inv H. injection H as <- <- <-. eauto.
Qed.

End operating_point.

(** ** The core circuit *)

Section core_circuit_runs.
Import analysis non_linear_bh.

Lemma core_circuit_eq : core_circuit = core 1 1.
Proof.
  unfold core_circuit, core.
  assert (E1 : add_phi_source
                 (add_model (init "EMC") "BH" "M" (hb line_model) (hu line_model)).1
                 "I1" "a" "0" (4 * const.mu0)
               = (mk [EPHISource (PHISource.mk "I1" 1 0 (4 * const.mu0))]
                     "EMC" core_nodes (<["M"%string := line_model]> ∅), Ok tt))
    by reflexivity.
  rewrite E1. unfold add_permeance. simpl.
  assert (E2 : forall es ms, add_node (mk es "EMC" core_nodes ms) "a"
                             = (mk es "EMC" core_nodes ms, Ok 1%Z)) by reflexivity.
  assert (E3 : forall es ms, add_node (mk es "EMC" core_nodes ms) "0"
                             = (mk es "EMC" core_nodes ms, Ok 0%Z)) by reflexivity.
  rewrite E2, E3.
  repeat match goal with
         | |- context [Req_dec_T ?a ?b] => destruct (Req_dec_T a b); [lra |]
         end.
  simpl. rewrite lookup_insert_eq. reflexivity.
Qed.

Lemma core_matrix_size m md : n_matrix_size (core m md) = 1%Z.
Proof. reflexivity. Qed.

Lemma core_operable m md v : Forall (operable (core m md) [v]) (elems (core m md)).
Proof.
  unfold core. simpl. constructor; [exact I |]. constructor; [| constructor].
  simpl. intros lbl [= <-]. rewrite lookup_insert_eq.
  repeat split; eauto; try lia; lra.
Qed.

Lemma core_update m md v :
  update_mur (core m md) [v] = Ok (core (core_mur v) (core_mur_d v)).
Proof.
  rewrite (update_mur_operable _ _ (core_operable m md v)).
  unfold core, set_elems. simpl. rewrite lookup_insert_eq. reflexivity.
Qed.

Lemma core_assemble m md :
  assemble (core m md) 1 =
    Ok (mk_sys [[0 + 1 * permeance_formula m 1000 1000 1000]]
               [[0 + 1 * permeance_formula md 1000 1000 1000]]
               [0 + 4 * const.mu0]).
Proof.
  unfold assemble, core. simpl.
  rewrite P_value, dP_value by lra.
  unfold add_to, sub_from, mget, mset, vget, vset, np_index. simpl.
  reflexivity.
Qed.

Lemma core_system m md v :
  make_system_matrix (core m md) [v] =
    Ok (core (core_mur v) (core_mur_d v), ([[core_dA v]], [core_b v])).
Proof.
  unfold make_system_matrix. rewrite core_update. simpl.
  rewrite core_assemble. reflexivity.
Qed.

Lemma linsolve_1x1 a b : a <> 0 -> linsolve [[a]] [b] = Ok [b / a].
Proof.
  intros Ha. apply linsolve_unique.
  - split; [reflexivity |]. unfold mat_vec, dot. simpl. f_equal. field. assumption.
  - intros y [Hlen Hy]. destruct y as [| y1 [| ? ?]]; try discriminate.
    unfold mat_vec, dot in Hy. simpl in Hy. injection Hy as Hy.
    f_equal. subst b. field. assumption.
Qed.

Lemma core_pass gamma m md v nrm iter :
  core_dA v <> 0 ->
  let x' := if (iter =? 0)%Z then [core_dx v] else [v + gamma * core_dx v] in
  newton_pass gamma (mk_state (core m md) [v] nrm iter) =
    Ok (mk_state (core (core_mur v) (core_mur_d v)) x' (norm x') iter,
        mk_log iter [[core_dA v]] [core_b v] [core_dx v] x'
          (np_div (norm [core_dx v])
                  (if (iter =? 0)%Z then norm [core_dx v] else nrm))).
Proof.
  intros HdA x'. unfold newton_pass. simpl. rewrite core_system. simpl.
  rewrite linsolve_1x1 by assumption. simpl. subst x'.
  destruct (iter =? 0)%Z; reflexivity.
Qed.

(** *** The numbers of the first three passes *)

Ltac by_field :=
  field; repeat split; first [apply mu0_neq_0 | assumption | lra].

Lemma core_field v : 0 <= v -> Rabs ((v - 0) / 1000 * 1000) = v.
Proof. intros Hv. rewrite Rabs_pos_eq by lra. field. Qed.

Lemma core_mur_0 : core_mur 0 = 2.
Proof.
  unfold core_mur. rewrite core_field by lra. unfold mur_value.
  destruct (Rlt_dec 0 0); [lra |]. simpl. by_field.
Qed.

Lemma core_mur_pos v : 0 < v -> core_mur v = (v + 1) / v.
Proof.
  intros Hv. unfold core_mur. rewrite core_field by lra. unfold mur_value.
  destruct (Rlt_dec 0 v); [| lra]. simpl. by_field.
Qed.

Lemma core_mur_d_eq v : core_mur_d v = core_mur v.
Proof.
  unfold core_mur_d, core_mur, mur_d_value. simpl.
  unfold Rdiv. rewrite Rminus_diag. ring.
Qed.

Lemma core_dA_value v : core_dA v = const.mu0 * core_mur v.
Proof. unfold core_dA, permeance_formula. rewrite core_mur_d_eq. field. Qed.

Lemma core_dx_value v :
  core_mur v <> 0 -> core_dx v = (4 - core_mur v * v) / core_mur v.
Proof.
  intros Hm. unfold core_dx. rewrite core_dA_value.
  unfold core_b, core_A, permeance_formula. by_field.
Qed.

Lemma core_dA_nz v : core_mur v <> 0 -> core_dA v <> 0.
Proof.
  intros Hm. rewrite core_dA_value.
  apply Rmult_integral_contrapositive. split; [apply mu0_neq_0 | assumption].
Qed.

Lemma core_numbers :
  core_mur 0 = 2 /\ core_dx 0 = 2 /\
  core_mur 2 = 3 / 2 /\ core_dx 2 = 2 / 3 /\
  core_mur (8 / 3) = 11 / 8 /\ core_dx (8 / 3) = 8 / 33.
Proof.
  assert (H0 : core_mur 0 = 2) by apply core_mur_0.
  assert (H1 : core_mur 2 = 3 / 2) by (rewrite core_mur_pos by lra; field).
  assert (H2 : core_mur (8 / 3) = 11 / 8) by (rewrite core_mur_pos by lra; field).
  repeat split; try assumption.
  - rewrite core_dx_value by (rewrite H0; lra). rewrite H0. field.
  - rewrite core_dx_value by (rewrite H1; lra). rewrite H1. field.
  - rewrite core_dx_value by (rewrite H2; lra). rewrite H2. field.
Qed.

(** C3 at the core circuit under the estimate [[2]]. *)
Lemma update_mur_refreshes_operating_point_witness :
  update_mur (core 1 1) [2]
  = Ok (set_elems (core 1 1) (map (refreshed (core 1 1) [2]) (elems (core 1 1)))).
Proof.
  apply (proj1 (proj2 (update_mur_refreshes_operating_point (core 1 1) [2]))).
  apply core_operable.
Defined.

(** Under the estimate [[2]] the core, of length 1000, is refreshed at
    the field 2, where the model has permeability 3/2; the quotient
    of the potential difference by the length is 2/1000, where it has
    permeability 501. *)
Lemma operating_point_has_factor_1000 :
  let p := Permeance.mk "Rc" 1 0 1 1 1000 1000 1000 (Some "M"%string) in
  core_circuit = core 1 1 /\
  update_mur (core 1 1) [2] = Ok (core (3 / 2) (3 / 2)) /\
  Rabs (potential [2] (Permeance.n1 p) - potential [2] (Permeance.n2 p))
    / Permeance.l p = 2 / 1000 /\
  mur line_model (2 / 1000) = Ok 501 /\
  mur line_model 2 = Ok (3 / 2).
Proof.
  intros p. destruct core_numbers as (_ & _ & Hm & _).
  split; [apply core_circuit_eq |].
  split; [rewrite core_update, core_mur_d_eq, Hm; reflexivity |].
  split.
  { unfold potential. simpl. rewrite Rabs_pos_eq by lra. lra. }
  split.
  - rewrite mur_value_eq. f_equal. unfold mur_value.
    destruct (Rlt_dec 0 (2 / 1000)); [| lra]. simpl. by_field.
  - rewrite mur_value_eq. f_equal. unfold mur_value.
    destruct (Rlt_dec 0 2); [| lra]. simpl. by_field.
Qed.


Lemma newton_loop_continue gamma fuel st st' lg :
  newton_pass gamma st = Ok (st', lg) ->
  np_lt (pl_err lg) 0.001 = false -> (ls_iter st' <= 2000)%Z ->
  trace (newton_loop (S fuel) gamma st)
  = lg :: trace (newton_loop fuel gamma (next_state st')).
Proof.
  intros Hp Hlt Hit. rewrite newton_loop_S, Hp, Hlt.
  destruct (Z.ltb_spec 2000 (ls_iter st')); [lia | reflexivity].
Qed.

Lemma np_lt_not_below r : 0.001 <= r -> np_lt (Some r) 0.001 = false.
Proof. intros Hr. unfold np_lt. destruct (Rlt_dec r 0.001); [lra | reflexivity]. Qed.

Lemma norm_singleton_pos a : 0 <= a -> norm [a] = a.
Proof. intros Ha. rewrite norm_singleton. apply Rabs_pos_eq, Ha. Qed.

(** The first three passes over the core circuit with [gamma = 1]:
    increments 2, 2/3 and 8/33, iterates 2, 8/3 and 32/11. *)
Lemma core_trace :
  exists c0 c1 c2 J0 J1 J2 b0 b1 b2 rest,
    trace (solve_circuit core_circuit 1) =
      mk_log 0%Z J0 b0 [2] [2] (Some (2 / 2))
      :: mk_log 1%Z J1 b1 [2 / 3] [8 / 3] (Some (2 / 3 / 2))
      :: mk_log 2%Z J2 b2 [8 / 33] [32 / 11] (Some (8 / 33 / (8 / 3)))
      :: rest /\
    c0 = core (core_mur 0) (core_mur_d 0) /\
    c1 = core (core_mur 2) (core_mur_d 2) /\
    c2 = core (core_mur (8 / 3)) (core_mur_d (8 / 3)).
Proof.
  destruct core_numbers as (Hm0 & Hd0 & Hm1 & Hd1 & Hm2 & Hd2).
  assert (HA0 : core_dA 0 <> 0) by (apply core_dA_nz; rewrite Hm0; lra).
  assert (HA1 : core_dA 2 <> 0) by (apply core_dA_nz; rewrite Hm1; lra).
  assert (HA2 : core_dA (8 / 3) <> 0) by (apply core_dA_nz; rewrite Hm2; lra).
  pose proof (core_pass 1 1 1 0 0 0%Z HA0) as P0.
  pose proof (core_pass 1 (core_mur 0) (core_mur_d 0) 2 2 1%Z HA1) as P1.
  pose proof (core_pass 1 (core_mur 2) (core_mur_d 2) (8 / 3) (8 / 3) 2%Z HA2) as P2.
  cbv zeta in P0, P1, P2.
  change (0 =? 0)%Z with true in P0. change (1 =? 0)%Z with false in P1.
  change (2 =? 0)%Z with false in P2. cbv iota in P0, P1, P2.
  rewrite Hd0 in P0. rewrite Hd1 in P1. rewrite Hd2 in P2.
  replace (2 + 1 * (2 / 3)) with (8 / 3) in P1 by field.
  replace (8 / 3 + 1 * (8 / 33)) with (32 / 11) in P2 by field.
  rewrite (norm_singleton_pos 2) in P0 by lra.
  rewrite (norm_singleton_pos (2 / 3)), (norm_singleton_pos (8 / 3)) in P1 by lra.
  rewrite (norm_singleton_pos (8 / 33)), (norm_singleton_pos (32 / 11)) in P2 by lra.
  rewrite np_div_nz in P0 by lra.
  rewrite np_div_nz in P1 by lra.
  rewrite np_div_nz in P2 by lra.
  do 10 eexists. split; [| split; [| split]]; [| reflexivity ..].
  unfold solve_circuit. rewrite core_circuit_eq.
  fold (n_matrix_size (core 1 1)). rewrite core_matrix_size.
  change (1 <? 0)%Z with false. cbv iota.
  change (zeros (Z.to_nat 1)) with [0].
  change 2002%nat with (S (S (S 1999))).
  rewrite (newton_loop_continue _ _ _ _ _ P0) by (cbn [pl_err ls_iter]; first [apply np_lt_not_below; lra | lia]).
  unfold next_state at 1. cbn [ls_circ ls_x ls_norm ls_iter]. change (0 + 1)%Z with 1%Z.
  rewrite (newton_loop_continue _ _ _ _ _ P1) by (cbn [pl_err ls_iter]; first [apply np_lt_not_below; lra | lia]).
  unfold next_state at 1. cbn [ls_circ ls_x ls_norm ls_iter]. change (1 + 1)%Z with 2%Z.
  rewrite (newton_loop_continue _ _ _ _ _ P2) by (cbn [pl_err ls_iter]; first [apply np_lt_not_below; lra | lia]).
  reflexivity.
Qed.

(** With [gamma = 1] the third pass over the core circuit has
    [norm(dx) = 8/33]; it tests 8/33 divided by 8/3, the norm of the
    second iterate, which is 1/11, and not 8/33 divided by the first
    [norm(dx) = 2], which is 4/33. *)
Lemma third_pass_divides_by_previous_iterate :
  exists lg0 lg1 lg2,
    trace (solve_circuit core_circuit 1) !! 0%nat = Some lg0 /\
    trace (solve_circuit core_circuit 1) !! 1%nat = Some lg1 /\
    trace (solve_circuit core_circuit 1) !! 2%nat = Some lg2 /\
    norm (pl_dx lg0) = 2 /\
    norm (pl_x lg1) = 8 / 3 /\
    norm (pl_dx lg2) = 8 / 33 /\
    pl_err lg2 = Some (1 / 11) /\
    np_div (norm (pl_dx lg2)) (norm (pl_dx lg0)) = Some (4 / 33) /\
    pl_err lg2 <> np_div (norm (pl_dx lg2)) (norm (pl_dx lg0)).
Proof.
  destruct core_trace as (c0 & c1 & c2 & J0 & J1 & J2 & b0 & b1 & b2 & rest & Ht & _).
  rewrite Ht. do 3 eexists.
  split; [reflexivity |]. split; [reflexivity |]. split; [reflexivity |].
  cbn [pl_dx pl_x pl_err].
  rewrite (norm_singleton_pos 2), (norm_singleton_pos (8 / 3)),
    (norm_singleton_pos (8 / 33)) by lra.
  rewrite np_div_nz by lra.
  split; [reflexivity |]. split; [reflexivity |]. split; [reflexivity |].
  split; [f_equal; field |]. split; [f_equal; field |].
  intros [= H]. lra.
Qed.

End core_circuit_runs.

(** ** Unknowns: node potentials first, then one per MMF source *)

Section unknown_layout.
Import analysis.

Lemma get_MMFs_number_count c :
  get_MMFs_number c = Z.of_nat (length (mmf_sources (elems c))).
Proof.
  unfold get_MMFs_number.
  assert (H : forall es z,
            fold_left (fun count elem =>
                         match elem with
                         | EMMFSource _ => (count + 1)%Z
                         | _ => count
                         end) es z
            = (z + Z.of_nat (length (mmf_sources es)))%Z).
  { induction es as [| e es IH]; intros z; simpl; [lia |].
    destruct e; rewrite IH; simpl; lia. }
  rewrite H. lia.
Qed.

(** Every pass of a run works on arrays of size [n_matrix_size]. *)
Lemma solve_circuit_dimension c gamma k lg :
  trace (solve_circuit c gamma) !! k = Some lg ->
  let n := Z.to_nat (n_matrix_size c) in
  square n (pl_A lg) /\ length (pl_b lg) = n /\
  length (pl_dx lg) = n /\ length (pl_x lg) = n.
Proof.
  intros Hk n. revert lg Hk. induction k as [| k IH]; intros lg Hk.
  - destruct (solve_circuit_cases c gamma) as [[_ E] | [_ E]]; rewrite E in Hk;
      [discriminate |].
    apply newton_loop_head in Hk as [st' Hp].
    apply newton_pass_Ok in Hp as (Hm & Hs & Hx & _). simpl in Hm, Hx.
    apply make_system_matrix_shape in Hm as [HJ Hb]. rewrite length_zeros in HJ, Hb.
    apply linsolve_Ok in Hs as [[Hl _] _]. destruct HJ as [HJl HJr].
    fold n in HJl, HJr, Hb. rewrite Hx.
    repeat split; try assumption; congruence.
  - destruct (lookup_lt_is_Some_2 (trace (solve_circuit c gamma)) k) as [lg0 Hk0].
    { apply lookup_lt_Some in Hk. lia. }
    destruct (IH lg0 Hk0) as (_ & _ & _ & Hx0).
    pose proof (solve_circuit_pass_count _ _ _ _ Hk0) as Hit.
    destruct (solve_circuit_cases c gamma) as [[_ E] | [_ E]]; rewrite E in Hk, Hk0;
      [discriminate |].
    destruct (newton_loop_step _ _ _ _ _ _ Hk0 Hk) as (stk & stk' & Hp & Hxk & _ & Hi).
    apply newton_pass_Ok in Hp as (Hm & Hs & Hx & _).
    apply make_system_matrix_shape in Hm as [HJ Hb]. rewrite Hxk, Hx0 in HJ, Hb.
    apply linsolve_Ok in Hs as [[Hl _] _]. destruct HJ as [HJl HJr].
    assert (Hdx : length (pl_dx lg) = n) by congruence.
    repeat split; try assumption.
    rewrite Hx. destruct (Z.eqb_spec (ls_iter stk) 0); [lia |].
    rewrite Hxk. unfold vadd, vscale. rewrite length_zip_with, length_map. lia.
Qed.

(** *** Stamping succeeds when every index is in range *)

Lemma add_to_total n M i j p :
  square n M -> (0 <= i < Z.of_nat n)%Z -> (0 <= j < Z.of_nat n)%Z ->
  exists M', add_to M i j (Ok p) = Ok M' /\ square n M'.
Proof.
  intros HM Hi Hj. unfold add_to.
  destruct (mget_in_range n M i j HM Hi Hj) as [a ->]. simpl.
  destruct (mset_in_range n M i j (a + 1 * p) HM Hi Hj) as [M' HM'].
  exists M'. split; [assumption | eapply mset_square; eauto].
Qed.

Lemma sub_from_total n M i j p :
  square n M -> (0 <= i < Z.of_nat n)%Z -> (0 <= j < Z.of_nat n)%Z ->
  exists M', sub_from M i j (Ok p) = Ok M' /\ square n M'.
Proof.
  intros HM Hi Hj. unfold sub_from.
  destruct (mget_in_range n M i j HM Hi Hj) as [a ->]. simpl.
  destruct (mset_in_range n M i j (a - 1 * p) HM Hi Hj) as [M' HM'].
  exists M'. split; [assumption | eapply mset_square; eauto].
Qed.

Lemma mset_total n M i j a :
  square n M -> (0 <= i < Z.of_nat n)%Z -> (0 <= j < Z.of_nat n)%Z ->
  exists M', mset M i j a = Ok M' /\ square n M'.
Proof.
  intros HM Hi Hj.
  destruct (mset_in_range n M i j a HM Hi Hj) as [M' HM'].
  exists M'. split; [assumption | eapply mset_square; eauto].
Qed.

Ltac by_shape := (split; [| split]); simpl; assumption.

Lemma stamp_elem_total n k e s :
  shaped n s -> (k <= Z.of_nat n)%Z -> terminals_within k e -> nonzero_length e ->
  exists s', stamp_elem e s = Ok s'.
Proof.
  intros (HA & HdA & Hb) Hk [H1 H2] Hl. unfold stamp_elem.
  destruct e as [p | src | src | cmp]; simpl in *; eauto.
  - unfold Permeance.P, Permeance.dP.
    rewrite !safe_div_nz by assumption. simpl.
    set (pv := const.mu0 * Permeance.mur p * Permeance.w p * Permeance.d p
               / Permeance.l p * 1e-3).
    set (dpv := const.mu0 * Permeance.mur_d p * Permeance.w p * Permeance.d p
                / Permeance.l p * 1e-3).
    assert (Hstep : forall (i j : Z) s0, shaped n s0 ->
              (i <= k)%Z -> (j <= k)%Z ->
              exists s1, shaped n s1 /\
                (if (0 <=? i - 1)%Z && (0 <=? j - 1)%Z then
                   A ← add_to (sA s0) (i - 1) (j - 1) (Ok pv);
                   dA ← add_to (sdA s0) (i - 1) (j - 1) (Ok dpv);
                   Ok (mk_sys A dA (sb s0))
                 else Ok s0) = Ok s1).
    { intros i j s0 (HA0 & HdA0 & Hb0) Hi Hj.
      destruct (Z.leb_spec 0 (i - 1)); simpl; [| exists s0; split; [by_shape | reflexivity]].
      destruct (Z.leb_spec 0 (j - 1)); simpl; [| exists s0; split; [by_shape | reflexivity]].
      destruct (add_to_total n (sA s0) (i - 1) (j - 1) pv HA0) as (A' & -> & HA'); [lia .. |].
      destruct (add_to_total n (sdA s0) (i - 1) (j - 1) dpv HdA0) as (dA' & -> & HdA'); [lia .. |].
      simpl. eexists. split; [| reflexivity]. by_shape. }
    assert (Hsub : forall (i j : Z) A0 dA0, square n A0 -> square n dA0 ->
              (1 <= i <= k)%Z -> (1 <= j <= k)%Z ->
              exists A1 dA1, square n A1 /\ square n dA1 /\
                sub_from A0 (i - 1) (j - 1) (Ok pv) = Ok A1 /\
                sub_from dA0 (i - 1) (j - 1) (Ok dpv) = Ok dA1).
    { intros i j A0 dA0 HA0 HdA0 Hi Hj.
      destruct (sub_from_total n A0 (i - 1) (j - 1) pv HA0) as (A' & E1 & HA'); [lia .. |].
      destruct (sub_from_total n dA0 (i - 1) (j - 1) dpv HdA0) as (dA' & E2 & HdA'); [lia .. |].
      eauto 10. }
    destruct (Hstep (Permeance.n1 p) (Permeance.n1 p) s) as (s1 & Hs1 & E1);
      [by_shape | lia | lia |].
    rewrite andb_diag in E1. rewrite E1. simpl.
    destruct (Hstep (Permeance.n2 p) (Permeance.n2 p) s1) as (s2 & Hs2 & E2);
      [assumption | lia | lia |].
    rewrite andb_diag in E2. rewrite E2. simpl.
    destruct Hs2 as (HA2 & HdA2 & Hb2).
    destruct (Z.leb_spec 0 (Permeance.n1 p - 1)); simpl; [| eauto].
    destruct (Z.leb_spec 0 (Permeance.n2 p - 1)); simpl; [| eauto].
    destruct (Hsub (Permeance.n1 p) (Permeance.n2 p) _ _ HA2 HdA2)
      as (A3 & dA3 & HA3 & HdA3 & -> & E3); [lia | lia |].
    simpl. rewrite E3. simpl.
    destruct (Hsub (Permeance.n2 p) (Permeance.n1 p) _ _ HA3 HdA3)
      as (A4 & dA4 & HA4 & HdA4 & -> & ->); [lia | lia |].
    simpl. eauto.
  - assert (Hstep : forall (i : Z) (b0 : list R) (f : R -> R), length b0 = n ->
              (i <= k)%Z ->
              exists b1, length b1 = n /\
                (if (0 <=? i - 1)%Z then
                   a ← vget b0 (i - 1); vset b0 (i - 1) (f a)
                 else Ok b0) = Ok b1).
    { intros i b0 f Hb0 Hi.
      destruct (Z.leb_spec 0 (i - 1)); [| eauto].
      destruct (vget_in_range b0 (i - 1)) as (a & -> & _); [lia |]. simpl.
      rewrite vset_in_range by lia. eexists. split; [| reflexivity].
      rewrite length_insert. assumption. }
    destruct (Hstep (PHISource.n1 src) (sb s) (fun a => a + PHISource.PHI src) Hb)
      as (b1 & Hb1 & E1); [lia |].
    destruct (Z.leb_spec 0 (PHISource.n1 src - 1)); simpl.
    + bind_inv E1. rewrite E. simpl. rewrite E1. simpl.
      destruct (Hstep (PHISource.n2 src) b1 (fun a => a - PHISource.PHI src) Hb1)
        as (b2 & Hb2 & E2); [lia |].
      destruct (Z.leb_spec 0 (PHISource.n2 src - 1)); simpl; [| eauto].
      bind_inv E2. rewrite E0. simpl. rewrite E2. simpl. eauto.
    + destruct (Hstep (PHISource.n2 src) (sb s) (fun a => a - PHISource.PHI src) Hb)
        as (b2 & Hb2 & E2); [lia |].
      destruct (Z.leb_spec 0 (PHISource.n2 src - 1)); simpl; [| eauto].
      bind_inv E2. rewrite E. simpl. rewrite E2. simpl. eauto.
Qed.

Lemma foldM_stamp_elem_total n k es s :
  shaped n s -> (k <= Z.of_nat n)%Z ->
  Forall (terminals_within k) es -> Forall nonzero_length es ->
  exists s', foldM stamp_elem es s = Ok s' /\ shaped n s'.
Proof.
  intros Hs Hk Ht. revert s Hs. induction Ht as [| e es He Hes IH]; intros s Hs Hl; simpl.
  - eauto.
  - inversion Hl; subst.
    destruct (stamp_elem_total n k e s Hs Hk He) as [s1 E1]; [assumption |].
    rewrite E1. simpl. apply IH; [| assumption].
    eapply stamp_elem_shaped; eauto.
Qed.


Lemma stamp_mmf_source n k src idx s :
  shaped n s -> (0 <= k <= idx)%Z -> (idx < Z.of_nat n)%Z ->
  terminals_within k (EMMFSource src) ->
  exists s',
    stamp_mmf (EMMFSource src) (idx, s) = Ok ((idx + 1)%Z, s') /\
    shaped n s' /\
    sb s' = <[Z.to_nat idx := 1 * MMFSource.MMF src]> (sb s).
Proof.
  intros Hs Hk Hidx [H1 H2]. simpl in H1, H2. unfold stamp_mmf. simpl.
  assert (Hstep : forall (t i j : Z) v s0, shaped n s0 ->
            ((0 <= t)%Z -> (0 <= i < Z.of_nat n)%Z /\ (0 <= j < Z.of_nat n)%Z) ->
            exists s1, shaped n s1 /\ sb s1 = sb s0 /\
              (if (0 <=? t)%Z then
                 A ← mset (sA s0) i j v;
                 dA ← mset (sdA s0) i j v;
                 Ok (mk_sys A dA (sb s0))
               else Ok s0) = Ok s1).
  { intros t i j v s0 (HA0 & HdA0 & Hb0) Hr.
    destruct (Z.leb_spec 0 t) as [Ht | Ht]; [| exists s0; split; [by_shape | auto]].
    destruct (Hr Ht) as [Hi Hj].
    destruct (mset_total n (sA s0) i j v HA0 Hi Hj) as (A' & -> & HA').
    destruct (mset_total n (sdA s0) i j v HdA0 Hi Hj) as (dA' & -> & HdA').
    simpl. exists (mk_sys A' dA' (sb s0)). split; [by_shape | split; reflexivity]. }
  destruct (Hstep (MMFSource.n1 src - 1)%Z (MMFSource.n1 src - 1)%Z idx 1 s Hs)
    as (s1 & Hs1 & Hb1 & ->); [lia |]. simpl.
  destruct (Hstep (MMFSource.n2 src - 1)%Z (MMFSource.n2 src - 1)%Z idx (-1) s1 Hs1)
    as (s2 & Hs2 & Hb2 & ->); [lia |]. simpl.
  destruct (Hstep (MMFSource.n1 src - 1)%Z idx (MMFSource.n1 src - 1)%Z 1 s2 Hs2)
    as (s3 & Hs3 & Hb3 & ->); [lia |]. simpl.
  destruct (Hstep (MMFSource.n2 src - 1)%Z idx (MMFSource.n2 src - 1)%Z (-1) s3 Hs3)
    as (s4 & Hs4 & Hb4 & ->); [lia |]. simpl.
  destruct Hs4 as (HA4 & HdA4 & Hbl4).
  rewrite vset_in_range by lia. simpl.
  eexists. split; [reflexivity |]. split.
  - split; [| split]; simpl; try assumption. rewrite length_insert. assumption.
  - simpl. congruence.
Qed.

(** The second loop gives the [j]-th MMF source row [index + j]. *)
Lemma foldM_stamp_mmf_layout n k es idx s :
  shaped n s -> (0 <= k <= idx)%Z ->
  (idx + Z.of_nat (length (mmf_sources es)) <= Z.of_nat n)%Z ->
  Forall (terminals_within k) es ->
  exists s',
    foldM stamp_mmf es (idx, s)
      = Ok ((idx + Z.of_nat (length (mmf_sources es)))%Z, s') /\
    shaped n s' /\
    (forall j src, mmf_sources es !! j = Some src ->
       sb s' !! (Z.to_nat idx + j)%nat = Some (1 * MMFSource.MMF src)) /\
    (forall i, (i < Z.to_nat idx)%nat -> sb s' !! i = sb s !! i).
Proof.
  intros Hs Hk Hn Ht. revert idx s Hs Hk Hn.
  induction Ht as [| e es He Hes IH]; intros idx s Hs Hk Hn.
  - simpl. exists s. rewrite Z.add_0_r.
    split; [reflexivity |]. split; [assumption |]. split; [| reflexivity].
    intros j src Hj. rewrite lookup_nil in Hj. discriminate.
  - destruct e as [p | src | src | cmp];
      try (simpl in Hn |- *; apply IH; assumption).
    simpl in Hn. cbn [foldM mmf_sources].
    destruct (stamp_mmf_source n k src idx s Hs Hk) as (s1 & E1 & Hs1 & Hb1); [lia | exact He |].
    rewrite E1. simpl.
    destruct (IH (idx + 1)%Z s1 Hs1) as (s' & E' & Hs' & Hent & Hkeep); [lia | lia |].
    exists s'. split.
    { rewrite E'. do 2 f_equal. lia. }
    split; [exact Hs' |]. split.
    + intros [| j] src' Hj; simpl in Hj.
      * injection Hj as <-. rewrite Nat.add_0_r, Hkeep by lia.
        rewrite Hb1. apply list_lookup_insert_eq.
        destruct Hs as (_ & _ & Hbl). lia.
      * replace (Z.to_nat idx + S j)%nat with (Z.to_nat (idx + 1) + j)%nat by lia.
        apply Hent, Hj.
    + intros i Hi. rewrite Hkeep by lia. rewrite Hb1.
      apply list_lookup_insert_ne. lia.
Qed.

Lemma built_layout c :
  built c -> has_ground c ->
  exists k : nat,
    nodes_excl_ground c = Z.of_nat k /\
    get_nodes_number c = (Z.of_nat k + 1)%Z /\
    Forall (terminals_within (Z.of_nat k)) (elems c) /\
    Forall nonzero_length (elems c).
Proof.
  intros (k & g & Hinv & Hel & Hperm)%built_inv Hg.
  apply (ni_gnd _ _ _ Hinv) in Hg. subst g.
  exists k. split; [unfold nodes_excl_ground; rewrite (ni_count _ _ _ Hinv); reflexivity |].
  split; [apply (get_nodes_number_inv _ _ _ Hinv) |].
  split; apply Forall_forall; intros e He.
  - destruct (Hel e He) as [H1 H2].
    apply (ni_int _ _ _ Hinv) in H1, H2. unfold terminals_within. lia.
  - destruct e as [p | | |]; simpl; auto. apply (Hperm p He).
Qed.

End unknown_layout.

Section layout_examples.
Import analysis.

Lemma gap_has_ground V : has_ground (gap_circuit V).
Proof. unfold has_ground. rewrite gap_circuit_eq. exists (inl 0%Z). reflexivity. Qed.

Lemma float_circuit_eq :
  float_circuit =
    mk [EMMFSource (MMFSource.mk "V1" 1 2 1)] "EMC"
       (<[(inr "b"%string : key) := (inl 2%Z : key)]>
          (<[(inl 2%Z : key) := (inr "b"%string : key)]>
             (<[(inr "a"%string : key) := (inl 1%Z : key)]>
                (<[(inl 1%Z : key) := (inr "a"%string : key)]> ∅)))) ∅.
Proof. reflexivity. Qed.

Lemma float_circuit_counts :
  nodes_excl_ground float_circuit = 2%Z /\
  get_nodes_number float_circuit = 2%Z /\
  get_MMFs_number float_circuit = 1%Z.
Proof. rewrite float_circuit_eq. repeat split; reflexivity. Qed.

(** A source between two nodes [a] and [b], ground never named: two
    nodes besides ground and one MMF source, yet two unknowns; the
    source's equation takes row 1, the row of node [b]. *)
Lemma unknown_count_without_ground :
  built float_circuit /\
  nodes_excl_ground float_circuit = 2%Z /\
  get_MMFs_number float_circuit = 1%Z /\
  n_matrix_size float_circuit = 2%Z /\
  n_matrix_size float_circuit
    <> (nodes_excl_ground float_circuit + get_MMFs_number float_circuit)%Z /\
  exists s, assemble float_circuit 2 = Ok s /\
            sA s = [[0; 1]; [1; -1]] /\ sb s = [0; 1 * 1].
Proof.
  destruct float_circuit_counts as (Hn & Hg & Hm).
  assert (Hsize : n_matrix_size float_circuit = 2%Z)
    by (unfold n_matrix_size; rewrite Hg, Hm; reflexivity).
  split; [unfold float_circuit; repeat constructor |].
  split; [exact Hn |]. split; [exact Hm |]. split; [exact Hsize |].
  split; [rewrite Hsize, Hn, Hm; lia |].
  eexists. split.
  { unfold assemble. rewrite Hg. rewrite float_circuit_eq. simpl.
    unfold mset, vset, np_index. simpl. reflexivity. }
  split; reflexivity.
Qed.

End layout_examples.

Section lonely_circuit_run.
Import analysis.

Lemma lonely_circuit_eq :
  lonely_circuit =
    mk [EMMFSource (MMFSource.mk "MMF1" 1 0 10000);
        EPermeance (Permeance.init "Rg" 1 0 1 10 10 1 None)]
       "EMC" lonely_nodes ∅.
Proof. unfold lonely_circuit. rewrite gap_circuit_eq. reflexivity. Qed.

Lemma lonely_built : built lonely_circuit.
Proof. apply built_add_node, gap_built. Qed.

Lemma lonely_linear : Forall linear_elem (elems lonely_circuit).
Proof. rewrite lonely_circuit_eq. repeat constructor. Qed.

Lemma lonely_counts :
  get_nodes_number lonely_circuit = 3%Z /\ n_matrix_size lonely_circuit = 3%Z /\
  length (mmf_sources (elems lonely_circuit)) = 1%nat.
Proof. rewrite lonely_circuit_eq. repeat split; reflexivity. Qed.

Lemma lonely_assemble :
  assemble lonely_circuit 3 = Ok (mk_sys lonely_A lonely_A [0; 0; 1 * 10000]).
Proof.
  unfold assemble. rewrite (proj1 lonely_counts), lonely_circuit_eq. simpl.
  unfold Permeance.init. rewrite !P_value, !dP_value by lra.
  unfold add_to, sub_from, mget, mset, vget, vset, np_index. simpl.
  reflexivity.
Qed.

Lemma lonely_singular : singular lonely_A.
Proof.
  exists [0; 1; 0]. split; [reflexivity |].
  change (zeros (length lonely_A)) with [0; 0; 0]. split.
  - intros [= H]. lra.
  - unfold mat_vec, dot, lonely_A. simpl.
    f_equal; [lra |]. f_equal; [lra |]. f_equal. lra.
Qed.

Lemma lonely_run gamma :
  solve_circuit lonely_circuit gamma = mk_run [] (Raised LinAlgError).
Proof.
  unfold solve_circuit. fold (n_matrix_size lonely_circuit).
  rewrite (proj1 (proj2 lonely_counts)).
  change (3 <? 0)%Z with false. cbv iota. change (Z.to_nat 3) with 3%nat.
  apply newton_loop_raise.
  apply newton_pass_singular with (c' := lonely_circuit) (J := lonely_A)
                                  (b := vsub [0; 0; 1 * 10000] (mat_vec lonely_A (zeros 3))).
  - simpl. rewrite make_system_matrix_linear by apply lonely_linear.
    rewrite length_zeros, lonely_assemble. reflexivity.
  - apply lonely_singular.
Qed.

(** Two circuits of linear permeances and one MMF source that do not
    reach CONVERGED.  With a node that no element touches, the row and
    the column of that node hold zeros only: the elimination meets a
    pivot that is exactly zero and the call raises [LinAlgError] in
    its first pass.  With a source of value 0 every pass has a zero
    increment, the tested quotient 0/0 is never below the tolerance, and
    the call ends EXHAUSTED after 2002 passes. *)
Lemma linear_circuits_that_do_not_converge :
  (built lonely_circuit /\
   Forall linear_elem (elems lonely_circuit) /\
   length (mmf_sources (elems lonely_circuit)) = 1%nat /\
   assemble lonely_circuit 3 = Ok (mk_sys lonely_A lonely_A [0; 0; 1 * 10000]) /\
   lonely_A !! 1%nat = Some [0; 0; 0] /\
   solve_circuit lonely_circuit 1 = mk_run [] (Raised LinAlgError)) /\
  (Forall linear_elem (elems (gap_circuit 0)) /\
   length (mmf_sources (elems (gap_circuit 0))) = 1%nat /\
   out (solve_circuit (gap_circuit 0) 1)
     = Returned EXHAUSTED (gap_circuit 0) [0; 0] /\
   length (trace (solve_circuit (gap_circuit 0) 1)) = 2002%nat).
Proof.
  split.
  - split; [apply lonely_built |]. split; [apply lonely_linear |].
    split; [apply lonely_counts |]. split; [apply lonely_assemble |].
    split; [reflexivity | apply lonely_run].
  - apply zero_source_never_converges.
Qed.

End lonely_circuit_run.

(** ** Names and integers of the nodes *)

Section node_pairing.

Lemma nodes_paired_empty : nodes_paired ∅.
Proof.
  repeat split; intros *; rewrite lookup_empty; discriminate.
Qed.

(** Registering a new name under a new integer. *)
Lemma register_paired nd (i : Z) s :
  nodes_paired nd ->
  nd !! (inl i : key) = None -> nd !! (inr s : key) = None ->
  (i = 0%Z <-> s = "0"%string) ->
  nodes_paired (<[(inr s : key) := (inl i : key)]>
                  (<[(inl i : key) := (inr s : key)]> nd)).
Proof.
  intros (Hi & Hs & H0 & Hg) Ei Es Hz.
  split; [| split; [| split]].
  - intros j v. rewrite lookup_insert_ne by discriminate.
    intros [[[= <-] <-] | [Hne Hj]]%lookup_insert_Some.
    + exists s. split; [reflexivity | apply lookup_insert_eq].
    + destruct (Hi _ _ Hj) as (s' & -> & Hs').
      exists s'. split; [reflexivity |].
      rewrite lookup_insert_ne by congruence.
      rewrite lookup_insert_ne by discriminate. exact Hs'.
  - intros s' v.
    intros [[[= <-] <-] | [Hne Hj]]%lookup_insert_Some.
    + exists i. split; [reflexivity |].
      rewrite lookup_insert_ne by discriminate. apply lookup_insert_eq.
    + rewrite lookup_insert_ne in Hj by discriminate.
      destruct (Hs _ _ Hj) as (j & -> & Hj').
      exists j. split; [reflexivity |].
      rewrite lookup_insert_ne by discriminate.
      rewrite lookup_insert_ne by congruence. exact Hj'.
  - intros s'.
    intros [[E1 E2] | [Hne Hj]]%lookup_insert_Some.
    + injection E1 as <-. injection E2 as E2. apply Hz, E2.
    + rewrite lookup_insert_ne in Hj by discriminate. apply H0, Hj.
  - intros v.
    intros [[E1 <-] | [Hne Hj]]%lookup_insert_Some.
    + injection E1 as E1. f_equal. apply Hz. exact E1.
    + rewrite lookup_insert_ne in Hj by discriminate. apply Hg, Hj.
Qed.

(** The three outcomes of [add_node] on a dictionary of the built
    shape. *)
Lemma add_node_cases c k g s :
  nodes_inv (nodes_dict c) k g ->
  (exists i : Z, nodes_dict c !! (inr s : key) = Some (inl i) /\
                 add_node c s = (c, Ok i)) \/
  (nodes_dict c !! (inr s : key) = None /\ s = "0"%string /\ g = false /\
   nodes_dict c !! (inl 0%Z : key) = None /\
   add_node c s = (register c 0 s, Ok 0%Z)) \/
  (nodes_dict c !! (inr s : key) = None /\ s <> "0"%string /\
   nodes_dict c !! (inl (Z.of_nat k + 1)%Z : key) = None /\
   add_node c s = (register c (Z.of_nat k + 1) s, Ok (Z.of_nat k + 1)%Z)).
Proof.
  intros Hinv. unfold add_node.
  destruct (nodes_dict c !! (inr s : key)) as [v|] eqn:E.
  - left. destruct (ni_name _ _ _ Hinv _ _ E) as (i & -> & _). eauto.
  - right. destruct (String.eqb_spec s "0") as [-> | Hs0]; [left | right].
    + assert (Hg : g = false).
      { destruct g; [| reflexivity].
        assert (Hs : is_Some (nodes_dict c !! (inr "0"%string : key)))
          by (apply (ni_gnd _ _ _ Hinv); reflexivity).
        rewrite E in Hs. destruct Hs as [? [=]]. }
      subst g. repeat split; try reflexivity.
      destruct (nodes_dict c !! (inl 0%Z : key)) eqn:E0; [| reflexivity].
      assert (Hs : is_Some (nodes_dict c !! (inl 0%Z : key))) by (rewrite E0; eauto).
      apply (ni_int _ _ _ Hinv) in Hs as [Hs | [_ Hs]]; [lia | discriminate].
    + rewrite (next_int_node_inv _ _ _ Hinv). repeat split; try assumption.
      destruct (nodes_dict c !! (inl (Z.of_nat k + 1)%Z : key)) eqn:E0; [| reflexivity].
      assert (Hi : is_Some (nodes_dict c !! (inl (Z.of_nat k + 1)%Z : key)))
        by (rewrite E0; eauto).
      apply (ni_int _ _ _ Hinv) in Hi as [Hi | [Hi _]]; lia.
Qed.

Lemma add_node_paired c k g s :
  nodes_inv (nodes_dict c) k g -> nodes_paired (nodes_dict c) ->
  nodes_paired (nodes_dict (add_node c s).1).
Proof.
  intros Hinv Hp.
  destruct (add_node_cases c k g s Hinv)
    as [(i & _ & ->) | [(Es & -> & _ & E0 & ->) | (Es & Hs0 & Ek & ->)]]; simpl.
  - exact Hp.
  - apply register_paired; auto. tauto.
  - apply register_paired; auto. split; [lia | contradiction].
Qed.

(** A property of the dictionary that [add_node] keeps holds of every
    built circuit: the other methods change the dictionary through
    [add_node] only. *)
Lemma built_nodes_ind (P : gmap key key -> Prop) :
  P ∅ ->
  (forall c s, built c -> P (nodes_dict c) -> P (nodes_dict (add_node c s).1)) ->
  forall c, built c -> P (nodes_dict c).
Proof.
  intros H0 Hstep.
  assert (Htwo : forall c s1 s2, built c -> P (nodes_dict c) ->
            P (nodes_dict (add_node (add_node c s1).1 s2).1)).
  { intros c s1 s2 Hb Hc. apply Hstep; [apply built_add_node, Hb |].
    apply Hstep; assumption. }
  induction 1 as [title | c name Hb IH | c name Hb IH | c ty label hb hu Hb IH
                 | c label Hb IH | c part s1 s2 mur w d l label Hb IH
                 | c part s1 s2 value Hb IH | c part s1 s2 value Hb IH].
  - exact H0.
  - destruct (built_inv c Hb) as (k & g & Hinv & _).
    rewrite (create_node_state _ _ _ _ Hinv). apply Hstep; assumption.
  - apply Hstep; assumption.
  - unfold add_model. destruct (String.eqb ty "BH"); exact IH.
  - exact IH.
  - destruct (built_inv c Hb) as (k & g & Hinv & _).
    destruct (add_permeance_state c k g part s1 s2 mur w d l label Hinv)
      as (j1 & j2 & _ & _ & ->).
    specialize (Htwo c s1 s2 Hb IH).
    repeat (destruct (Req_dec_T _ 0); [exact Htwo |]).
    destruct label as [m |]; [destruct (models c !! m) |]; exact Htwo.
  - destruct (built_inv c Hb) as (k & g & Hinv & _).
    destruct (add_two_nodes c k g s1 s2 Hinv)
      as (nd1 & nd' & i1 & i2 & k' & g' & E1 & E2 & _).
    specialize (Htwo c s1 s2 Hb IH). unfold add_mmf_source.
    rewrite E1 in *. simpl in *. rewrite E2 in *. exact Htwo.
  - destruct (built_inv c Hb) as (k & g & Hinv & _).
    destruct (add_two_nodes c k g s1 s2 Hinv)
      as (nd1 & nd' & i1 & i2 & k' & g' & E1 & E2 & _).
    specialize (Htwo c s1 s2 Hb IH). unfold add_phi_source.
    rewrite E1 in *. simpl in *. rewrite E2 in *. exact Htwo.
Qed.

Lemma built_paired c : built c -> nodes_paired (nodes_dict c).
Proof.
  intros Hb. pattern (nodes_dict c). revert c Hb. apply built_nodes_ind.
  - apply nodes_paired_empty.
  - intros c s Hc Hp. destruct (built_inv c Hc) as (k & g & Hinv & _).
    eapply add_node_paired; eassumption.
Qed.

Lemma nodes_excl_ground_inv c k g :
  nodes_inv (nodes_dict c) k g -> nodes_excl_ground c = Z.of_nat k.
Proof. intros Hinv. unfold nodes_excl_ground. rewrite (ni_count _ _ _ Hinv). reflexivity. Qed.

Lemma has_ground_inv c k g :
  nodes_inv (nodes_dict c) k g -> has_ground c <-> g = true.
Proof. intros Hinv. apply (ni_gnd _ _ _ Hinv). Qed.

End node_pairing.

Section node_numbering.

Lemma ext_node_to_int_Ok c s v :
  ext_node_to_int c s = Ok v <-> nodes_dict c !! (inr s : key) = Some v.
Proof.
  unfold ext_node_to_int. destruct (nodes_dict c !! (inr s : key)); split; congruence.
Qed.

Lemma int_node_to_ext_Ok c i v :
  int_node_to_ext c i = Ok v <-> nodes_dict c !! (inl i : key) = Some v.
Proof.
  unfold int_node_to_ext. destruct (nodes_dict c !! (inl i : key)); split; congruence.
Qed.

(** X1. On a built circuit [add_node] returns an integer, a second call
    with the same name returns the same integer and changes nothing,
    and the two lookups translate the name and the integer into each
    other.  Elements and models are untouched. *)
Theorem add_node_is_idempotent c s :
  built c ->
  exists c' (i : Z),
    add_node c s = (c', Ok i) /\
    add_node c' s = (c', Ok i) /\
    ext_node_to_int c' s = Ok (inl i) /\
    int_node_to_ext c' i = Ok (inr s) /\
    nodes_dict c ⊆ nodes_dict c' /\
    elems c' = elems c /\ models c' = models c.
Proof.
  intros Hb.
  destruct (built_inv c Hb) as (k & g & Hinv & _).
  pose proof (built_paired _ (built_add_node c s Hb)) as (_ & Hs & _).
  destruct (add_node_inv c k g s Hinv)
    as (nd' & i & k' & g' & E & Hinv' & Hsub & Hn & _).
  rewrite E in Hs. simpl in Hs.
  exists (set_nodes_dict c nd'), i.
  split; [exact E |].
  split. { unfold add_node. simpl. rewrite Hn. reflexivity. }
  split. { apply ext_node_to_int_Ok. exact Hn. }
  split. { apply int_node_to_ext_Ok. destruct (Hs _ _ Hn) as (j & [= <-] & Hj). exact Hj. }
  split; [exact Hsub |]. split; reflexivity.
Qed.

Lemma add_node_is_idempotent_witness :
  exists c' (i : Z),
    add_node (gap_circuit 10000) "n2" = (c', Ok i) /\
    add_node c' "n2" = (c', Ok i) /\
    ext_node_to_int c' "n2" = Ok (inl i) /\
    int_node_to_ext c' i = Ok (inr "n2"%string) /\
    nodes_dict (gap_circuit 10000) ⊆ nodes_dict c' /\
    elems c' = elems (gap_circuit 10000) /\ models c' = models (gap_circuit 10000).
Proof. exact (add_node_is_idempotent (gap_circuit 10000) "n2" (gap_built 10000)). Defined.

(** X2. In a built circuit the two lookups are inverse to each other: a
    name is bound to an integer exactly when that integer is bound to
    the name.  So two names never share an integer, and the integer 0
    is the one of the ground name. *)
Theorem node_lookups_are_inverse c :
  built c ->
  (forall s (i : Z), ext_node_to_int c s = Ok (inl i) <-> int_node_to_ext c i = Ok (inr s)) /\
  (forall s v, ext_node_to_int c s = Ok v -> exists i : Z, v = inl i) /\
  (forall i v, int_node_to_ext c i = Ok v -> exists s : string, v = inr s) /\
  (forall s1 s2 v, ext_node_to_int c s1 = Ok v -> ext_node_to_int c s2 = Ok v -> s1 = s2) /\
  (forall s, ext_node_to_int c s = Ok (inl 0%Z) <-> s = "0"%string /\ has_ground c).
Proof.
  intros Hb. destruct (built_paired c Hb) as (Hi & Hs & H0 & Hg).
  split; [| split; [| split; [| split]]].
  - intros s i. rewrite ext_node_to_int_Ok, int_node_to_ext_Ok. split.
    + intros H. destruct (Hs _ _ H) as (j & [= <-] & Hj). exact Hj.
    + intros H. destruct (Hi _ _ H) as (s' & [= <-] & Hs'). exact Hs'.
  - intros s v H%ext_node_to_int_Ok. destruct (Hs _ _ H) as (i & -> & _). eauto.
  - intros i v H%int_node_to_ext_Ok. destruct (Hi _ _ H) as (s & -> & _). eauto.
  - intros s1 s2 v H1%ext_node_to_int_Ok H2%ext_node_to_int_Ok.
    destruct (Hs _ _ H1) as (i & -> & Hi1).
    destruct (Hs _ _ H2) as (j & [= <-] & Hi2). congruence.
  - intros s. rewrite ext_node_to_int_Ok. unfold has_ground. split.
    + intros H. pose proof (H0 _ H) as ->. split; [reflexivity | eauto].
    + intros [-> [v Hv]]. rewrite Hv. f_equal. apply Hg, Hv.
Qed.

Lemma node_lookups_are_inverse_witness :
  ext_node_to_int (gap_circuit 10000) "n1" = Ok (inl 1%Z) /\
  int_node_to_ext (gap_circuit 10000) 1 = Ok (inr "n1"%string).
Proof.
  pose proof (node_lookups_are_inverse (gap_circuit 10000) (gap_built 10000)) as (H & _).
  assert (E : ext_node_to_int (gap_circuit 10000) "n1" = Ok (inl 1%Z)).
  { rewrite gap_circuit_eq. reflexivity. }
  split; [exact E | apply H, E].
Defined.

(** X3. The integers in use in a built circuit are gap-free: exactly
    [1 .. k] for the [k] names other than ground, and 0 once ground is
    registered.  [get_nodes_number] counts ground with them. *)
Theorem node_integers_are_dense c :
  built c ->
  (forall i : Z,
     (exists v, int_node_to_ext c i = Ok v) <->
     (1 <= i <= nodes_excl_ground c)%Z \/ (i = 0%Z /\ has_ground c)) /\
  get_nodes_number c
    = (nodes_excl_ground c + if decide (has_ground c) then 1 else 0)%Z.
Proof.
  intros Hb. destruct (built_inv c Hb) as (k & g & Hinv & _).
  rewrite (nodes_excl_ground_inv _ _ _ Hinv).
  pose proof (has_ground_inv _ _ _ Hinv) as Hg.
  split.
  - intros i. split.
    + intros [v Hv%int_node_to_ext_Ok].
      assert (His : is_Some (nodes_dict c !! (inl i : key))) by eauto.
      apply (ni_int _ _ _ Hinv) in His. tauto.
    + intros H. assert (His : is_Some (nodes_dict c !! (inl i : key))).
      { apply (ni_int _ _ _ Hinv). tauto. }
      destruct His as [v Hv]. exists v. apply int_node_to_ext_Ok, Hv.
  - rewrite (get_nodes_number_inv _ _ _ Hinv).
    destruct (decide (has_ground c)) as [H | H]; destruct g; try reflexivity.
    + apply Hg in H. discriminate.
    + exfalso. apply H, Hg. reflexivity.
Qed.

Lemma node_integers_are_dense_witness :
  nodes_excl_ground (gap_circuit 10000) = 1%Z /\
  get_nodes_number (gap_circuit 10000) = 2%Z /\
  (exists v, int_node_to_ext (gap_circuit 10000) 1 = Ok v) /\
  ~ (exists v, int_node_to_ext (gap_circuit 10000) 2 = Ok v).
Proof.
  pose proof (node_integers_are_dense (gap_circuit 10000) (gap_built 10000)) as (H1 & H2).
  assert (E : nodes_excl_ground (gap_circuit 10000) = 1%Z).
  { rewrite gap_circuit_eq. reflexivity. }
  split; [exact E |]. split; [| split].
  - rewrite H2, E. destruct (decide (has_ground (gap_circuit 10000))) as [| n]; [reflexivity |].
    exfalso. apply n, gap_has_ground.
  - apply H1. left. rewrite E. lia.
  - intros H. apply H1 in H as [H | [H _]]; [rewrite E in H |]; lia.
Defined.

(** X4. A name that is not yet registered gets the next integer: ground
    gets 0, any other name one more than the number of names other
    than ground.  One node is added and the other names keep their
    integers. *)
Theorem add_node_numbers_new_names c s :
  built c -> ext_node_to_int c s = Raise KeyError ->
  let c' := (add_node c s).1 in
  (add_node c s).2
    = Ok (if String.eqb s "0" then 0%Z else (nodes_excl_ground c + 1)%Z) /\
  get_nodes_number c' = (get_nodes_number c + 1)%Z /\
  nodes_excl_ground c'
    = (nodes_excl_ground c + if String.eqb s "0" then 0 else 1)%Z /\
  (forall s', s' <> s -> ext_node_to_int c' s' = ext_node_to_int c s').
Proof.
  intros Hb Hnew c'. subst c'.
  destruct (built_inv c Hb) as (k & g & Hinv & _).
  assert (Es : nodes_dict c !! (inr s : key) = None).
  { unfold ext_node_to_int in Hnew.
    destruct (nodes_dict c !! (inr s : key)); [discriminate | reflexivity]. }
  assert (Hother : forall (i : Z) s', s' <> s ->
            ext_node_to_int (register c i s) s' = ext_node_to_int c s').
  { intros i s' Hne. unfold ext_node_to_int, register. simpl.
    rewrite lookup_insert_ne by congruence.
    rewrite lookup_insert_ne by discriminate. reflexivity. }
  rewrite (nodes_excl_ground_inv _ _ _ Hinv).
  rewrite (get_nodes_number_inv _ _ _ Hinv).
  destruct (add_node_cases c k g s Hinv)
    as [(i & Ei & _) | [(_ & -> & -> & E0 & E) | (_ & Hs0 & Ek & E)]].
  - congruence.
  - rewrite E. simpl. split; [reflexivity |].
    pose proof (register_ground_inv _ _ Hinv) as Hinv'.
    split; [| split; [| apply Hother]].
    + rewrite (get_nodes_number_inv (register c 0 "0") k true Hinv'). lia.
    + rewrite (nodes_excl_ground_inv (register c 0 "0") k true Hinv'). lia.
  - rewrite E. simpl.
    destruct (String.eqb_spec s "0") as [-> | _]; [contradiction |].
    split; [reflexivity |].
    pose proof (register_fresh_inv _ _ _ _ Hinv Hs0 Es) as Hinv'.
    split; [| split; [| apply Hother]].
    + rewrite (get_nodes_number_inv (register c (Z.of_nat k + 1) s) (S k) g Hinv').
      destruct g; lia.
    + rewrite (nodes_excl_ground_inv (register c (Z.of_nat k + 1) s) (S k) g Hinv'). lia.
Qed.

Lemma add_node_numbers_new_names_witness :
  (add_node (gap_circuit 10000) "n2").2 = Ok 2%Z /\
  get_nodes_number (add_node (gap_circuit 10000) "n2").1 = 3%Z.
Proof.
  assert (E : ext_node_to_int (gap_circuit 10000) "n2" = Raise KeyError).
  { rewrite gap_circuit_eq. reflexivity. }
  pose proof (add_node_numbers_new_names (gap_circuit 10000) "n2" (gap_built 10000) E)
    as (H1 & H2 & _).
  split.
  - rewrite H1. simpl. f_equal. rewrite gap_circuit_eq. reflexivity.
  - rewrite H2, gap_nodes_number. reflexivity.
Defined.

End node_numbering.

Section element_list.

Lemma get_MMFs_number_app c e :
  get_MMFs_number (append c e)
  = (get_MMFs_number c + match e with EMMFSource _ => 1 | _ => 0 end)%Z.
Proof.
  unfold get_MMFs_number, append. simpl. rewrite fold_left_app. simpl.
  destruct e; lia.
Qed.

Lemma get_MMFs_number_set_nodes c nd :
  get_MMFs_number (set_nodes_dict c nd) = get_MMFs_number c.
Proof. reflexivity. Qed.

(** X5. On a built circuit the two source methods cannot fail.  Each
    registers its two names as [add_node] would, appends one element
    whose terminals are the integers of those names, and leaves the
    models alone; an MMF source raises the count of MMF sources by one,
    a flux source leaves it. *)
Theorem add_source_always_succeeds c part_id s1 s2 value :
  built c ->
  (exists c' (i1 i2 : Z),
     add_mmf_source c part_id s1 s2 value = (c', Ok tt) /\
     elems c' = elems c ++ [EMMFSource (MMFSource.mk part_id i1 i2 value)] /\
     ext_node_to_int c' s1 = Ok (inl i1) /\ ext_node_to_int c' s2 = Ok (inl i2) /\
     nodes_dict c' = nodes_dict (add_node (add_node c s1).1 s2).1 /\
     models c' = models c /\
     get_MMFs_number c' = (get_MMFs_number c + 1)%Z) /\
  (exists c' (i1 i2 : Z),
     add_phi_source c part_id s1 s2 value = (c', Ok tt) /\
     elems c' = elems c ++ [EPHISource (PHISource.mk part_id i1 i2 value)] /\
     ext_node_to_int c' s1 = Ok (inl i1) /\ ext_node_to_int c' s2 = Ok (inl i2) /\
     nodes_dict c' = nodes_dict (add_node (add_node c s1).1 s2).1 /\
     models c' = models c /\
     get_MMFs_number c' = get_MMFs_number c).
Proof.
  intros Hb. destruct (built_inv c Hb) as (k & g & Hinv & _).
  destruct (add_two_nodes c k g s1 s2 Hinv)
    as (nd1 & nd' & i1 & i2 & k' & g' & E1 & E2 & _ & _ & Hs1 & Hs2 & _).
  split.
  - exists (append (set_nodes_dict c nd') (EMMFSource (MMFSource.mk part_id i1 i2 value))),
      i1, i2.
    unfold add_mmf_source. rewrite E1. simpl. rewrite E2. simpl.
    split; [reflexivity |]. split; [reflexivity |].
    split; [apply ext_node_to_int_Ok, Hs1 |].
    split; [apply ext_node_to_int_Ok, Hs2 |].
    split; [reflexivity |]. split; [reflexivity |].
    apply (get_MMFs_number_app (set_nodes_dict c nd')).
  - exists (append (set_nodes_dict c nd') (EPHISource (PHISource.mk part_id i1 i2 value))),
      i1, i2.
    unfold add_phi_source. rewrite E1. simpl. rewrite E2. simpl.
    split; [reflexivity |]. split; [reflexivity |].
    split; [apply ext_node_to_int_Ok, Hs1 |].
    split; [apply ext_node_to_int_Ok, Hs2 |].
    split; [reflexivity |]. split; [reflexivity |].
    rewrite (get_MMFs_number_app (set_nodes_dict c nd')). simpl.
    rewrite get_MMFs_number_set_nodes. lia.
Qed.

Lemma add_source_always_succeeds_witness :
  exists c' (i1 i2 : Z),
    add_mmf_source (gap_circuit 10000) "MMF2" "n2" "0" 5 = (c', Ok tt) /\
    elems c' = elems (gap_circuit 10000)
                 ++ [EMMFSource (MMFSource.mk "MMF2" i1 i2 5)] /\
    ext_node_to_int c' "n2" = Ok (inl i1) /\ ext_node_to_int c' "0" = Ok (inl i2) /\
    nodes_dict c'
      = nodes_dict (add_node (add_node (gap_circuit 10000) "n2").1 "0").1 /\
    models c' = models (gap_circuit 10000) /\
    get_MMFs_number c' = (get_MMFs_number (gap_circuit 10000) + 1)%Z.
Proof.
  exact (proj1 (add_source_always_succeeds (gap_circuit 10000) "MMF2" "n2" "0" 5
                  (gap_built 10000))).
Defined.

(** *** Duplicate part ids *)

Lemma size_list_to_set_le (l : list string) :
  (size (list_to_set l : gset string) <= length l)%nat.
Proof.
  induction l as [| a l IH]; simpl.
  - pose proof (size_empty (C := gset string)) as E. simpl in E. lia.
  - rewrite size_union_alt, size_singleton.
    assert (Hsub : (list_to_set l ∖ {[a]} : gset string) ⊆ list_to_set l)
      by apply subseteq_difference_l, reflexivity.
    apply subseteq_size in Hsub. lia.
Qed.

Lemma size_list_to_set_NoDup (l : list string) :
  size (list_to_set l : gset string) = length l <-> NoDup l.
Proof.
  split; [| apply size_list_to_set].
  induction l as [| a l IH]; simpl; [constructor |].
  intros H. destruct (decide (a ∈ l)) as [Hin | Hnin].
  - exfalso.
    assert (E : ({[a]} ∪ list_to_set l : gset string) = list_to_set l).
    { apply subseteq_union_1_L. apply singleton_subseteq_l.
      apply elem_of_list_to_set, Hin. }
    rewrite E in H. pose proof (size_list_to_set_le l). lia.
  - constructor; [exact Hnin |]. apply IH.
    rewrite size_union in H.
    + rewrite size_singleton in H. lia.
    + apply disjoint_singleton_l. rewrite elem_of_list_to_set. exact Hnin.
Qed.

(** X6. [has_duplicate_elem] answers whether two elements share a
    [part_id].  The methods that add elements never ask: adding a
    source under a part id that is already taken succeeds, and the
    check then reports a duplicate. *)
Theorem has_duplicate_elem_detects_shared_ids c :
  (has_duplicate_elem c = false <-> NoDup (map elem_part_id (elems c))) /\
  (forall part_id s1 s2 value,
     built c -> part_id ∈ map elem_part_id (elems c) ->
     exists c', add_mmf_source c part_id s1 s2 value = (c', Ok tt) /\
                has_duplicate_elem c' = true).
Proof.
  assert (Hiff : forall c0,
            has_duplicate_elem c0 = false <-> NoDup (map elem_part_id (elems c0))).
  { intros c0. unfold has_duplicate_elem. rewrite negb_false_iff, Nat.eqb_eq.
    apply size_list_to_set_NoDup. }
  split; [apply Hiff |].
  intros part_id s1 s2 value Hb Hin.
  destruct (built_inv c Hb) as (k & g & Hinv & _).
  destruct (add_two_nodes c k g s1 s2 Hinv)
    as (nd1 & nd' & i1 & i2 & k' & g' & E1 & E2 & _).
  eexists. unfold add_mmf_source. rewrite E1, E2. split; [reflexivity |].
  apply not_false_iff_true. rewrite Hiff. simpl. rewrite map_app. simpl.
  intros Hnd. apply NoDup_app in Hnd as (_ & Hdis & _).
  apply (Hdis part_id Hin). apply list_elem_of_singleton. reflexivity.
Qed.

Lemma has_duplicate_elem_detects_shared_ids_witness :
  has_duplicate_elem (gap_circuit 10000) = false /\
  exists c', add_mmf_source (gap_circuit 10000) "Rg" "n1" "0" 1 = (c', Ok tt) /\
             has_duplicate_elem c' = true.
Proof.
  pose proof (has_duplicate_elem_detects_shared_ids (gap_circuit 10000)) as (H1 & H2).
  split.
  - apply H1. rewrite gap_circuit_eq. simpl.
    repeat constructor; rewrite ?elem_of_cons, ?elem_of_nil; intuition discriminate.
  - apply H2; [apply gap_built |].
    rewrite gap_circuit_eq. simpl. rewrite !elem_of_cons. auto.
Defined.

(** *** Lookup by part id *)

(** X7. [get_elem_by_name] returns the first element, in list order,
    whose lowered part id equals the lowered argument, and raises
    [ValueError] exactly when there is none; only the lowered
    argument matters.  This holds whatever function [lower] is. *)
Theorem get_elem_by_name_finds_first_match lower c part_id :
  (forall e, get_elem_by_name lower c part_id = Ok e <->
     exists before after,
       elems c = before ++ e :: after /\
       lower (elem_part_id e) = lower part_id /\
       Forall (fun e' => lower (elem_part_id e') <> lower part_id) before) /\
  (get_elem_by_name lower c part_id = Raise ValueError <->
     Forall (fun e' => lower (elem_part_id e') <> lower part_id) (elems c)) /\
  (forall part_id', lower part_id' = lower part_id ->
     get_elem_by_name lower c part_id' = get_elem_by_name lower c part_id).
Proof.
  unfold get_elem_by_name. generalize (elems c) as es. clear c. intros es.
  split; [| split].
  - induction es as [| a es IH]; intros e; simpl.
    + split; [discriminate |]. intros (before & after & E & _).
      destruct before; discriminate.
    + destruct (String.eqb_spec (lower (elem_part_id a)) (lower part_id)) as [Ea | Ea].
      * split.
        -- intros [= <-]. exists [], es. auto.
        -- intros (before & after & E & He & Hb).
           destruct before as [| b before]; simpl in E.
           ++ congruence.
           ++ injection E as <- _. apply Forall_cons in Hb as [Hb _]. contradiction.
      * rewrite IH. split.
        -- intros (before & after & -> & He & Hb).
           exists (a :: before), after. auto.
        -- intros (before & after & E & He & Hb).
           destruct before as [| b before]; simpl in E.
           ++ congruence.
           ++ injection E as <- ->. apply Forall_cons in Hb as [_ Hb]. eauto.
  - induction es as [| a es IH]; simpl.
    + split; auto.
    + destruct (String.eqb_spec (lower (elem_part_id a)) (lower part_id)) as [Ea | Ea].
      * split; [discriminate |]. intros [Hb _]%Forall_cons. contradiction.
      * rewrite IH. split; [auto |]. intros [_ Hb]%Forall_cons. exact Hb.
  - intros part_id' E. induction es as [| a es IH]; simpl; [reflexivity |].
    rewrite E, IH. reflexivity.
Qed.

Lemma get_elem_by_name_finds_first_match_witness :
  get_elem_by_name (fun s => s) (gap_circuit 10000) "Rg"
    = Ok (EPermeance (Permeance.init "Rg" 1 0 1 10 10 1 None)) /\
  get_elem_by_name (fun s => s) (gap_circuit 10000) "R1" = Raise ValueError.
Proof.
  split.
  - apply (get_elem_by_name_finds_first_match (fun s => s) (gap_circuit 10000) "Rg").
    exists [EMMFSource (MMFSource.mk "MMF1" 1 0 10000)], [].
    rewrite gap_circuit_eq. split; [reflexivity |]. split; [reflexivity |].
    repeat constructor. discriminate.
  - apply (get_elem_by_name_finds_first_match (fun s => s) (gap_circuit 10000) "R1").
    rewrite gap_circuit_eq. repeat constructor; discriminate.
Defined.

End element_list.

Section model_registry.

Lemma set_models_id c : set_models c (models c) = c.
Proof. destruct c; reflexivity. Qed.

(** X8. The registry of material models.  A model type other than [BH] is
    refused and the circuit is as before.  [remove_model] of a label
    that is not registered changes nothing, so removing twice is
    removing once, and adding a model under a new label and removing
    it again gives the circuit back.  Nodes and elements are never
    touched. *)
Theorem add_then_remove_model_restores c model_type label hb hu :
  models c !! label = None ->
  remove_model c label = c /\
  remove_model (add_model c "BH" label hb hu).1 label = c /\
  (model_type <> "BH"%string ->
   add_model c model_type label hb hu = (c, Raise CircuitError)) /\
  (forall c0 l0, remove_model (remove_model c0 l0) l0 = remove_model c0 l0) /\
  (forall c0 l0, nodes_dict (remove_model c0 l0) = nodes_dict c0 /\
                 elems (remove_model c0 l0) = elems c0 /\
                 models (remove_model c0 l0) !! l0 = None).
Proof.
  intros Hnew. split; [| split; [| split; [| split]]].
  - unfold remove_model. rewrite delete_id by exact Hnew. apply set_models_id.
  - destruct c as [es t nd ms]. unfold remove_model, add_model, set_models. simpl in *.
    rewrite delete_insert_id by exact Hnew. reflexivity.
  - intros Hty. unfold add_model.
    destruct (String.eqb_spec model_type "BH"); [contradiction | reflexivity].
  - intros c0 l0. unfold remove_model. simpl. rewrite delete_delete_eq. reflexivity.
  - intros c0 l0. simpl. repeat split. apply lookup_delete_eq.
Qed.

Lemma add_then_remove_model_restores_witness :
  remove_model (add_model (gap_circuit 10000) "BH" "M"
                  (hb line_model) (hu line_model)).1 "M" = gap_circuit 10000 /\
  add_model (gap_circuit 10000) "B-H" "M" (hb line_model) (hu line_model)
    = (gap_circuit 10000, Raise CircuitError).
Proof.
  assert (E : models (gap_circuit 10000) !! "M"%string = None).
  { rewrite gap_circuit_eq. reflexivity. }
  pose proof (add_then_remove_model_restores (gap_circuit 10000) "B-H" "M"
                (hb line_model) (hu line_model) E) as (_ & H2 & H4 & _).
  split; [exact H2 | apply H4; discriminate].
Defined.

End model_registry.

Section solver_preconditions.

Lemma mapM_raise {A B} (f : A -> result B) xs a e :
  a ∈ xs -> f a = Raise e -> exists e', mapM f xs = Raise e'.
Proof.
  induction xs as [| b xs IH]; intros Hin Hf.
  - apply elem_of_nil in Hin. contradiction.
  - simpl. destruct (f b) as [b' |] eqn:Eb; [| simpl; eauto].
    apply elem_of_cons in Hin as [-> | Hin]; [congruence |].
    destruct (IH Hin Hf) as [e' ->]. simpl. eauto.
Qed.

Lemma newton_pass_raise gamma st e :
  make_system_matrix (ls_circ st) (ls_x st) = Raise e ->
  newton_pass gamma st = Raise e.
Proof. intros H. unfold newton_pass. rewrite H. reflexivity. Qed.

Lemma solve_circuit_first_raise c gamma :
  (forall x, exists e, make_system_matrix c x = Raise e) ->
  exists e, solve_circuit c gamma = mk_run [] (Raised e).
Proof.
  intros H. destruct (solve_circuit_cases c gamma) as [[_ ->] | [_ ->]]; [eauto |].
  destruct (H (zeros (Z.to_nat (n_matrix_size c)))) as [e He].
  exists e. apply newton_loop_raise, newton_pass_raise. exact He.
Qed.

(** X9. A permeance whose model label is not in the registry stops the
    refresh of the permeabilities, and with it the assembly and the
    solver, before any pass completes.  [remove_model] does not look
    for such permeances: removing the model of a permeance that was
    added with success leaves a circuit that cannot be solved. *)
Theorem removed_model_stops_the_solver c label :
  (forall p, EPermeance p ∈ elems c -> Permeance.model_label p = Some label ->
     models c !! label = None ->
     (forall x, exists e, update_mur c x = Raise e) /\
     (forall x, exists e, make_system_matrix c x = Raise e) /\
     (forall gamma, exists e, solve_circuit c gamma = mk_run [] (Raised e))) /\
  (forall part_id s1 s2 mur w d l gamma,
     (add_permeance c part_id s1 s2 mur w d l (Some label)).2 = Ok tt ->
     exists e,
       solve_circuit
         (remove_model (add_permeance c part_id s1 s2 mur w d l (Some label)).1 label)
         gamma
       = mk_run [] (Raised e)).
Proof.
  assert (Hgen : forall c0 p, EPermeance p ∈ elems c0 ->
            Permeance.model_label p = Some label -> models c0 !! label = None ->
            forall x, exists e, make_system_matrix c0 x = Raise e).
  { intros c0 p Hin Hl Hm x. unfold make_system_matrix, update_mur.
    destruct (mapM_raise (update_elem c0 x) (elems c0) (EPermeance p) KeyError Hin)
      as [e' He'].
    { simpl. rewrite Hl, Hm. reflexivity. }
    rewrite He'. simpl. eauto. }
  split.
  - intros p Hin Hl Hm. split; [| split].
    + intros x. unfold update_mur.
      destruct (mapM_raise (update_elem c x) (elems c) (EPermeance p) KeyError Hin)
        as [e' He'].
      { simpl. rewrite Hl, Hm. reflexivity. }
      rewrite He'. simpl. eauto.
    + eapply Hgen; eassumption.
    + intros gamma. apply solve_circuit_first_raise. eapply Hgen; eassumption.
  - intros part_id s1 s2 mur w d l gamma Hok.
    apply solve_circuit_first_raise.
    unfold add_permeance in *.
    destruct (add_node c s1) as [c1 [i1 | e1]]; [| discriminate].
    destruct (add_node c1 s2) as [c2 [i2 | e2]]; [| discriminate].
    repeat (destruct (Req_dec_T _ 0); [discriminate |]).
    destruct (models c2 !! label); [| discriminate].
    apply (Hgen _ (Permeance.init part_id i1 i2 mur w d l (Some label))).
    + simpl. apply elem_of_app. right. apply list_elem_of_singleton. reflexivity.
    + reflexivity.
    + simpl. apply lookup_delete_eq.
Qed.

Lemma removed_model_stops_the_solver_witness :
  exists e, solve_circuit (remove_model core_circuit "M") 1 = mk_run [] (Raised e).
Proof.
  pose proof (removed_model_stops_the_solver (remove_model core_circuit "M") "M")
    as (H & _).
  apply (H (Permeance.mk "Rc" 1 0 1 1 1000 1000 1000 (Some "M"%string))).
  - rewrite core_circuit_eq. simpl. rewrite !elem_of_cons. auto.
  - reflexivity.
  - simpl. apply lookup_delete_eq.
Defined.

Lemma get_MMFs_number_nonneg c : (0 <= get_MMFs_number c)%Z.
Proof. rewrite get_MMFs_number_count. lia. Qed.

(** X10. A built circuit gives the solver a negative number of unknowns
    exactly when no node was ever registered; it then has no element
    either, and [solve_circuit] raises [ValueError] on allocating the
    unknown vector, before the first pass.  Every other built circuit
    enters the loop from the zero vector. *)
Theorem solve_circuit_needs_a_node c gamma :
  built c ->
  ((n_matrix_size c < 0)%Z <-> nodes_dict c = ∅) /\
  (nodes_dict c = ∅ ->
     elems c = [] /\ solve_circuit c gamma = mk_run [] (Raised ValueError)) /\
  (nodes_dict c <> ∅ ->
     solve_circuit c gamma
     = newton_loop 2002 gamma
         (mk_state c (zeros (Z.to_nat (n_matrix_size c))) 0 0%Z)).
Proof.
  intros Hb. destruct (built_inv c Hb) as (k & g & Hinv & Hel & _).
  pose proof (get_MMFs_number_nonneg c) as Hm.
  pose proof (get_nodes_number_inv _ _ _ Hinv) as Hn.
  pose proof (ni_size _ _ _ Hinv) as Hsz.
  assert (Hiff : (n_matrix_size c < 0)%Z <-> nodes_dict c = ∅).
  { unfold n_matrix_size. rewrite Hn. split.
    - intros Hlt. apply map_size_empty_iff. rewrite Hsz. destruct g; lia.
    - intros He. rewrite He, map_size_empty in Hsz.
      assert (Hemp : elems c = []).
      { destruct (elems c) as [| e es] eqn:Ees; [reflexivity |].
        destruct (Hel e) as [[v Hv] _]; [left |].
        rewrite He, lookup_empty in Hv. discriminate. }
      assert (Hz : get_MMFs_number c = 0%Z).
      { unfold get_MMFs_number. rewrite Hemp. reflexivity. }
      rewrite Hz. destruct g; lia. }
  split; [exact Hiff |]. split.
  - intros He. split.
    + destruct (elems c) as [| e es] eqn:Ees; [reflexivity |].
      destruct (Hel e) as [[v Hv] _]; [left |].
      rewrite He, lookup_empty in Hv. discriminate.
    + apply Hiff in He.
      destruct (solve_circuit_cases c gamma) as [[_ ->] | [? _]]; [reflexivity | lia].
  - intros Hne.
    destruct (solve_circuit_cases c gamma) as [[Hlt _] | [_ ->]]; [| reflexivity].
    apply Hiff in Hlt. contradiction.
Qed.

Lemma solve_circuit_needs_a_node_witness :
  solve_circuit (init "EMC") 1 = mk_run [] (Raised ValueError).
Proof.
  apply (solve_circuit_needs_a_node (init "EMC") 1 (built_init "EMC")). reflexivity.
Defined.

End solver_preconditions.

(** ** Field quantities of a permeance *)

Section permeance_fields.

Lemma terminal_in_range (x : list R) n :
  (n <= Z.of_nat (length x))%Z ->
  (if (0 <=? n - 1)%Z then vget x (n - 1) else Ok 0) = Ok (potential x n).
Proof.
  intros Hn. unfold potential.
  destruct (Z.leb_spec 0 (n - 1)); destruct (Z.leb_spec n 0); try lia.
  - destruct (vget_in_range x (n - 1)) as (a & -> & Ha); [lia |].
    rewrite Ha. reflexivity.
  - reflexivity.
Qed.

Lemma terminal_out_of_range (x : list R) n :
  (Z.of_nat (length x) < n)%Z ->
  (if (0 <=? n - 1)%Z then vget x (n - 1) else Ok 0) = Raise IndexError.
Proof.
  intros Hn. destruct (Z.leb_spec 0 (n - 1)); [| lia].
  unfold vget, np_index.
  destruct (Z.leb_spec 0 (n - 1)); [| lia].
  destruct (Z.ltb_spec (n - 1) (Z.of_nat (length x))); [lia | reflexivity].
Qed.

Lemma MMF_in_range p x :
  (Permeance.n1 p <= Z.of_nat (length x))%Z ->
  (Permeance.n2 p <= Z.of_nat (length x))%Z ->
  Permeance.MMF p x
  = Ok (potential x (Permeance.n1 p) - potential x (Permeance.n2 p)).
Proof.
  intros H1 H2. unfold Permeance.MMF. cbv zeta.
  rewrite (terminal_in_range x _ H1). simpl.
  rewrite (terminal_in_range x _ H2). reflexivity.
Qed.

(** X11. [MMF] is the potential of the first terminal minus that of the
    second, a terminal numbered 0 or below counting as ground with
    potential 0.  It raises [IndexError] exactly when a terminal is
    numbered beyond the estimate.  Exchanging the terminals changes
    the sign. *)
Theorem MMF_is_the_potential_difference p x :
  (((Permeance.n1 p <= Z.of_nat (length x))%Z /\
    (Permeance.n2 p <= Z.of_nat (length x))%Z) <->
   Permeance.MMF p x
   = Ok (potential x (Permeance.n1 p) - potential x (Permeance.n2 p))) /\
  (((Z.of_nat (length x) < Permeance.n1 p)%Z \/
    (Z.of_nat (length x) < Permeance.n2 p)%Z) <->
   Permeance.MMF p x = Raise IndexError) /\
  (forall m, Permeance.MMF p x = Ok m -> Permeance.MMF (reversed p) x = Ok (- m)).
Proof.
  assert (Hout : (Z.of_nat (length x) < Permeance.n1 p)%Z \/
                 (Z.of_nat (length x) < Permeance.n2 p)%Z ->
                 Permeance.MMF p x = Raise IndexError).
  { intros Hor. unfold Permeance.MMF. cbv zeta.
    destruct (Z.le_gt_cases (Permeance.n1 p) (Z.of_nat (length x))) as [H1 | H1].
    - rewrite (terminal_in_range x _ H1). simpl.
      rewrite (terminal_out_of_range x (Permeance.n2 p)) by lia. reflexivity.
    - rewrite (terminal_out_of_range x (Permeance.n1 p)) by lia. reflexivity. }
  split; [| split].
  - split; [intros [H1 H2]; apply MMF_in_range; assumption |].
    intros E.
    destruct (Z.le_gt_cases (Permeance.n1 p) (Z.of_nat (length x))) as [H1 | H1];
      destruct (Z.le_gt_cases (Permeance.n2 p) (Z.of_nat (length x))) as [H2 | H2];
      [auto | | |]; rewrite Hout in E by lia; discriminate.
  - split; [exact Hout |].
    intros E.
    destruct (Z.le_gt_cases (Permeance.n1 p) (Z.of_nat (length x))) as [H1 | H1];
      destruct (Z.le_gt_cases (Permeance.n2 p) (Z.of_nat (length x))) as [H2 | H2];
      [| auto | auto | auto].
    rewrite MMF_in_range in E by assumption. discriminate.
  - intros m E.
    destruct (Z.le_gt_cases (Permeance.n1 p) (Z.of_nat (length x))) as [H1 | H1];
      destruct (Z.le_gt_cases (Permeance.n2 p) (Z.of_nat (length x))) as [H2 | H2];
      [| rewrite Hout in E by lia; discriminate ..].
    rewrite MMF_in_range in E by assumption. injection E as <-.
    rewrite (MMF_in_range (reversed p)) by (simpl; assumption).
    simpl. f_equal. lra.
Qed.

Lemma MMF_is_the_potential_difference_witness :
  Permeance.MMF (Permeance.init "R" 2 1 1 1 1 1 None) [3; 5] = Ok (5 - 3) /\
  Permeance.MMF (Permeance.init "R" 3 1 1 1 1 1 None) [3; 5] = Raise IndexError.
Proof.
  split.
  - apply (MMF_is_the_potential_difference (Permeance.init "R" 2 1 1 1 1 1 None) [3; 5]).
    simpl. lia.
  - apply (MMF_is_the_potential_difference (Permeance.init "R" 3 1 1 1 1 1 None) [3; 5]).
    simpl. lia.
Defined.

Lemma MMF_raises_IndexError p x e : Permeance.MMF p x = Raise e -> e = IndexError.
Proof.
  unfold Permeance.MMF. cbv zeta. intros H.
  destruct (Z.le_gt_cases (Permeance.n1 p) (Z.of_nat (length x))) as [H1 | H1].
  - rewrite (terminal_in_range x _ H1) in H. simpl in H.
    destruct (Z.le_gt_cases (Permeance.n2 p) (Z.of_nat (length x))) as [H2 | H2].
    + rewrite (terminal_in_range x _ H2) in H. discriminate.
    + rewrite (terminal_out_of_range x (Permeance.n2 p)) in H by lia.
      simpl in H. congruence.
  - rewrite (terminal_out_of_range x (Permeance.n1 p)) in H by lia.
    simpl in H. congruence.
Qed.

(** X12. The field quantities of a permeance with a path length other than
    zero agree with each other.  When [H] returns the field strength
    [h], the flux density [B] is [mu0 * mur * h], the flux [PHI] is
    that density times the cross section [w * d] scaled by 1e-6, and
    [h] is the potential difference over the path length times 1000.
    [H] raises only the [IndexError] of a terminal beyond the estimate,
    and then [MMF], [B] and [PHI] raise it as well. *)
Theorem flux_follows_field_strength p x :
  Permeance.l p <> 0 ->
  (forall h, Permeance.H p x = Ok h ->
     Permeance.B p x = Ok (const.mu0 * Permeance.mur p * h) /\
     Permeance.PHI p x
     = Ok (const.mu0 * Permeance.mur p * h * (Permeance.w p * Permeance.d p) * 1e-6) /\
     exists m, Permeance.MMF p x = Ok m /\ h = m / Permeance.l p * 1000) /\
  (forall e, Permeance.H p x = Raise e ->
     e = IndexError /\ Permeance.MMF p x = Raise e /\
     Permeance.B p x = Raise e /\ Permeance.PHI p x = Raise e).
Proof.
  intros Hl. pose proof (MMF_raises_IndexError p x) as Hidx.
  unfold Permeance.H, Permeance.B, Permeance.PHI, Permeance.P.
  destruct (Permeance.MMF p x) as [m | e0]; simpl.
  2:{ split; [discriminate |]. intros e [= <-].
      rewrite (Hidx e0 eq_refl). auto. }
  rewrite !safe_div_nz by exact Hl. simpl.
  split; [| discriminate].
  intros h [= <-].
  split; [f_equal; field; exact Hl |].
  split; [f_equal; field; exact Hl |]. eauto.
Qed.

Lemma flux_follows_field_strength_witness :
  Permeance.B (Permeance.init "R" 1 0 2 10 10 1000 None) [3]
  = Ok (const.mu0 * 2 * (3 - 0)) /\
  Permeance.PHI (Permeance.init "R" 3 0 2 10 10 1000 None) [3] = Raise IndexError.
Proof.
  assert (Hl : (1000 : R) <> 0) by lra.
  split.
  - pose proof (flux_follows_field_strength (Permeance.init "R" 1 0 2 10 10 1000 None) [3] Hl)
      as (H & _).
    destruct (H (3 - 0)) as (HB & _); [| exact HB].
    unfold Permeance.H.
    rewrite MMF_in_range by (simpl; lia). simpl.
    rewrite safe_div_nz by lra.
    simpl. f_equal. unfold potential. simpl. lra.
  - pose proof (flux_follows_field_strength (Permeance.init "R" 3 0 2 10 10 1000 None) [3] Hl)
      as (_ & H).
    apply (H IndexError). unfold Permeance.H, Permeance.MMF. simpl.
    unfold vget, np_index. simpl. reflexivity.
Defined.

End permeance_fields.

(** ** The run over the core circuit *)

Section core_circuit_converges.

(** A pass from the estimate [3 - 1/q]: the increment leads to
    [3 - 1/q'] with [q' = 4 q - 1], and the tested value is [1/q']. *)
Lemma core_step m md q q' iter :
  1 <= q -> q' = 4 * q - 1 -> (iter =? 0)%Z = false ->
  newton_pass 1 (mk_state (core m md) [3 - 1 / q] (norm [3 - 1 / q]) iter) =
    Ok (mk_state (core (core_mur (3 - 1 / q)) (core_mur_d (3 - 1 / q)))
          [3 - 1 / q'] (norm [3 - 1 / q']) iter,
        mk_log iter [[core_dA (3 - 1 / q)]] [core_b (3 - 1 / q)]
          [1 / q - 1 / q'] [3 - 1 / q'] (Some (1 / q'))).
Proof.
  intros Hq Hq' Hit.
  assert (Hv : 0 < 3 - 1 / q).
  { assert (1 / q <= 1); [| lra].
    apply Rmult_le_reg_r with q; [lra |]. unfold Rdiv. rewrite Rmult_assoc, Rinv_l by lra. lra. }
  assert (Hm : core_mur (3 - 1 / q) = (3 - 1 / q + 1) / (3 - 1 / q))
    by (apply core_mur_pos; exact Hv).
  assert (Hm0 : core_mur (3 - 1 / q) <> 0).
  { rewrite Hm. unfold Rdiv at 1. apply Rmult_integral_contrapositive.
    split; [lra | apply Rinv_neq_0_compat; lra]. }
  assert (Hdx : core_dx (3 - 1 / q) = 1 / q - 1 / q').
  { rewrite core_dx_value by exact Hm0. rewrite Hm. subst q'.
    field; repeat split; lra. }
  pose proof (core_pass 1 m md (3 - 1 / q) (norm [3 - 1 / q]) iter
                (core_dA_nz _ Hm0)) as P.
  cbv zeta in P. rewrite Hit in P. rewrite P. clear P.
  rewrite Hdx.
  assert (Hq'1 : 3 <= q') by lra.
  assert (Hx' : 3 - 1 / q + 1 * (1 / q - 1 / q') = 3 - 1 / q') by ring.
  rewrite Hx'.
  assert (Hpos : 0 < 1 / q - 1 / q').
  { subst q'. apply Rlt_0_minus. unfold Rdiv. rewrite !Rmult_1_l.
    apply Rinv_lt_contravar; [| lra]. apply Rmult_lt_0_compat; lra. }
  rewrite (norm_singleton_pos (1 / q - 1 / q')) by lra.
  rewrite (norm_singleton_pos (3 - 1 / q)) by lra.
  rewrite np_div_nz by lra.
  do 3 f_equal. f_equal. subst q'. field. repeat split; lra.
Qed.

End core_circuit_converges.

Section core_circuit_run.

Lemma newton_loop_go_on gamma fuel st st' lg :
  newton_pass gamma st = Ok (st', lg) ->
  np_lt (pl_err lg) 0.001 = false -> (ls_iter st' <= 2000)%Z ->
  newton_loop (S fuel) gamma st
  = mk_run (lg :: trace (newton_loop fuel gamma (next_state st')))
           (out (newton_loop fuel gamma (next_state st'))).
Proof.
  intros Hp Hlt Hit. rewrite newton_loop_S, Hp, Hlt.
  destruct (Z.ltb_spec 2000 (ls_iter st')); [lia | reflexivity].
Qed.

Lemma newton_loop_converged gamma fuel st st' lg :
  newton_pass gamma st = Ok (st', lg) ->
  np_lt (pl_err lg) 0.001 = true ->
  newton_loop (S fuel) gamma st
  = mk_run [lg] (Returned CONVERGED (ls_circ st') (ls_x st')).
Proof. intros Hp Hlt. rewrite newton_loop_S, Hp, Hlt. reflexivity. Qed.

Lemma core_first_pass :
  newton_pass 1 (mk_state (core 1 1) [0] 0 0%Z) =
    Ok (mk_state (core (core_mur 0) (core_mur_d 0)) [3 - 1 / 1] (norm [3 - 1 / 1]) 0%Z,
        core_log0).
Proof.
  destruct core_numbers as (Hm0 & Hd0 & _).
  assert (HA0 : core_dA 0 <> 0) by (apply core_dA_nz; rewrite Hm0; lra).
  pose proof (core_pass 1 1 1 0 0 0%Z HA0) as P. cbv zeta in P.
  change (0 =? 0)%Z with true in P. cbv iota in P. rewrite P.
  rewrite Hd0. replace 2 with (3 - 1 / 1) by lra.
  rewrite (norm_singleton_pos (3 - 1 / 1)) by lra.
  rewrite np_div_nz by lra. unfold core_log0.
  do 3 f_equal. f_equal. field.
Qed.

Lemma core_log_go_on iter q q' :
  2 <= q' <= 1000 -> np_lt (pl_err (core_log iter q q')) 0.001 = false.
Proof.
  intros Hq. simpl. apply np_lt_not_below.
  apply Rmult_le_reg_r with q'; [lra |].
  unfold Rdiv. rewrite Rmult_assoc, Rinv_l by lra. lra.
Qed.

Lemma core_go_on fuel m md q q' iter (r : run) :
  1 <= q -> q' = 4 * q - 1 -> q' <= 1000 -> (1 <= iter <= 2000)%Z ->
  newton_loop fuel 1
    (mk_state (core (core_mur (3 - 1 / q)) (core_mur_d (3 - 1 / q)))
       [3 - 1 / q'] (norm [3 - 1 / q']) (iter + 1)%Z) = r ->
  newton_loop (S fuel) 1 (mk_state (core m md) [3 - 1 / q] (norm [3 - 1 / q]) iter)
  = mk_run (core_log iter q q' :: trace r) (out r).
Proof.
  intros Hq Hq' Hle Hit <-.
  assert (E : (iter =? 0)%Z = false) by (apply Z.eqb_neq; lia).
  rewrite (newton_loop_go_on _ _ _ _ _ (core_step m md q q' iter Hq Hq' E)).
  - reflexivity.
  - apply core_log_go_on. lra.
  - simpl. lia.
Qed.

Lemma core_last_pass fuel m md :
  newton_loop (S fuel) 1 (mk_state (core m md) [3 - 1 / 683] (norm [3 - 1 / 683]) 6%Z)
  = mk_run [core_log 6 683 2731] (Returned CONVERGED core_left core_solution).
Proof.
  rewrite (newton_loop_converged _ _ _ _ _
             (core_step m md 683 2731 6%Z ltac:(lra) ltac:(lra) eq_refl)).
  - reflexivity.
  - simpl. unfold np_lt.
    match goal with |- context [Rlt_dec ?a ?b] => destruct (Rlt_dec a b) as [_ | H] end;
      [reflexivity | exfalso; apply H; lra].
Qed.

Lemma core_from_5 fuel m md :
  newton_loop (S (S fuel)) 1
    (mk_state (core m md) [3 - 1 / 171] (norm [3 - 1 / 171]) 5%Z)
  = mk_run [core_log 5 171 683; core_log 6 683 2731]
      (Returned CONVERGED core_left core_solution).
Proof.
  rewrite (core_go_on _ m md 171 683 5%Z _ ltac:(lra) ltac:(lra) ltac:(lra) ltac:(lia)
             (core_last_pass fuel _ _)).
  reflexivity.
Qed.

Lemma core_from_4 fuel m md :
  newton_loop (S (S (S fuel))) 1
    (mk_state (core m md) [3 - 1 / 43] (norm [3 - 1 / 43]) 4%Z)
  = mk_run [core_log 4 43 171; core_log 5 171 683; core_log 6 683 2731]
      (Returned CONVERGED core_left core_solution).
Proof.
  rewrite (core_go_on _ m md 43 171 4%Z _ ltac:(lra) ltac:(lra) ltac:(lra) ltac:(lia)
             (core_from_5 fuel _ _)).
  reflexivity.
Qed.

Lemma core_from_3 fuel m md :
  newton_loop (S (S (S (S fuel)))) 1
    (mk_state (core m md) [3 - 1 / 11] (norm [3 - 1 / 11]) 3%Z)
  = mk_run [core_log 3 11 43; core_log 4 43 171; core_log 5 171 683;
            core_log 6 683 2731]
      (Returned CONVERGED core_left core_solution).
Proof.
  rewrite (core_go_on _ m md 11 43 3%Z _ ltac:(lra) ltac:(lra) ltac:(lra) ltac:(lia)
             (core_from_4 fuel _ _)).
  reflexivity.
Qed.

Lemma core_from_2 fuel m md :
  newton_loop (S (S (S (S (S fuel))))) 1
    (mk_state (core m md) [3 - 1 / 3] (norm [3 - 1 / 3]) 2%Z)
  = mk_run [core_log 2 3 11; core_log 3 11 43; core_log 4 43 171;
            core_log 5 171 683; core_log 6 683 2731]
      (Returned CONVERGED core_left core_solution).
Proof.
  rewrite (core_go_on _ m md 3 11 2%Z _ ltac:(lra) ltac:(lra) ltac:(lra) ltac:(lia)
             (core_from_3 fuel _ _)).
  reflexivity.
Qed.

Lemma core_from_1 fuel m md :
  newton_loop (S (S (S (S (S (S fuel)))))) 1
    (mk_state (core m md) [3 - 1 / 1] (norm [3 - 1 / 1]) 1%Z)
  = mk_run [core_log 1 1 3; core_log 2 3 11; core_log 3 11 43; core_log 4 43 171;
            core_log 5 171 683; core_log 6 683 2731]
      (Returned CONVERGED core_left core_solution).
Proof.
  rewrite (core_go_on _ m md 1 3 1%Z _ ltac:(lra) ltac:(lra) ltac:(lra) ltac:(lia)
             (core_from_2 fuel _ _)).
  reflexivity.
Qed.

Lemma core_from_0 fuel :
  newton_loop (S (S (S (S (S (S (S fuel))))))) 1 (mk_state (core 1 1) [0] 0 0%Z)
  = mk_run [core_log0; core_log 1 1 3; core_log 2 3 11; core_log 3 11 43;
            core_log 4 43 171; core_log 5 171 683; core_log 6 683 2731]
      (Returned CONVERGED core_left core_solution).
Proof.
  rewrite (newton_loop_go_on _ _ _ _ _ core_first_pass).
  - unfold next_state. cbn [ls_circ ls_x ls_norm ls_iter].
    change (0 + 1)%Z with 1%Z. rewrite core_from_1. reflexivity.
  - apply np_lt_not_below. lra.
  - simpl. lia.
Qed.

(** The run over the core circuit with [gamma = 1]: seven passes, with
    estimates 2, 8/3, 32/11, ... that approach 3, then CONVERGED. *)
Lemma core_run :
  solve_circuit core_circuit 1
  = mk_run [core_log0; core_log 1 1 3; core_log 2 3 11; core_log 3 11 43;
            core_log 4 43 171; core_log 5 171 683; core_log 6 683 2731]
      (Returned CONVERGED core_left core_solution).
Proof.
  destruct (solve_circuit_cases core_circuit 1) as [[Hneg _] | [_ ->]].
  - rewrite core_circuit_eq, core_matrix_size in Hneg. lia.
  - rewrite core_circuit_eq, core_matrix_size.
    change (zeros (Z.to_nat 1)) with [0]. apply (core_from_0 1995).
Qed.

End core_circuit_run.

(** ** The permeabilities the solver leaves in the circuit *)

Section refresh_history.

Lemma update_elem_models c c' x e :
  models c' = models c -> update_elem c' x e = update_elem c x e.
Proof. intros E. unfold update_elem. rewrite E. reflexivity. Qed.

(** Refreshing an element that was refreshed before gives what
    refreshing the original gives. *)
Lemma update_elem_again c x y e e' :
  update_elem c x e = Ok e' -> update_elem c y e' = update_elem c y e.
Proof.
  destruct e as [p | s | s | s]; simpl; try (intros [= <-]; reflexivity).
  destruct (Permeance.model_label p) as [label |] eqn:El;
    [| intros [= <-]; simpl; rewrite El; reflexivity].
  destruct (models c !! label) as [model |] eqn:Em; [| discriminate].
  intros H. bind_inv H. bind_inv H. bind_inv H. injection H as <-.
  simpl. rewrite El, Em. reflexivity.
Qed.

Lemma mapM_update_again c x y es es' :
  mapM (update_elem c x) es = Ok es' ->
  mapM (update_elem c y) es' = mapM (update_elem c y) es.
Proof.
  revert es'. induction es as [| e es IH]; intros es' H; simpl in H.
  - injection H as <-. reflexivity.
  - bind_inv H. bind_inv H. injection H as <-. simpl.
    rewrite (update_elem_again _ _ _ _ _ E), (IH _ E0). reflexivity.
Qed.

Lemma update_mur_again c x c1 y :
  update_mur c x = Ok c1 -> update_mur c1 y = update_mur c y.
Proof.
  unfold update_mur. intros H. bind_inv H. injection H as <-. simpl.
  change (update_elem (set_elems c a) y) with (update_elem c y).
  rewrite (mapM_update_again _ _ _ _ _ E).
  destruct (mapM (update_elem c y) (elems c)); reflexivity.
Qed.

Lemma make_system_matrix_again c x c1 y :
  update_mur c x = Ok c1 -> make_system_matrix c1 y = make_system_matrix c y.
Proof.
  intros H. unfold make_system_matrix. rewrite (update_mur_again _ _ _ y H). reflexivity.
Qed.

Lemma newton_loop_same_system fuel gamma c c1 x nrm iter :
  (forall y, make_system_matrix c1 y = make_system_matrix c y) ->
  newton_loop fuel gamma (mk_state c1 x nrm iter)
  = newton_loop fuel gamma (mk_state c x nrm iter).
Proof.
  intros H. destruct fuel as [| fuel]; [reflexivity |].
  rewrite !newton_loop_S. unfold newton_pass. simpl. rewrite H. reflexivity.
Qed.

Lemma mmf_sources_refreshed c x es :
  mmf_sources (map (refreshed c x) es) = mmf_sources es.
Proof.
  induction es as [| e es IH]; [reflexivity |].
  destruct e as [p | s | s | s]; simpl; try (rewrite IH; reflexivity).
  destruct (Permeance.model_label p) as [label |]; [| exact IH].
  destruct (models c !! label); exact IH.
Qed.

Lemma update_mur_size c x c1 :
  update_mur c x = Ok c1 ->
  nodes_dict c1 = nodes_dict c /\ models c1 = models c /\
  title c1 = title c /\ n_matrix_size c1 = n_matrix_size c.
Proof.
  intros ->%update_mur_refreshed. repeat split.
  unfold n_matrix_size. rewrite !get_MMFs_number_count. simpl.
  rewrite mmf_sources_refreshed. reflexivity.
Qed.

Lemma solve_circuit_again c x c1 gamma :
  update_mur c x = Ok c1 -> solve_circuit c1 gamma = solve_circuit c gamma.
Proof.
  intros H. destruct (update_mur_size _ _ _ H) as (_ & _ & _ & Hn).
  unfold solve_circuit. fold (n_matrix_size c1). fold (n_matrix_size c). rewrite Hn.
  destruct (n_matrix_size c <? 0)%Z; [reflexivity |].
  apply newton_loop_same_system. intros y. eapply make_system_matrix_again, H.
Qed.

(** X13. The refresh of the permeabilities keeps no history: what it
    computes from an estimate does not depend on the permeabilities a
    refresh left before.  So refreshing twice from the same estimate
    changes nothing the second time, the assembled system is the same,
    and the solver makes the same passes on the refreshed circuit as on
    the original. *)
Theorem refresh_keeps_no_history c x c1 :
  update_mur c x = Ok c1 ->
  (forall y, update_mur c1 y = update_mur c y) /\
  update_mur c1 x = Ok c1 /\
  (forall y, make_system_matrix c1 y = make_system_matrix c y) /\
  (forall gamma, solve_circuit c1 gamma = solve_circuit c gamma) /\
  nodes_dict c1 = nodes_dict c /\ models c1 = models c /\
  map elem_n1 (elems c1) = map elem_n1 (elems c) /\
  map elem_n2 (elems c1) = map elem_n2 (elems c) /\
  map elem_part_id (elems c1) = map elem_part_id (elems c).
Proof.
  intros H.
  split; [intros y; apply (update_mur_again _ _ _ y H) |].
  split; [rewrite (update_mur_again _ _ _ x H); exact H |].
  split; [intros y; apply (make_system_matrix_again _ _ _ y H) |].
  split; [intros gamma; apply (solve_circuit_again _ _ _ gamma H) |].
  destruct (update_mur_size _ _ _ H) as (Hn & Hm & _).
  split; [exact Hn |]. split; [exact Hm |].
  apply update_mur_refreshed in H as ->. simpl. rewrite !map_map.
  repeat split; apply map_ext; intros [p | s | s | s]; simpl; try reflexivity;
    (destruct (Permeance.model_label p) as [label |]; [| reflexivity]);
    destruct (models c !! label); reflexivity.
Qed.

Lemma refresh_keeps_no_history_witness :
  update_mur (core 2 2) [1] = Ok (core 2 2) /\
  solve_circuit (core 2 2) 1 = solve_circuit (core 1 1) 1.
Proof.
  assert (E : update_mur (core 1 1) [0] = Ok (core 2 2)).
  { rewrite core_update. rewrite core_mur_0. f_equal. f_equal.
    rewrite core_mur_d_eq, core_mur_0. reflexivity. }
  pose proof (refresh_keeps_no_history (core 1 1) [0] (core 2 2) E)
    as (H1 & _ & _ & H4 & _).
  split; [| apply H4].
  rewrite H1. rewrite core_update.
  assert (E1 : core_mur 1 = 2) by (rewrite core_mur_pos by lra; lra).
  rewrite core_mur_d_eq, E1. reflexivity.
Defined.

End refresh_history.

(** ** How the solver leaves *)

Section solver_exit.
Variable gamma : R.

Lemma make_system_matrix_update c x c' J b :
  make_system_matrix c x = Ok (c', (J, b)) -> update_mur c x = Ok c'.
Proof.
  unfold make_system_matrix. intros H. bind_inv H. bind_inv H.
  injection H as <- _ _. exact E.
Qed.

(** The value tested after a pass that has [iter = 0] is 1, or
    non-finite when the increment is zero: never below the
    tolerance. *)
Lemma first_pass_err st st' lg :
  newton_pass gamma st = Ok (st', lg) -> ls_iter st = 0%Z ->
  (pl_err lg = Some 1 \/ (pl_err lg = None /\ norm (pl_dx lg) = 0)) /\
  np_lt (pl_err lg) 0.001 = false.
Proof.
  intros (_ & _ & _ & He & _)%newton_pass_Ok Hit.
  rewrite Hit in He. simpl in He. rewrite He. unfold np_div.
  destruct (Req_dec_T (norm (pl_dx lg)) 0) as [Hz | Hz].
  - split; [right; auto | reflexivity].
  - replace (norm (pl_dx lg) / norm (pl_dx lg)) with 1 by (field; exact Hz).
    split; [left; reflexivity |].
    unfold np_lt. destruct (Rlt_dec 1 0.001); [lra | reflexivity].
Qed.

Lemma newton_loop_length fuel st :
  (length (trace (newton_loop fuel gamma st)) <= fuel)%nat.
Proof.
  revert st. induction fuel as [| fuel IH]; intros st; [simpl; lia |].
  rewrite newton_loop_S.
  destruct (newton_pass gamma st) as [[st' lg] | e]; [| simpl; lia].
  repeat case_match; simpl; try lia.
  specialize (IH (next_state st')). lia.
Qed.

(** A call that returns leaves the circuit refreshed at the estimate
    its last pass started from. *)
Lemma newton_loop_returned c fuel st s c' x :
  (forall y, update_mur (ls_circ st) y = update_mur c y) ->
  out (newton_loop fuel gamma st) = Returned s c' x ->
  exists tr lg,
    trace (newton_loop fuel gamma st) = tr ++ [lg] /\ x = pl_x lg /\
    update_mur c (match last tr with Some l => pl_x l | None => ls_x st end) = Ok c'.
Proof.
  revert st. induction fuel as [| fuel IH]; intros st Hc; [discriminate |].
  rewrite newton_loop_S.
  destruct (newton_pass gamma st) as [[st' lg] | e] eqn:Ep; [| discriminate].
  pose proof Ep as (Hm & _ & _ & _ & _ & Hx & _)%newton_pass_Ok.
  apply make_system_matrix_update in Hm. rewrite Hc in Hm.
  destruct (np_lt (pl_err lg) 0.001).
  { simpl. intros [= <- <- <-]. exists [], lg. auto. }
  destruct (2000 <? ls_iter st')%Z.
  { simpl. intros [= <- <- <-]. exists [], lg. auto. }
  simpl. intros Hout.
  destruct (IH (next_state st')) as (tr & lg' & Ht & -> & Hu).
  { intros y. simpl. apply (update_mur_again _ _ _ y Hm). }
  { exact Hout. }
  exists (lg :: tr), lg'. rewrite Ht. split; [reflexivity |]. split; [reflexivity |].
  destruct tr as [| l0 tr]; simpl in *.
  - rewrite <- Hx. exact Hu.
  - destruct (last (l0 :: tr)) eqn:El; [exact Hu |].
    apply last_None in El. discriminate.
Qed.

Lemma newton_loop_two_passes c fuel st s c' x :
  ls_iter st = 0%Z ->
  (forall y, update_mur (ls_circ st) y = update_mur c y) ->
  out (newton_loop fuel gamma st) = Returned s c' x ->
  (2 <= length (trace (newton_loop fuel gamma st)))%nat.
Proof.
  intros Hit Hc. destruct fuel as [| fuel]; [discriminate |].
  rewrite newton_loop_S.
  destruct (newton_pass gamma st) as [[st' lg] | e] eqn:Ep; [| discriminate].
  destruct (first_pass_err _ _ _ Ep Hit) as [_ Hlt]. rewrite Hlt.
  pose proof Ep as (Hm & _ & _ & _ & _ & _ & _ & Hi)%newton_pass_Ok.
  apply make_system_matrix_update in Hm. rewrite Hc in Hm.
  destruct (Z.ltb_spec 2000 (ls_iter st')); [lia |].
  simpl. intros Hout.
  destruct (newton_loop_returned c fuel (next_state st') s c' x)
    as (tr & lg' & -> & _); [| exact Hout |].
  - intros y. simpl. apply (update_mur_again _ _ _ y Hm).
  - rewrite length_app. simpl. lia.
Qed.

Lemma solve_circuit_pass_bounds c s c' x :
  out (solve_circuit c gamma) = Returned s c' x ->
  (2 <= length (trace (solve_circuit c gamma)) <= 2002)%nat.
Proof.
  destruct (solve_circuit_cases c gamma) as [[_ ->] | [_ ->]]; [discriminate |].
  intros Hout. split; [| apply newton_loop_length].
  apply (newton_loop_two_passes c _ _ s c' x); [reflexivity | reflexivity | exact Hout].
Qed.

(** X14. [solve_circuit] never returns after a single pass: the first pass
    tests the value 1, or a non-finite value when its increment is
    zero, and neither is below the tolerance.  A call that returns
    has made between 2 and 2002 passes. *)
Theorem solve_circuit_makes_two_passes c :
  let r := solve_circuit c gamma in
  (forall lg, trace r !! 0%nat = Some lg ->
     np_lt (pl_err lg) 0.001 = false /\
     (pl_err lg = Some 1 \/ (pl_err lg = None /\ norm (pl_dx lg) = 0))) /\
  (forall s c' x, out r = Returned s c' x ->
     (2 <= length (trace r) <= 2002)%nat).
Proof.
  intros r. subst r. split.
  - destruct (solve_circuit_cases c gamma) as [[_ ->] | [_ ->]]; [discriminate |].
    intros lg [st' Hp]%newton_loop_head.
    destruct (first_pass_err _ _ _ Hp) as [H1 H2]; [reflexivity |]. auto.
  - intros s c' x. apply solve_circuit_pass_bounds.
Qed.

(** X15. When [solve_circuit] returns, the permeabilities it leaves in the
    circuit are those of the estimate before the last update, not
    those of the solution it returns: the circuit is the caller's
    circuit refreshed at the iterate of the last pass but one.  Nodes
    and models are the caller's.  Solving again on the circuit left
    behind repeats the same passes. *)
Theorem returned_circuit_is_one_update_behind c s c' x :
  out (solve_circuit c gamma) = Returned s c' x ->
  (exists tr lg_prev lg_last,
     trace (solve_circuit c gamma) = tr ++ [lg_prev; lg_last] /\
     x = pl_x lg_last /\
     update_mur c (pl_x lg_prev) = Ok c') /\
  nodes_dict c' = nodes_dict c /\ models c' = models c /\
  length (elems c') = length (elems c) /\
  solve_circuit c' gamma = solve_circuit c gamma.
Proof.
  intros Hout.
  destruct (solve_circuit_pass_bounds c s c' x Hout) as [Hlen _].
  assert (Hex : exists tr lg_prev lg_last,
            trace (solve_circuit c gamma) = tr ++ [lg_prev; lg_last] /\
            x = pl_x lg_last /\ update_mur c (pl_x lg_prev) = Ok c').
  { destruct (solve_circuit_cases c gamma) as [[_ E] | [_ E]]; rewrite E in *;
      [discriminate |].
    destruct (newton_loop_returned c 2002
                (mk_state c (zeros (Z.to_nat (n_matrix_size c))) 0 0%Z) s c' x)
      as (tr & lg & Ht & Hx & Hu); [reflexivity | exact Hout |].
    rewrite Ht in *. rewrite length_app in Hlen. simpl in Hlen.
    destruct (last tr) as [lp |] eqn:El.
    - apply last_Some in El as [tr' ->].
      exists tr', lp, lg. rewrite <- app_assoc. auto.
    - apply last_None in El as ->. simpl in Hlen. lia. }
  split; [exact Hex |].
  destruct Hex as (tr & lp & lg & _ & _ & Hu).
  destruct (update_mur_size _ _ _ Hu) as (Hn & Hm & _).
  split; [exact Hn |]. split; [exact Hm |].
  split; [| apply (solve_circuit_again _ _ _ gamma Hu)].
  apply update_mur_refreshed in Hu as ->. simpl. apply length_map.
Qed.

End solver_exit.

Section solver_exit_examples.

Lemma solve_circuit_makes_two_passes_witness :
  (2 <= length (trace (solve_circuit (gap_circuit 10000) 1)) <= 2002)%nat.
Proof.
  destruct gap_run as (lg0 & lg1 & Hrun & _).
  apply (proj2 (solve_circuit_makes_two_passes 1 (gap_circuit 10000))
           CONVERGED (gap_circuit 10000) (pl_dx lg0)).
  rewrite Hrun. reflexivity.
Defined.

Lemma core_left_eq : core_left = core (2731 / 2048) (2731 / 2048).
Proof.
  unfold core_left. rewrite core_mur_d_eq, core_mur_pos by lra.
  f_equal; field.
Qed.

Lemma core_update_at_solution :
  update_mur core_circuit core_solution = Ok (core (10923 / 8192) (10923 / 8192)).
Proof.
  rewrite core_circuit_eq. unfold core_solution. rewrite core_update.
  rewrite core_mur_d_eq, core_mur_pos by lra.
  do 2 f_equal; field.
Qed.

(** At the core circuit with [gamma = 1] the call returns after seven
    passes with the estimate [3 - 1/2731].  The circuit it leaves
    holds the permeability 2731/2048 of the estimate [3 - 1/683] the
    last pass started from; a refresh at the returned estimate would
    give 10923/8192. *)
Lemma returned_circuit_is_one_update_behind_witness :
  out (solve_circuit core_circuit 1) = Returned CONVERGED core_left core_solution /\
  (exists tr lg_prev lg_last,
     trace (solve_circuit core_circuit 1) = tr ++ [lg_prev; lg_last] /\
     pl_x lg_prev = [3 - 1 / 683] /\ pl_x lg_last = core_solution /\
     update_mur core_circuit (pl_x lg_prev) = Ok core_left) /\
  core_left = core (2731 / 2048) (2731 / 2048) /\
  update_mur core_circuit core_solution = Ok (core (10923 / 8192) (10923 / 8192)) /\
  update_mur core_circuit core_solution <> Ok core_left /\
  core_left <> core_circuit /\
  solve_circuit core_left 1 = solve_circuit core_circuit 1.
Proof.
  assert (Hout : out (solve_circuit core_circuit 1)
                 = Returned CONVERGED core_left core_solution)
    by (rewrite core_run; reflexivity).
  destruct (returned_circuit_is_one_update_behind 1 core_circuit
              CONVERGED core_left core_solution Hout)
    as ((tr & lp & ll & Ht & Hx & Hu) & _ & _ & _ & Hs).
  split; [exact Hout |].
  split.
  - exists tr, lp, ll. split; [exact Ht |].
    rewrite core_run in Ht. cbn [trace] in Ht.
    change [core_log0; core_log 1 1 3; core_log 2 3 11; core_log 3 11 43;
            core_log 4 43 171; core_log 5 171 683; core_log 6 683 2731]
      with ([core_log0; core_log 1 1 3; core_log 2 3 11; core_log 3 11 43;
             core_log 4 43 171] ++ [core_log 5 171 683; core_log 6 683 2731]) in Ht.
    apply app_inj_2 in Ht as [_ Ht]; [| reflexivity].
    injection Ht as <- <-. auto.
  - split; [exact core_left_eq |].
    split; [exact core_update_at_solution |].
    split; [| split; [| exact Hs]].
    + rewrite core_update_at_solution, core_left_eq. unfold core.
      intros E. injection E as E _. lra.
    + rewrite core_left_eq, core_circuit_eq. unfold core.
      intros E. injection E as E _. lra.
Defined.

End solver_exit_examples.

(** ** Symmetry of the assembled matrices *)

Section symmetry.

Lemma symmetric_zeros2 n : symmetric (zeros2 n n).
Proof.
  assert (Hin : forall i, (i < n)%nat -> zeros2 n n !! i = Some (zeros n)).
  { intros i Hi. apply lookup_replicate_2, Hi. }
  assert (Hout : forall i, ~ (i < n)%nat -> zeros2 n n !! i = None).
  { intros i Hi. apply lookup_replicate_None. lia. }
  assert (Hin' : forall i, (i < n)%nat -> zeros n !! i = Some 0).
  { intros i Hi. apply lookup_replicate_2, Hi. }
  assert (Hout' : forall i, ~ (i < n)%nat -> zeros n !! i = None).
  { intros i Hi. apply lookup_replicate_None. lia. }
  intros i j. unfold entry.
  destruct (decide (i < n)%nat) as [Hi | Hi]; destruct (decide (j < n)%nat) as [Hj | Hj];
    rewrite ?(Hin _ Hi), ?(Hin _ Hj), ?(Hout _ Hi), ?(Hout _ Hj); simpl;
    rewrite ?(Hin' _ Hi), ?(Hin' _ Hj), ?(Hout' _ Hi), ?(Hout' _ Hj); reflexivity.
Qed.

Lemma square_row n (M : list (list R)) k row :
  square n M -> M !! k = Some row -> length row = n.
Proof.
  intros [_ Hrows] Hk. rewrite Forall_forall in Hrows.
  apply Hrows. eapply list_elem_of_lookup_2, Hk.
Qed.

Lemma mset_updated n M i j v M' :
  square n M -> mset M i j v = Ok M' ->
  exists k l, np_index n i = Ok k /\ np_index n j = Ok l /\ updated M' M k l v.
Proof.
  intros Hsq H. pose proof Hsq as [Hlen _]. unfold mset in H.
  rewrite Hlen in H. bind_inv H.
  destruct (M !! a) as [row |] eqn:Erow; [| discriminate].
  unfold vset in H. rewrite (square_row _ _ _ _ Hsq Erow) in H.
  bind_inv H. injection H as <-. bind_inv E0. injection E0 as <-.
  rename a into k, a1 into l.
  exists k, l. split; [exact E |]. split; [exact E1 |].
  apply np_index_Ok in E as Hk. apply np_index_Ok in E1 as Hl.
  intros r c. unfold entry.
  destruct (decide (r = k)) as [-> | Hr].
  - rewrite list_lookup_insert_eq by lia. simpl. rewrite Erow. simpl.
    destruct (decide (c = l)) as [-> | Hc].
    + rewrite list_lookup_insert_eq by (rewrite (square_row _ _ _ _ Hsq Erow); lia).
      rewrite decide_True by auto. reflexivity.
    + rewrite list_lookup_insert_ne by congruence.
      rewrite decide_False by tauto. reflexivity.
  - rewrite list_lookup_insert_ne by congruence.
    rewrite decide_False by tauto. reflexivity.
Qed.

Lemma mget_entry n M i j a :
  square n M -> mget M i j = Ok a ->
  exists k l, np_index n i = Ok k /\ np_index n j = Ok l /\ entry M k l = Some a.
Proof.
  intros Hsq H. pose proof Hsq as [Hlen _]. unfold mget in H.
  rewrite Hlen in H. bind_inv H.
  destruct (M !! a0) as [row |] eqn:Erow; [| discriminate].
  unfold vget in H. rewrite (square_row _ _ _ _ Hsq Erow) in H.
  bind_inv H.
  destruct (row !! a1) as [v |] eqn:Ev; [| discriminate]. injection H as <-.
  exists a0, a1. split; [exact E |]. split; [exact E0 |].
  unfold entry. rewrite Erow. simpl. exact Ev.
Qed.

Lemma add_to_updated n M i j r M' :
  square n M -> add_to M i j r = Ok M' ->
  exists k l a p, np_index n i = Ok k /\ np_index n j = Ok l /\ r = Ok p /\
                  entry M k l = Some a /\ updated M' M k l (a + 1 * p).
Proof.
  intros Hsq H. unfold add_to in H. bind_inv H. bind_inv H.
  destruct (mget_entry _ _ _ _ _ Hsq E) as (k & l & Ek & El & Ha).
  destruct (mset_updated _ _ _ _ _ _ Hsq H) as (k' & l' & Ek' & El' & Hu).
  assert (k' = k) as -> by congruence. assert (l' = l) as -> by congruence.
  exists k, l, a, a0. auto.
Qed.

Lemma sub_from_updated n M i j r M' :
  square n M -> sub_from M i j r = Ok M' ->
  exists k l a p, np_index n i = Ok k /\ np_index n j = Ok l /\ r = Ok p /\
                  entry M k l = Some a /\ updated M' M k l (a - 1 * p).
Proof.
  intros Hsq H. unfold sub_from in H. bind_inv H. bind_inv H.
  destruct (mget_entry _ _ _ _ _ Hsq E) as (k & l & Ek & El & Ha).
  destruct (mset_updated _ _ _ _ _ _ Hsq H) as (k' & l' & Ek' & El' & Hu).
  assert (k' = k) as -> by congruence. assert (l' = l) as -> by congruence.
  exists k, l, a, a0. auto.
Qed.

(** Writing an entry of the diagonal keeps a matrix symmetric. *)
Lemma updated_diag_symmetric M M' k v :
  symmetric M -> updated M' M k k v -> symmetric M'.
Proof.
  intros Hs Hu a b. rewrite (Hu a b), (Hu b a).
  repeat case_decide; try reflexivity; try tauto. apply Hs.
Qed.

(** Writing an entry and then its mirror image with the same value
    keeps a matrix symmetric. *)
Lemma updated_pair_symmetric M M1 M2 k l v1 v2 :
  symmetric M -> updated M1 M k l v1 -> updated M2 M1 l k v2 ->
  (k <> l -> v1 = v2) -> symmetric M2.
Proof.
  intros Hs H1 H2 Hv a b. rewrite (H2 a b), (H2 b a), (H1 a b), (H1 b a).
  repeat case_decide; try reflexivity; try apply Hs;
    try (exfalso; tauto);
    destruct_and?; subst; try tauto;
    f_equal; first [apply Hv | symmetry; apply Hv]; intros Ekl; subst; tauto.
Qed.

Lemma add_to_diag_symmetric n M i r M' :
  square n M -> symmetric M -> add_to M i i r = Ok M' -> symmetric M'.
Proof.
  intros Hsq Hs H.
  destruct (add_to_updated _ _ _ _ _ _ Hsq H) as (k & l & a & p & Ek & El & _ & _ & Hu).
  assert (l = k) as -> by congruence.
  eapply updated_diag_symmetric; eassumption.
Qed.

Lemma sub_from_pair_symmetric n M i j r M1 M2 :
  square n M -> symmetric M ->
  sub_from M i j r = Ok M1 -> sub_from M1 j i r = Ok M2 -> symmetric M2.
Proof.
  intros Hsq Hs H1 H2.
  pose proof (sub_from_square _ _ _ _ _ _ H1 Hsq) as Hsq1.
  destruct (sub_from_updated _ _ _ _ _ _ Hsq H1)
    as (k & l & a & p & Ek & El & Hr & Ha & Hu1).
  destruct (sub_from_updated _ _ _ _ _ _ Hsq1 H2)
    as (l' & k' & a' & p' & El' & Ek' & Hr' & Ha' & Hu2).
  assert (k' = k) as -> by congruence. assert (l' = l) as -> by congruence.
  assert (p' = p) as -> by congruence.
  eapply updated_pair_symmetric; [exact Hs | exact Hu1 | exact Hu2 |].
  intros Hne. rewrite (Hu1 l k), decide_False in Ha' by (intros [? ?]; congruence).
  rewrite <- (Hs k l), Ha in Ha'. injection Ha' as <-. reflexivity.
Qed.

Lemma mset_pair_symmetric n M i j v M1 M2 :
  square n M -> symmetric M ->
  mset M i j v = Ok M1 -> mset M1 j i v = Ok M2 -> symmetric M2.
Proof.
  intros Hsq Hs H1 H2.
  pose proof (mset_square _ _ _ _ _ _ H1 Hsq) as Hsq1.
  destruct (mset_updated _ _ _ _ _ _ Hsq H1) as (k & l & Ek & El & Hu1).
  destruct (mset_updated _ _ _ _ _ _ Hsq1 H2) as (l' & k' & El' & Ek' & Hu2).
  assert (k' = k) as -> by congruence. assert (l' = l) as -> by congruence.
  eapply updated_pair_symmetric; eauto.
Qed.

(** The four writes of an MMF source with both terminals off ground:
    column [idx] in rows [i] and [j], then row [idx] in columns [i]
    and [j]. *)
Lemma mset_cross_symmetric n M i j idx v w M1 M2 M3 M4 :
  square n M -> symmetric M ->
  mset M i idx v = Ok M1 -> mset M1 j idx w = Ok M2 ->
  mset M2 idx i v = Ok M3 -> mset M3 idx j w = Ok M4 -> symmetric M4.
Proof.
  intros Hsq Hs H1 H2 H3 H4.
  pose proof (mset_square _ _ _ _ _ _ H1 Hsq) as Hsq1.
  pose proof (mset_square _ _ _ _ _ _ H2 Hsq1) as Hsq2.
  pose proof (mset_square _ _ _ _ _ _ H3 Hsq2) as Hsq3.
  destruct (mset_updated _ _ _ _ _ _ Hsq H1) as (ki & kx & Ei & Ex & Hu1).
  destruct (mset_updated _ _ _ _ _ _ Hsq1 H2) as (kj & kx2 & Ej & Ex2 & Hu2).
  destruct (mset_updated _ _ _ _ _ _ Hsq2 H3) as (kx3 & ki3 & Ex3 & Ei3 & Hu3).
  destruct (mset_updated _ _ _ _ _ _ Hsq3 H4) as (kx4 & kj4 & Ex4 & Ej4 & Hu4).
  assert (kx2 = kx) as -> by congruence. assert (kx3 = kx) as -> by congruence.
  assert (kx4 = kx) as -> by congruence. assert (ki3 = ki) as -> by congruence.
  assert (kj4 = kj) as -> by congruence.
  intros a b.
  rewrite (Hu4 a b), (Hu4 b a), (Hu3 a b), (Hu3 b a),
    (Hu2 a b), (Hu2 b a), (Hu1 a b), (Hu1 b a).
  repeat case_decide; try reflexivity; try apply Hs;
    destruct_and?; subst; try reflexivity; exfalso; tauto.
Qed.

Ltac unbind :=
  repeat match goal with
    | H : Ok _ = Ok _ |- _ => inversion H; subst; clear H
    | H : (_ ≫= _) = Ok _ |- _ => bind_inv H
    end.

Lemma diagonal_stamp_symmetric n s s' (t : bool) i P dP :
  symmetric_system n s ->
  (if t then
     A ← add_to (sA s) i i P; dA ← add_to (sdA s) i i dP; Ok (mk_sys A dA (sb s))
   else Ok s) = Ok s' ->
  symmetric_system n s'.
Proof.
  intros Hs H. destruct t; [| injection H as <-; exact Hs].
  destruct Hs as ((HA & HdA & Hb) & HsA & HsdA). unbind.
  split; [split; [| split] |]; simpl.
  - eapply add_to_square; eassumption.
  - eapply add_to_square; eassumption.
  - first [assumption | reflexivity].
  - split; [eapply (add_to_diag_symmetric _ (sA s)) | eapply (add_to_diag_symmetric _ (sdA s))];
      eassumption.
Qed.

Lemma mutual_stamp_symmetric n s s' (t : bool) i j P dP :
  symmetric_system n s ->
  (if t then
     A ← sub_from (sA s) i j P; dA ← sub_from (sdA s) i j dP;
     A ← sub_from A j i P; dA ← sub_from dA j i dP;
     Ok (mk_sys A dA (sb s))
   else Ok s) = Ok s' ->
  symmetric_system n s'.
Proof.
  intros Hs H. destruct t; [| injection H as <-; exact Hs].
  destruct Hs as ((HA & HdA & Hb) & HsA & HsdA). unbind.
  split; [split; [| split] |]; simpl.
  - eapply sub_from_square; [eassumption |]. eapply sub_from_square; eassumption.
  - eapply sub_from_square; [eassumption |]. eapply sub_from_square; eassumption.
  - first [assumption | reflexivity].
  - split; [eapply (sub_from_pair_symmetric _ (sA s)) | eapply (sub_from_pair_symmetric _ (sdA s))];
      eassumption.
Qed.

Lemma stamp_elem_symmetric n e s s' :
  symmetric_system n s -> stamp_elem e s = Ok s' -> symmetric_system n s'.
Proof.
  intros Hs H. pose proof Hs as (Hsh & HsA & HsdA).
  pose proof (stamp_elem_shaped _ _ _ _ H Hsh) as Hsh'.
  destruct e as [p | src | src | src]; simpl in H.
  - bind_inv H. bind_inv H.
    apply (diagonal_stamp_symmetric n) in E; [| exact Hs].
    apply (diagonal_stamp_symmetric n) in E0; [| exact E].
    apply (mutual_stamp_symmetric n) in H; [| exact E0]. exact H.
  - injection H as <-. exact Hs.
  - split; [exact Hsh' |].
    bind_inv H.
    assert (E1 : sA a = sA s /\ sdA a = sdA s).
    { destruct (0 <=? PHISource.n1 src - 1)%Z; unbind; auto. }
    assert (E2 : sA s' = sA a /\ sdA s' = sdA a).
    { destruct (0 <=? PHISource.n2 src - 1)%Z; unbind; auto. }
    destruct E1 as [E1 E1'], E2 as [E2 E2']. rewrite E2, E2', E1, E1'. auto.
  - injection H as <-. exact Hs.
Qed.

Lemma stamp_mmf_symmetric n e idx s idx' s' :
  symmetric_system n s -> stamp_mmf e (idx, s) = Ok (idx', s') ->
  symmetric_system n s'.
Proof.
  intros Hs H. pose proof Hs as ((HA & HdA & Hb) & HsA & HsdA).
  pose proof (stamp_mmf_shaped _ _ _ _ _ _ H (conj HA (conj HdA Hb))) as Hsh'.
  split; [exact Hsh' |].
  destruct e as [p | src | src | src]; simpl in H;
    try (injection H as <- <-; auto; fail).
  destruct (0 <=? MMFSource.n1 src - 1)%Z; destruct (0 <=? MMFSource.n2 src - 1)%Z;
    simpl in H; unbind; simpl.
  - split; [eapply (mset_cross_symmetric _ (sA s)) | eapply (mset_cross_symmetric _ (sdA s))];
      eassumption.
  - split; [eapply (mset_pair_symmetric _ (sA s)) | eapply (mset_pair_symmetric _ (sdA s))];
      eassumption.
  - split; [eapply (mset_pair_symmetric _ (sA s)) | eapply (mset_pair_symmetric _ (sdA s))];
      eassumption.
  - auto.
Qed.

Lemma foldM_stamp_elem_symmetric n es s s' :
  symmetric_system n s -> foldM stamp_elem es s = Ok s' -> symmetric_system n s'.
Proof.
  revert s. induction es as [| e es IH]; intros s Hs H; simpl in H.
  - injection H as <-. exact Hs.
  - bind_inv H. eapply IH; [| exact H]. eapply stamp_elem_symmetric; eassumption.
Qed.

Lemma foldM_stamp_mmf_symmetric n es idx s idx' s' :
  symmetric_system n s -> foldM stamp_mmf es (idx, s) = Ok (idx', s') ->
  symmetric_system n s'.
Proof.
  revert idx s. induction es as [| e es IH]; intros idx s Hs H; simpl in H.
  - injection H as <- <-. exact Hs.
  - bind_inv H. destruct a as [idx1 s1].
    eapply IH; [| exact H]. eapply stamp_mmf_symmetric; eassumption.
Qed.

Lemma assemble_symmetric c n s :
  assemble c n = Ok s -> symmetric (sA s) /\ symmetric (sdA s).
Proof.
  unfold assemble. intros H. bind_inv H. bind_inv H. destruct a0 as [idx s1].
  injection H as <-.
  assert (H0 : symmetric_system n
                 (mk_sys (zeros2 n n) (zeros2 n n) (zeros n))).
  { split; [apply shaped_zeros |]. split; apply symmetric_zeros2. }
  apply (foldM_stamp_elem_symmetric n) in E; [| exact H0].
  apply (foldM_stamp_mmf_symmetric n) in E0; [| exact E].
  apply E0.
Qed.

(** X16. The matrices the assembly builds are symmetric, whatever the
    circuit: the conductance matrix [A], the Jacobian [dA] that
    [make_system_matrix] returns, and so the matrix of every system the
    solver solves. *)
Theorem assembled_matrices_are_symmetric c :
  (forall n s, assemble c n = Ok s -> symmetric (sA s) /\ symmetric (sdA s)) /\
  (forall x c' J b, make_system_matrix c x = Ok (c', (J, b)) -> symmetric J) /\
  (forall gamma k lg, trace (solve_circuit c gamma) !! k = Some lg ->
     symmetric (pl_A lg)).
Proof.
  assert (Hm : forall c0 x c' J b,
            make_system_matrix c0 x = Ok (c', (J, b)) -> symmetric J).
  { intros c0 x c' J b H. unfold make_system_matrix in H.
    bind_inv H. bind_inv H. injection H as _ <- _.
    eapply assemble_symmetric, E0. }
  split; [intros n s; apply assemble_symmetric |].
  split; [apply Hm |].
  intros gamma k lg Hk.
  destruct (solve_circuit_cases c gamma) as [[_ E] | [_ E]]; rewrite E in Hk;
    [discriminate |].
  apply newton_loop_any in Hk as (stk & stk' & Hp).
  apply newton_pass_Ok in Hp as (Hp & _). eapply Hm, Hp.
Qed.

Lemma assembled_matrices_are_symmetric_witness :
  entry gap_A 0 1 = entry gap_A 1 0.
Proof.
  apply (proj1 (assembled_matrices_are_symmetric (gap_circuit 10000)) 2%nat
           (mk_sys gap_A gap_A [0; 1 * 10000]) (gap_assemble 10000)).
Defined.

End symmetry.

(** ** The tables of a material model *)

Section material_tables.

Lemma extension_lookup H_max B_max i :
  (i < 50)%nat ->
  extension H_max B_max !! i
  = Some (H_max * (2 + INR i * 10000),
          B_max + const.mu0 * (H_max * (2 + INR i * 10000) - H_max)).
Proof.
  intros Hi. unfold extension. rewrite list_lookup_fmap, lookup_seq_lt by exact Hi.
  simpl. rewrite <- INR_IZR_INZ. reflexivity.
Qed.

Lemma extension_length H_max B_max : length (extension H_max B_max) = 50%nat.
Proof. reflexivity. Qed.

(** X17. The 50 points appended to a B(H) table lie on the line of slope
    [mu0] through the last row [(H_max, B_max)], at the fields
    [H_max * (2 + 10000 i)].  For a positive [H_max] they continue the
    table with strictly increasing [H] and [B].  For [H_max = 0] all
    50 points are the last row again, so the table handed to the
    spline repeats one abscissa 51 times. *)
Theorem extension_is_a_line_of_slope_mu0 H_max B_max :
  length (extension H_max B_max) = 50%nat /\
  (forall i H B, extension H_max B_max !! i = Some (H, B) ->
     H = H_max * (2 + INR i * 10000) /\ B - B_max = const.mu0 * (H - H_max)) /\
  (0 < H_max ->
   forall i j Hi Bi Hj Bj, (i < j)%nat ->
     extension H_max B_max !! i = Some (Hi, Bi) ->
     extension H_max B_max !! j = Some (Hj, Bj) ->
     H_max < Hi /\ Hi < Hj /\ B_max < Bi /\ Bi < Bj) /\
  (H_max = 0 ->
   forall p, p ∈ extension H_max B_max -> p = (H_max, B_max)).
Proof.
  assert (Hget : forall i H B, extension H_max B_max !! i = Some (H, B) ->
            (i < 50)%nat /\ H = H_max * (2 + INR i * 10000) /\
            B = B_max + const.mu0 * (H - H_max)).
  { intros i H B Hi. assert (Hlt : (i < 50)%nat).
    { apply lookup_lt_Some in Hi. rewrite extension_length in Hi. exact Hi. }
    rewrite extension_lookup in Hi by exact Hlt. injection Hi as <- <-. auto. }
  split; [reflexivity |]. split; [| split].
  - intros i H B Hi. destruct (Hget _ _ _ Hi) as (_ & -> & ->). split; [reflexivity | ring].
  - intros Hpos i j Hi Bi Hj Bj Hij Ei Ej.
    destruct (Hget _ _ _ Ei) as (_ & -> & ->).
    destruct (Hget _ _ _ Ej) as (_ & -> & ->).
    pose proof mu0_pos as Hmu.
    pose proof (pos_INR i) as Hi0.
    assert (Hlt : INR i < INR j) by (apply lt_INR; exact Hij).
    assert (H1 : H_max < H_max * (2 + INR i * 10000)) by nra.
    assert (H2 : H_max * (2 + INR i * 10000) < H_max * (2 + INR j * 10000)) by nra.
    split; [exact H1 |]. split; [exact H2 |]. split; nra.
  - intros -> p (i & Hi)%list_elem_of_lookup. destruct p as [H B].
    destruct (Hget _ _ _ Hi) as (_ & -> & ->). f_equal; ring.
Qed.

Lemma extension_is_a_line_of_slope_mu0_witness :
  Forall (fun p => p = (0, 2)) (extension 0 2).
Proof.
  apply Forall_forall.
  apply (extension_is_a_line_of_slope_mu0 0 2). reflexivity.
Defined.

Lemma uH_rows_lookup bh i H u :
  uH_rows bh !! i = Some (H, u) <->
  exists B, bh !! i = Some (H, B) /\ u = if Req_dec_T B 0 then Some 0 else np_div B H.
Proof.
  unfold uH_rows. rewrite list_lookup_fmap.
  destruct (bh !! i) as [[H' B'] |]; simpl; split.
  - intros [= <- <-]. eauto.
  - intros (B & [= <- <-] & ->). reflexivity.
  - discriminate.
  - intros (B & [=] & _).
Qed.

(** X18. The tables the constructor hands to the two splines.  Without a
    row there is no last row to extend from.  Otherwise the B(H) table
    is the rows followed by the 50 points of the extension, and the
    permeability table has the same fields: every row but the first
    holds [B / H], 0 for [B = 0]; the first row holds 1.05 times the
    value of the second, whatever its own [B] and [H] are. *)
Theorem spline_tables_layout rows :
  (spline_tables rows = None <-> rows = []) /\
  (forall bh uh, spline_tables rows = Some (bh, uh) ->
     (exists H_max B_max,
        last rows = Some (H_max, B_max) /\ bh = rows ++ extension H_max B_max) /\
     length bh = (length rows + 50)%nat /\
     map fst uh = map fst bh /\
     (forall i H u, (1 <= i)%nat ->
        (uh !! i = Some (H, u) <->
         exists B, bh !! i = Some (H, B) /\
                   u = if Req_dec_T B 0 then Some 0 else np_div B H)) /\
     (exists H0 B0 H1 u1,
        bh !! 0%nat = Some (H0, B0) /\ uh !! 1%nat = Some (H1, u1) /\
        uh !! 0%nat = Some (H0, (fun u => u * 1.05) <$> u1))).
Proof.
  unfold spline_tables. split.
  - destruct (last rows) as [[H_max B_max] |] eqn:El.
    + split; [discriminate |]. intros ->. discriminate.
    + apply last_None in El. tauto.
  - intros bh uh H.
    destruct (last rows) as [[H_max B_max] |] eqn:El; [| discriminate].
    cbv zeta in H.
    assert (Hlen : length (rows ++ extension H_max B_max) = (length rows + 50)%nat).
    { rewrite length_app, extension_length. reflexivity. }
    assert (Hfst : map fst (uH_rows (rows ++ extension H_max B_max))
                   = map fst (rows ++ extension H_max B_max)).
    { unfold uH_rows. rewrite map_map. apply map_ext. intros [? ?]. reflexivity. }
    pose proof (uH_rows_lookup (rows ++ extension H_max B_max)) as Hlk.
    assert (Hul : length (uH_rows (rows ++ extension H_max B_max))
                  = (length rows + 50)%nat).
    { unfold uH_rows. rewrite length_map. exact Hlen. }
    destruct (uH_rows (rows ++ extension H_max B_max))
      as [| [H0 u0] [| [H1 u1] rest]] eqn:Eu; simpl in Hul; try lia.
    injection H as <- <-.
    split; [eauto |]. split; [exact Hlen |].
    split; [rewrite <- Hfst; reflexivity |].
    split.
    + intros i H u Hi. rewrite <- Hlk.
      destruct i as [| i]; [lia |]. reflexivity.
    + destruct (proj1 (Hlk 0%nat H0 u0) eq_refl) as (B0 & HB0 & _).
      exists H0, B0, H1, u1. auto.
Qed.

Lemma spline_tables_layout_witness :
  exists bh uh,
    spline_tables [(0, 0); (100, 1)] = Some (bh, uh) /\
    length bh = 52%nat /\
    uh !! 0%nat = Some (0, Some (1 / 100 * 1.05)).
Proof.
  destruct (spline_tables [(0, 0); (100, 1)]) as [[bh uh] |] eqn:E.
  - pose proof (proj2 (spline_tables_layout [(0, 0); (100, 1)]) bh uh E)
      as ((Hm & Bm & Hl & Hbh) & Hlen & _ & Hrest & (H0 & B0 & H1 & u1 & Hb0 & Hu1 & Hu0)).
    exists bh, uh. split; [reflexivity |]. split; [exact Hlen |].
    injection Hl as <- <-. subst bh. simpl in Hb0. injection Hb0 as <- <-.
    apply (Hrest 1%nat H1 u1) in Hu1 as (B & HB & ->); [| lia].
    simpl in HB. injection HB as <- <-.
    rewrite Hu0. destruct (Req_dec_T 1 0) as [? | _]; [lra |].
    unfold np_div. destruct (Req_dec_T 100 0) as [? | _]; [lra |]. reflexivity.
  - apply (proj1 (spline_tables_layout [(0, 0); (100, 1)])) in E. discriminate.
Defined.

(** X19. For a material on the line [B = mu0 * mu * H] the model returns
    the permeability [mu] at every field, the zero-field fallback
    included, and with a constant permeability curve the differential
    permeability is [mu] as well. *)
Theorem linear_material_has_constant_permeability name mu u H :
  mur (linear_material name mu u) H = Ok mu /\
  mur_d (linear_material name mu u) H = Ok mu.
Proof.
  assert (Hm : mur (linear_material name mu u) H = Ok mu).
  { rewrite mur_value_eq. f_equal. unfold mur_value, linear_material. simpl.
    pose proof mu0_neq_0.
    destruct (Rlt_dec 0 H); field; repeat split; first [assumption | lra]. }
  split; [exact Hm |].
  unfold mur_d. rewrite Hm. simpl.
  unfold dmu_dH, fp, linear_material. simpl.
  rewrite safe_div_nz by apply mu0_neq_0. simpl. f_equal.
  pose proof mu0_neq_0. field. assumption.
Qed.

End material_tables.

(** ** What can stop the solver *)

Section solver_failures.

Lemma refreshed_terminals c x e :
  elem_n1 (refreshed c x e) = elem_n1 e /\ elem_n2 (refreshed c x e) = elem_n2 e /\
  (nonzero_length e -> nonzero_length (refreshed c x e)).
Proof.
  destruct e as [p | s | s | s]; simpl; auto.
  destruct (Permeance.model_label p) as [label |]; [| auto].
  destruct (models c !! label); simpl; auto.
Qed.

Lemma laid_out_refreshed k c c0 x :
  laid_out k c -> laid_out k (set_elems c (map (refreshed c0 x) (elems c))).
Proof.
  intros (Hn & Ht & Hl). split; [exact Hn |]. simpl.
  split; apply Forall_map; simpl.
  - eapply Forall_impl; [exact Ht |]. intros e [H1 H2].
    destruct (refreshed_terminals c0 x e) as (E1 & E2 & _).
    unfold terminals_within. rewrite E1, E2. auto.
  - eapply Forall_impl; [exact Hl |]. intros e He.
    apply (refreshed_terminals c0 x e), He.
Qed.

Lemma laid_out_operable k c x :
  laid_out k c -> models_registered c -> (k <= length x)%nat ->
  Forall (operable c x) (elems c).
Proof.
  intros (_ & Ht & Hl) Hm Hk. apply Forall_forall. intros e He.
  destruct e as [p | s | s | s]; simpl; auto.
  intros label Hlabel.
  pose proof (proj1 (Forall_forall _ _) Ht _ He) as [H1 H2].
  pose proof (proj1 (Forall_forall _ _) Hl _ He) as H3. simpl in *.
  split; [eapply Hm; eassumption |]. split; [exact H3 |]. lia.
Qed.

Lemma laid_out_assemble k c :
  laid_out k c ->
  exists s, assemble c (k + length (mmf_sources (elems c))) = Ok s.
Proof.
  intros (Hn & Ht & Hl).
  set (n := (k + length (mmf_sources (elems c)))%nat).
  destruct (foldM_stamp_elem_total n (Z.of_nat k) (elems c) _ (shaped_zeros n))
    as (s1 & E1 & Hs1); [lia | assumption | assumption |].
  destruct (foldM_stamp_mmf_layout n (Z.of_nat k) (elems c) (Z.of_nat k) s1 Hs1)
    as (s2 & E2 & _); [lia | lia | assumption |].
  exists s2. unfold assemble. rewrite E1. simpl. rewrite Hn.
  replace (Z.of_nat k + 1 - 1)%Z with (Z.of_nat k) by lia.
  rewrite E2. reflexivity.
Qed.

Lemma laid_out_system k c x :
  laid_out k c -> models_registered c ->
  length x = (k + length (mmf_sources (elems c)))%nat ->
  exists c' J b, make_system_matrix c x = Ok (c', (J, b)).
Proof.
  intros Hlay Hm Hx. unfold make_system_matrix.
  rewrite (update_mur_operable c x) by (eapply laid_out_operable; eauto; lia).
  simpl. rewrite Hx.
  destruct (laid_out_assemble k _ (laid_out_refreshed k c c x Hlay)) as [s Hs].
  simpl in Hs. rewrite mmf_sources_refreshed in Hs. rewrite Hs. simpl. eauto.
Qed.

Lemma length_vscale a (v : list R) : length (vscale a v) = length v.
Proof. apply length_map. Qed.

(** A pass over a circuit with a well-posed system returns or raises
    [LinAlgError], and keeps the size of the estimate. *)
Lemma laid_out_pass gamma c st :
  (forall y, length y = length (ls_x st) ->
     exists c' J b, make_system_matrix c y = Ok (c', (J, b))) ->
  (forall y, make_system_matrix (ls_circ st) y = make_system_matrix c y) ->
  newton_pass gamma st = Raise LinAlgError \/
  exists st' lg, newton_pass gamma st = Ok (st', lg) /\
                 length (ls_x st') = length (ls_x st) /\
                 forall y, make_system_matrix (ls_circ st') y = make_system_matrix c y.
Proof.
  intros Htot Hsame.
  destruct (Htot (ls_x st) eq_refl) as (c' & J & b & Hm).
  pose proof (make_system_matrix_shape _ _ _ _ _ Hm) as [[HJ _] Hb].
  unfold newton_pass. rewrite Hsame, Hm. simpl.
  destruct (linsolve J b) as [dx | e] eqn:Es; simpl.
  - right. eexists _, _. split; [reflexivity |]. simpl.
    apply linsolve_Ok in Es as [[Hdx _] _].
    split.
    + destruct (ls_iter st =? 0)%Z; [congruence |].
      rewrite length_vadd; [reflexivity |]. rewrite length_vscale. congruence.
    + intros y. apply (make_system_matrix_again c (ls_x st)).
      eapply make_system_matrix_update, Hm.
  - left. apply linsolve_Raise in Es as [-> _]. reflexivity.
Qed.

Lemma laid_out_loop gamma c fuel st :
  (forall y, length y = length (ls_x st) ->
     exists c' J b, make_system_matrix c y = Ok (c', (J, b))) ->
  (forall y, make_system_matrix (ls_circ st) y = make_system_matrix c y) ->
  forall e, out (newton_loop fuel gamma st) = Raised e -> e = LinAlgError.
Proof.
  revert st. induction fuel as [| fuel IH]; intros st Htot Hsame e; [discriminate |].
  rewrite newton_loop_S.
  destruct (laid_out_pass gamma c st Htot Hsame)
    as [-> | (st' & lg & -> & Hlen & Hsame')].
  - simpl. congruence.
  - repeat case_match; simpl; try discriminate.
    apply IH; simpl; [| exact Hsame'].
    intros y Hy. apply Htot. congruence.
Qed.

Lemma unbound_models_registered c : unbound c -> models_registered c.
Proof. intros Hu p label Hin Hl. rewrite (Hu p Hin) in Hl. discriminate. Qed.

(** X20. On a built circuit with ground registered in which no permeance is
    bound to a material model, neither the refresh nor the assembly of
    a pass can fail: the only exception [solve_circuit] can raise is
    the [LinAlgError] of the linear solve.  The call returns a solution
    or raises that. *)
Theorem solver_fails_only_on_a_singular_system c gamma :
  built c -> has_ground c -> unbound c ->
  (exists s c' x, out (solve_circuit c gamma) = Returned s c' x) \/
  out (solve_circuit c gamma) = Raised LinAlgError.
Proof.
  intros Hb Hg Hm%unbound_models_registered.
  destruct (built_layout c Hb Hg) as (k & _ & Hnn & Hterm & Hlen).
  assert (Hlay : laid_out k c) by (split; [| split]; assumption).
  pose proof (solve_circuit_leaves_by_its_test c gamma) as Hfuel.
  assert (Hn : n_matrix_size c
               = Z.of_nat (k + length (mmf_sources (elems c)))).
  { unfold n_matrix_size. rewrite Hnn, get_MMFs_number_count. lia. }
  destruct (solve_circuit_cases c gamma) as [[Hneg _] | [_ E]]; [lia |].
  rewrite E in *.
  destruct (out (newton_loop 2002 gamma _)) as [s c' x | e |] eqn:Eo.
  - left. eauto.
  - right. f_equal. eapply (laid_out_loop gamma c); [| | exact Eo]; simpl.
    + intros y Hy. apply (laid_out_system k); [assumption | assumption |].
      rewrite Hy, length_zeros, Hn, Nat2Z.id. reflexivity.
    + reflexivity.
  - contradiction.
Qed.

Lemma gap_unbound V : unbound (gap_circuit V).
Proof.
  intros p Hin. rewrite gap_circuit_eq in Hin. simpl in Hin.
  apply elem_of_cons in Hin as [[=] | Hin].
  apply list_elem_of_singleton in Hin. injection Hin as ->. reflexivity.
Qed.

Lemma solver_fails_only_on_a_singular_system_witness :
  (exists s c' x, out (solve_circuit (gap_circuit 10000) 1) = Returned s c' x) \/
  out (solve_circuit (gap_circuit 10000) 1) = Raised LinAlgError.
Proof.
  exact (solver_fails_only_on_a_singular_system (gap_circuit 10000) 1
           (gap_built 10000) (gap_has_ground 10000) (gap_unbound 10000)).
Defined.

End solver_failures.

(** ** The equations of the MMF sources *)

Section source_equations.

Lemma entry_zeros2 n r c :
  (r < n)%nat -> (c < n)%nat -> entry (zeros2 n n) r c = Some 0.
Proof.
  intros Hr Hc. unfold entry, zeros2, zeros.
  rewrite lookup_replicate_2 by exact Hr. simpl.
  apply lookup_replicate_2, Hc.
Qed.

Lemma np_index_low n k i ki :
  (k <= n)%nat -> (0 <= i < Z.of_nat k)%Z -> np_index n i = Ok ki ->
  ki = Z.to_nat i /\ (ki < k)%nat.
Proof.
  intros Hk Hi E. rewrite np_index_in_range in E by lia.
  injection E as <-. split; [reflexivity | lia].
Qed.

Section low_entries.
(** A property of a matrix that writing an entry with both indices
    below [k] keeps. *)
Variables (Q : list (list R) -> Prop) (k n : nat).
Hypothesis Hkn : (k <= n)%nat.
Hypothesis HQ : forall M M' a b v,
  (a < k)%nat -> (b < k)%nat -> Q M -> updated M' M a b v -> Q M'.

Lemma add_to_low M i j r M' :
  square n M -> (0 <= i < Z.of_nat k)%Z -> (0 <= j < Z.of_nat k)%Z ->
  add_to M i j r = Ok M' -> Q M -> Q M'.
Proof.
  intros Hsq Hi Hj H HM.
  destruct (add_to_updated _ _ _ _ _ _ Hsq H) as (a & b & v & p & Ea & Eb & _ & _ & Hu).
  destruct (np_index_low _ _ _ _ Hkn Hi Ea) as [_ Ha].
  destruct (np_index_low _ _ _ _ Hkn Hj Eb) as [_ Hb].
  exact (HQ M M' a b _ Ha Hb HM Hu).
Qed.

Lemma sub_from_low M i j r M' :
  square n M -> (0 <= i < Z.of_nat k)%Z -> (0 <= j < Z.of_nat k)%Z ->
  sub_from M i j r = Ok M' -> Q M -> Q M'.
Proof.
  intros Hsq Hi Hj H HM.
  destruct (sub_from_updated _ _ _ _ _ _ Hsq H) as (a & b & v & p & Ea & Eb & _ & _ & Hu).
  destruct (np_index_low _ _ _ _ Hkn Hi Ea) as [_ Ha].
  destruct (np_index_low _ _ _ _ Hkn Hj Eb) as [_ Hb].
  exact (HQ M M' a b _ Ha Hb HM Hu).
Qed.

Local Abbreviation low_system s := (shaped n s /\ Q (sA s) /\ Q (sdA s)).

Lemma diagonal_stamp_low s s' (t : bool) i P dP :
  (t = true -> (0 <= i < Z.of_nat k)%Z) -> low_system s ->
  (if t then
     A ← add_to (sA s) i i P; dA ← add_to (sdA s) i i dP; Ok (mk_sys A dA (sb s))
   else Ok s) = Ok s' ->
  low_system s'.
Proof.
  intros Hi Hs H. destruct t; [| injection H as <-; exact Hs].
  specialize (Hi eq_refl). destruct Hs as ((HA & HdA & Hb) & HQA & HQdA).
  bind_inv H. bind_inv H. injection H as <-.
  split; [split; [| split] |]; simpl.
  - eapply add_to_square; eassumption.
  - eapply add_to_square; eassumption.
  - exact Hb.
  - split.
    + exact (add_to_low (sA s) i i P a HA Hi Hi E HQA).
    + exact (add_to_low (sdA s) i i dP a0 HdA Hi Hi E0 HQdA).
Qed.

Lemma mutual_stamp_low s s' (t : bool) i j P dP :
  (t = true -> (0 <= i < Z.of_nat k)%Z /\ (0 <= j < Z.of_nat k)%Z) -> low_system s ->
  (if t then
     A ← sub_from (sA s) i j P; dA ← sub_from (sdA s) i j dP;
     A ← sub_from A j i P; dA ← sub_from dA j i dP;
     Ok (mk_sys A dA (sb s))
   else Ok s) = Ok s' ->
  low_system s'.
Proof.
  intros Hij Hs H. destruct t; [| injection H as <-; exact Hs].
  destruct (Hij eq_refl) as [Hi Hj]. destruct Hs as ((HA & HdA & Hb) & HQA & HQdA).
  bind_inv H. bind_inv H. bind_inv H. bind_inv H. injection H as <-.
  pose proof (sub_from_square _ _ _ _ _ _ E HA) as HA1.
  pose proof (sub_from_square _ _ _ _ _ _ E0 HdA) as HdA1.
  split; [split; [| split] |]; simpl.
  - eapply sub_from_square; eassumption.
  - eapply sub_from_square; eassumption.
  - exact Hb.
  - split.
    + exact (sub_from_low a j i P a1 HA1 Hj Hi E1
               (sub_from_low (sA s) i j P a HA Hi Hj E HQA)).
    + exact (sub_from_low a0 j i dP a2 HdA1 Hj Hi E2
               (sub_from_low (sdA s) i j dP a0 HdA Hi Hj E0 HQdA)).
Qed.

Lemma stamp_elem_low e s s' :
  terminals_within (Z.of_nat k) e -> low_system s ->
  stamp_elem e s = Ok s' -> low_system s'.
Proof.
  intros [Ht1 Ht2] Hs H. pose proof Hs as (Hsh & HQA & HQdA).
  pose proof (stamp_elem_shaped _ _ _ _ H Hsh) as Hsh'.
  destruct e as [p | src | src | src]; simpl in *.
  - bind_inv H. bind_inv H.
    apply diagonal_stamp_low in E; [| intros Ht%Z.leb_le; lia | exact Hs].
    apply diagonal_stamp_low in E0; [| intros Ht%Z.leb_le; lia | exact E].
    apply mutual_stamp_low in H; [exact H | | exact E0].
    intros [Ha%Z.leb_le Hb%Z.leb_le]%andb_true_iff. lia.
  - injection H as <-. exact Hs.
  - split; [exact Hsh' |].
    bind_inv H.
    assert (E1 : sA a = sA s /\ sdA a = sdA s).
    { destruct (0 <=? PHISource.n1 src - 1)%Z; [| injection E as <-; auto].
      bind_inv E. bind_inv E. injection E as <-. auto. }
    assert (E2 : sA s' = sA a /\ sdA s' = sdA a).
    { destruct (0 <=? PHISource.n2 src - 1)%Z; [| injection H as <-; auto].
      bind_inv H. bind_inv H. injection H as <-. auto. }
    destruct E1 as [E1 E1'], E2 as [E2 E2']. rewrite E2, E2', E1, E1'. auto.
  - injection H as <-. exact Hs.
Qed.

Lemma foldM_stamp_elem_low es s s' :
  Forall (terminals_within (Z.of_nat k)) es -> low_system s ->
  foldM stamp_elem es s = Ok s' -> low_system s'.
Proof.
  intros Ht. revert s. induction Ht as [| e es He Hes IH]; intros s Hs H; simpl in H.
  - injection H as <-. exact Hs.
  - bind_inv H. eapply IH; [| exact H]. eapply stamp_elem_low; eassumption.
Qed.

End low_entries.

Lemma updated_blank k n M M' a b v :
  (a < k)%nat -> (b < k)%nat -> blank_from k n M -> updated M' M a b v ->
  blank_from k n M'.
Proof.
  intros Ha Hb HM Hu r c Hr Hc Hrc. rewrite (Hu r c).
  rewrite decide_False by lia. apply HM; assumption.
Qed.

Lemma blank_zeros2 k n : blank_from k n (zeros2 n n).
Proof. intros r c Hr Hc _. apply entry_zeros2; assumption. Qed.

Lemma guarded_mset_entry n M g i j v M' :
  square n M ->
  ((0 <= g)%Z -> (0 <= i < Z.of_nat n)%Z /\ (0 <= j < Z.of_nat n)%Z) ->
  (if (0 <=? g)%Z then mset M i j v else Ok M) = Ok M' ->
  square n M' /\
  forall r c, entry M' r c
              = if decide ((0 <= g)%Z /\ r = Z.to_nat i /\ c = Z.to_nat j)
                then Some v else entry M r c.
Proof.
  intros Hsq Hij H. destruct (Z.leb_spec 0 g) as [Hg | Hg].
  - destruct (Hij Hg) as [Hi Hj].
    split; [eapply mset_square; eassumption |].
    destruct (mset_updated _ _ _ _ _ _ Hsq H) as (a & b & Ea & Eb & Hu).
    rewrite np_index_in_range in Ea, Eb by assumption.
    injection Ea as <-. injection Eb as <-.
    intros r c. rewrite (Hu r c).
    destruct (decide (r = Z.to_nat i /\ c = Z.to_nat j)) as [Hd | Hd].
    + rewrite decide_True by tauto. reflexivity.
    + rewrite decide_False by tauto. reflexivity.
  - injection H as <-. split; [exact Hsq |].
    intros r c. rewrite decide_False; [reflexivity |]. intros [? _]. lia.
Qed.

Lemma source_writes_entries n idx src M M4 :
  square n M -> (idx < n)%nat ->
  (MMFSource.n1 src <= Z.of_nat n)%Z -> (MMFSource.n2 src <= Z.of_nat n)%Z ->
  source_writes (0 <=? MMFSource.n1 src - 1)%Z (0 <=? MMFSource.n2 src - 1)%Z
    (MMFSource.n1 src - 1) (MMFSource.n2 src - 1) (Z.of_nat idx) M M4 ->
  square n M4 /\
  forall r c,
    entry M4 r c
    = if decide ((0 <= MMFSource.n2 src - 1)%Z /\ r = idx /\
                 c = Z.to_nat (MMFSource.n2 src - 1))
      then Some (-1)
      else if decide ((0 <= MMFSource.n1 src - 1)%Z /\ r = idx /\
                      c = Z.to_nat (MMFSource.n1 src - 1))
      then Some 1
      else if decide ((0 <= MMFSource.n2 src - 1)%Z /\
                      r = Z.to_nat (MMFSource.n2 src - 1) /\ c = idx)
      then Some (-1)
      else if decide ((0 <= MMFSource.n1 src - 1)%Z /\
                      r = Z.to_nat (MMFSource.n1 src - 1) /\ c = idx)
      then Some 1
      else entry M r c.
Proof.
  intros Hsq Hidx H1 H2 (M1 & M2 & M3 & E1 & E2 & E3 & E4).
  assert (Ht1 : (0 <= MMFSource.n1 src - 1)%Z ->
                (0 <= MMFSource.n1 src - 1 < Z.of_nat n)%Z) by lia.
  assert (Ht2 : (0 <= MMFSource.n2 src - 1)%Z ->
                (0 <= MMFSource.n2 src - 1 < Z.of_nat n)%Z) by lia.
  assert (Hx : (0 <= Z.of_nat idx < Z.of_nat n)%Z) by lia.
  destruct (guarded_mset_entry n _ _ _ _ _ _ Hsq (fun t => conj (Ht1 t) Hx) E1)
    as [Hsq1 Hu1].
  destruct (guarded_mset_entry n _ _ _ _ _ _ Hsq1 (fun t => conj (Ht2 t) Hx) E2)
    as [Hsq2 Hu2].
  destruct (guarded_mset_entry n _ _ _ _ _ _ Hsq2 (fun t => conj Hx (Ht1 t)) E3)
    as [Hsq3 Hu3].
  destruct (guarded_mset_entry n _ _ _ _ _ _ Hsq3 (fun t => conj Hx (Ht2 t)) E4)
    as [Hsq4 Hu4].
  rewrite Nat2Z.id in Hu1, Hu2, Hu3, Hu4.
  split; [exact Hsq4 |].
  intros r c. rewrite Hu4, Hu3, Hu2, Hu1. reflexivity.
Qed.

Lemma source_writes_rows k n idx done src M M4 :
  square n M -> (idx < n)%nat -> idx = (k + length done)%nat ->
  (0 <= MMFSource.n1 src <= Z.of_nat k)%Z ->
  (0 <= MMFSource.n2 src <= Z.of_nat k)%Z ->
  source_writes (0 <=? MMFSource.n1 src - 1)%Z (0 <=? MMFSource.n2 src - 1)%Z
    (MMFSource.n1 src - 1) (MMFSource.n2 src - 1) (Z.of_nat idx) M M4 ->
  blank_from idx n M -> has_source_rows k n done M ->
  square n M4 /\ blank_from (S idx) n M4 /\ has_source_rows k n (done ++ [src]) M4.
Proof.
  intros Hsq Hidx Hk H1 H2 Hw Hblank Hrows.
  destruct (source_writes_entries n idx src M M4 Hsq Hidx ltac:(lia) ltac:(lia) Hw)
    as [Hsq4 Hent].
  clear Hw Hsq.
  split; [exact Hsq4 |]. clear Hsq4.
  set (a1 := MMFSource.n1 src) in *. set (a2 := MMFSource.n2 src) in *.
  split.
  - intros r c Hr Hc Hrc. rewrite Hent. clear Hent Hrows.
    rewrite !decide_False by (intros (? & ? & ?); lia).
    apply Hblank; lia.
  - intros j src' col Hj Hcol. rewrite Hent. clear Hent.
    apply lookup_app_Some in Hj as [Hj | [Hlen Hj]].
    + apply lookup_lt_Some in Hj as Hlt.
      rewrite !decide_False by (intros (? & ? & ?); lia).
      apply Hrows; assumption.
    + apply list_lookup_singleton_Some in Hj as [Hj0 <-].
      assert (Hr : (k + j)%nat = idx) by lia. rewrite Hr. clear Hr Hj0 Hlen Hrows.
      unfold source_row. fold a1 a2.
      destruct (decide (Z.of_nat col = (a2 - 1)%Z)) as [D2 | D2].
      { rewrite decide_True by (split; [lia | split; [reflexivity | lia]]).
        reflexivity. }
      rewrite decide_False by (intros (? & _ & ->); lia).
      destruct (decide (Z.of_nat col = (a1 - 1)%Z)) as [D1 | D1].
      { rewrite decide_True by (split; [lia | split; [reflexivity | lia]]).
        reflexivity. }
      rewrite decide_False by (intros (? & _ & ->); lia).
      rewrite !decide_False by (intros (? & ? & _); lia).
      apply Hblank; lia.
Qed.

End source_equations.

Section source_equations_hold.

Lemma stamp_mmf_writes src idx s idx' s' :
  stamp_mmf (EMMFSource src) (idx, s) = Ok (idx', s') ->
  idx' = (idx + 1)%Z /\
  source_writes (0 <=? MMFSource.n1 src - 1)%Z (0 <=? MMFSource.n2 src - 1)%Z
    (MMFSource.n1 src - 1) (MMFSource.n2 src - 1) idx (sA s) (sA s') /\
  source_writes (0 <=? MMFSource.n1 src - 1)%Z (0 <=? MMFSource.n2 src - 1)%Z
    (MMFSource.n1 src - 1) (MMFSource.n2 src - 1) idx (sdA s) (sdA s').
Proof.
  intros H. simpl in H. unfold source_writes.
  destruct (0 <=? MMFSource.n1 src - 1)%Z; destruct (0 <=? MMFSource.n2 src - 1)%Z;
    simpl in H;
    repeat match goal with
      | H : Ok _ = Ok _ |- _ => inversion H; subst; clear H
      | H : (_ ≫= _) = Ok _ |- _ => bind_inv H
      end; simpl;
    (split; [reflexivity |]);
    split; eexists _, _, _;
    (split; [first [eassumption | reflexivity] |]);
    (split; [first [eassumption | reflexivity] |]);
    (split; [first [eassumption | reflexivity] |]);
    first [eassumption | reflexivity].
Qed.

Lemma foldM_stamp_mmf_rows k n es :
  Forall (terminals_within (Z.of_nat k)) es ->
  forall done idx s idx' s',
    shaped n s -> idx = (k + length done)%nat ->
    (idx + length (mmf_sources es) <= n)%nat ->
    foldM stamp_mmf es (Z.of_nat idx, s) = Ok (idx', s') ->
    blank_from idx n (sA s) -> blank_from idx n (sdA s) ->
    has_source_rows k n done (sA s) -> has_source_rows k n done (sdA s) ->
    has_source_rows k n (done ++ mmf_sources es) (sA s') /\
    has_source_rows k n (done ++ mmf_sources es) (sdA s').
Proof.
  induction 1 as [| e es He Hes IH];
    intros done idx s idx' s' Hsh Hidx Hn H HbA HbdA HrA HrdA.
  - simpl in H. injection H as _ <-. simpl. rewrite app_nil_r. auto.
  - cbn [foldM] in H. bind_inv H. destruct a as [idx1 s1].
    destruct e as [p | src | src0 | src0];
      try (simpl in E; injection E as <- <-; simpl in Hn |- *;
           eapply IH; eassumption).
    simpl in Hn.
    pose proof (stamp_mmf_shaped _ _ _ _ _ _ E Hsh) as Hsh1.
    destruct (stamp_mmf_writes _ _ _ _ _ E) as (-> & HwA & HwdA).
    destruct Hsh as (HA & HdA & Hb). destruct He as [H1 H2]. simpl in H1, H2.
    destruct (source_writes_rows k n idx done src _ _ HA ltac:(lia) Hidx H1 H2 HwA HbA HrA)
      as (_ & HbA1 & HrA1).
    destruct (source_writes_rows k n idx done src _ _ HdA ltac:(lia) Hidx H1 H2 HwdA HbdA HrdA)
      as (_ & HbdA1 & HrdA1).
    replace (Z.of_nat idx + 1)%Z with (Z.of_nat (S idx)) in H by lia.
    cbn [mmf_sources].
    replace (done ++ src :: mmf_sources es) with ((done ++ [src]) ++ mmf_sources es)
      by (rewrite <- app_assoc; reflexivity).
    eapply (IH (done ++ [src]) (S idx)); try eassumption.
    + rewrite length_app. simpl. lia.
    + lia.
Qed.

Lemma assemble_source_rows k c s :
  laid_out k c ->
  let n := (k + length (mmf_sources (elems c)))%nat in
  assemble c n = Ok s ->
  shaped n s /\
  has_source_rows k n (mmf_sources (elems c)) (sA s) /\
  has_source_rows k n (mmf_sources (elems c)) (sdA s) /\
  (forall j src, mmf_sources (elems c) !! j = Some src ->
     sb s !! (k + j)%nat = Some (MMFSource.value src)).
Proof.
  intros (Hn & Ht & Hl) n H.
  pose proof (assemble_shaped _ _ _ H) as Hsh.
  unfold assemble in H. bind_inv H. bind_inv H. destruct a0 as [idx s2].
  injection H as <-. rename a into s1.
  rewrite Hn in E0.
  replace (Z.of_nat k + 1 - 1)%Z with (Z.of_nat k) in E0 by lia.
  assert (Hlow : shaped n s1 /\ blank_from k n (sA s1) /\ blank_from k n (sdA s1)).
  { apply (foldM_stamp_elem_low (blank_from k n) k n ltac:(lia)
             (fun M M' a b v Ha Hb HM Hu => updated_blank k n M M' a b v Ha Hb HM Hu)
             (elems c) (mk_sys (zeros2 n n) (zeros2 n n) (zeros n)) s1 Ht); [| exact E].
    split; [apply shaped_zeros |]. split; apply blank_zeros2. }
  destruct Hlow as (Hsh1 & HbA & HbdA).
  split; [exact Hsh |].
  destruct (foldM_stamp_mmf_rows k n (elems c) Ht [] k s1 _ _ Hsh1
              ltac:(simpl; lia) ltac:(lia) E0 HbA HbdA) as [HrA HrdA].
  { intros j src col Hj. rewrite lookup_nil in Hj. discriminate. }
  { intros j src col Hj. rewrite lookup_nil in Hj. discriminate. }
  split; [exact HrA |]. split; [exact HrdA |].
  destruct (foldM_stamp_mmf_layout n (Z.of_nat k) (elems c) (Z.of_nat k) s1 Hsh1)
    as (s' & E' & _ & Hent & _); [lia | lia | exact Ht |].
  rewrite E0 in E'. injection E' as _ <-.
  intros j src Hj. specialize (Hent j src Hj).
  rewrite Nat2Z.id in Hent. rewrite Hent. unfold MMFSource.MMF. f_equal. lra.
Qed.

Lemma potential_from_0 x n : potential_from 0 x n = potential x n.
Proof.
  unfold potential_from, potential.
  destruct (Z.leb_spec n 0); case_decide; try lia; try reflexivity.
  rewrite Nat.sub_0_r. reflexivity.
Qed.

Lemma potential_from_cons off a x n :
  potential_from off (a :: x) n
  = (if decide (Z.of_nat off = n - 1)%Z then a else 0) + potential_from (S off) x n.
Proof.
  unfold potential_from. repeat case_decide; try lia.
  - replace (Z.to_nat (n - 1) - off)%nat with 0%nat by lia. simpl. lra.
  - destruct (Z.to_nat (n - 1) - off)%nat as [| m] eqn:Em; [lia |]. simpl.
    replace (Z.to_nat (n - 1) - S off)%nat with m by lia. lra.
  - lra.
Qed.

Lemma dot_cons r row a x : dot (r :: row) (a :: x) = r * a + dot row x.
Proof. reflexivity. Qed.

(** The row of a source times an estimate is the potential
    difference across the source. *)
Lemma dot_source_row src x :
  MMFSource.n1 src <> MMFSource.n2 src ->
  forall off row,
    length row = length x ->
    (forall c, (c < length x)%nat -> row !! c = Some (source_row src (off + c))) ->
    dot row x
    = potential_from off x (MMFSource.n1 src) - potential_from off x (MMFSource.n2 src).
Proof.
  intros Hne. induction x as [| a x IH]; intros off row Hlen Hrow.
  - destruct row; [| discriminate]. unfold dot, potential_from. simpl.
    repeat case_decide; lra.
  - destruct row as [| r row]; [discriminate |].
    rewrite dot_cons, !potential_from_cons.
    rewrite (IH (S off) row).
    + assert (Hr : r = source_row src off).
      { specialize (Hrow 0%nat ltac:(simpl; lia)). simpl in Hrow.
        rewrite Nat.add_0_r in Hrow. congruence. }
      rewrite Hr. unfold source_row. repeat case_decide; try lia; lra.
    + simpl in Hlen. lia.
    + intros c Hc. specialize (Hrow (S c) ltac:(simpl; lia)). simpl in Hrow.
      rewrite Hrow. f_equal. f_equal. lia.
Qed.

Lemma elem_mmf_sources es src :
  EMMFSource src ∈ es -> exists j, mmf_sources es !! j = Some src.
Proof.
  induction es as [| e es IH]; intros Hin.
  - apply elem_of_nil in Hin. contradiction.
  - apply elem_of_cons in Hin as [<- | Hin].
    + exists 0%nat. reflexivity.
    + destruct (IH Hin) as [j Hj].
      destruct e as [p | s | s | s]; simpl; eauto. exists (S j). exact Hj.
Qed.

(** Row [k + j] of a matrix with the source rows, times an estimate. *)
Lemma source_row_product k n srcs (M : list (list R)) j src x :
  square n M -> has_source_rows k n srcs M -> srcs !! j = Some src ->
  (k + j < n)%nat -> length x = n ->
  MMFSource.n1 src <> MMFSource.n2 src ->
  mat_vec M x !! (k + j)%nat
  = Some (potential x (MMFSource.n1 src) - potential x (MMFSource.n2 src)).
Proof.
  intros Hsq Hrows Hj Hlt Hx Hne.
  destruct (lookup_lt_is_Some_2 M (k + j)) as [row Hrow];
    [destruct Hsq as [-> _]; exact Hlt |].
  unfold mat_vec. rewrite list_lookup_fmap, Hrow. simpl. f_equal.
  rewrite <- !potential_from_0. apply dot_source_row; [exact Hne | |].
  - rewrite (square_row _ _ _ _ Hsq Hrow). congruence.
  - intros c Hc. specialize (Hrows j src c Hj ltac:(lia)).
    unfold entry in Hrows. rewrite Hrow in Hrows. exact Hrows.
Qed.

End source_equations_hold.

Section iterates_honour_sources.

Lemma potential_zeros n i : potential (zeros n) i = 0.
Proof.
  unfold potential. destruct (i <=? 0)%Z; [reflexivity |].
  unfold zeros. destruct (replicate n 0 !! Z.to_nat (i - 1)) as [v |] eqn:E; [| reflexivity].
  apply lookup_replicate in E as [-> _]. reflexivity.
Qed.

Lemma potential_vadd_vscale (x y : list R) g i :
  length x = length y ->
  potential (vadd x (vscale g y)) i = potential x i + g * potential y i.
Proof.
  intros Hlen. unfold potential. destruct (i <=? 0)%Z; [lra |].
  unfold vadd, vscale. rewrite lookup_zip_with, list_lookup_fmap.
  destruct (x !! Z.to_nat (i - 1)) as [a |] eqn:Ex;
    destruct (y !! Z.to_nat (i - 1)) as [b |] eqn:Ey; simpl; try lra.
  - apply lookup_lt_Some in Ex. apply lookup_ge_None in Ey. lia.
  - apply lookup_lt_Some in Ey. apply lookup_ge_None in Ex. lia.
Qed.

(** The increment of a pass moves the potential difference across a
    source by what the estimate lacks to the source's value. *)
Lemma system_source_equation k c x c' J b j src dx :
  laid_out k c -> length x = (k + length (mmf_sources (elems c)))%nat ->
  mmf_sources (elems c) !! j = Some src ->
  MMFSource.n1 src <> MMFSource.n2 src ->
  make_system_matrix c x = Ok (c', (J, b)) -> is_solution J b dx ->
  laid_out k c' /\ mmf_sources (elems c') = mmf_sources (elems c) /\
  length dx = length x /\
  potential dx (MMFSource.n1 src) - potential dx (MMFSource.n2 src)
  = MMFSource.value src
    - (potential x (MMFSource.n1 src) - potential x (MMFSource.n2 src)).
Proof.
  intros Hlay Hx Hj Hne Hm (Hdl & Hdx).
  unfold make_system_matrix in Hm. bind_inv Hm. bind_inv Hm.
  injection Hm as <- <- <-. rename a into c1, a0 into s.
  apply update_mur_refreshed in E. subst c1.
  pose proof (laid_out_refreshed k c c x Hlay) as Hlay1.
  assert (Hsrc : mmf_sources (elems (set_elems c (map (refreshed c x) (elems c))))
                 = mmf_sources (elems c)) by apply mmf_sources_refreshed.
  split; [exact Hlay1 |]. split; [exact Hsrc |].
  rewrite Hx in E0. rewrite <- Hsrc in E0.
  destruct (assemble_source_rows k _ s Hlay1 E0) as ((HA & HdA & Hb) & HrA & HrdA & Hsb).
  rewrite Hsrc in *.
  set (n := (k + length (mmf_sources (elems c)))%nat) in *.
  assert (Hjn : (k + j < n)%nat) by (apply lookup_lt_Some in Hj; lia).
  assert (Hdn : length dx = n) by (destruct HdA as [<- _]; exact Hdl).
  split; [congruence |].
  pose proof (source_row_product k n _ _ j src dx HdA HrdA Hj Hjn Hdn Hne) as H1.
  pose proof (source_row_product k n _ _ j src x HA HrA Hj Hjn Hx Hne) as H2.
  rewrite Hdx in H1. unfold vsub in H1.
  rewrite lookup_zip_with, (Hsb j src Hj), H2 in H1. simpl in H1.
  injection H1 as H1. lra.
Qed.

Section loop.
Variables (gamma : R) (k : nat) (srcs : list MMFSource.t) (j : nat) (src : MMFSource.t).
Hypothesis Hj : srcs !! j = Some src.
Hypothesis Hne : MMFSource.n1 src <> MMFSource.n2 src.

Local Abbreviation keeps st := (keeps_source k srcs src st).

Lemma pass_honours st st' lg :
  keeps st -> newton_pass gamma st = Ok (st', lg) ->
  honours (pl_x lg) src /\ keeps (next_state st').
Proof.
  intros (Hlay & Hs & Hx & Hit & H0 & H1) Hp.
  apply newton_pass_Ok in Hp as (Hm & Hsolve & Hpx & _ & _ & Hx' & _ & Hi').
  apply linsolve_Ok in Hsolve as [Hsol _].
  rewrite <- Hs in Hx, Hj.
  destruct (system_source_equation k _ _ _ _ _ j src _ Hlay Hx Hj Hne Hm Hsol)
    as (Hlay' & Hs' & Hdl & Heq).
  assert (Hhon : honours (pl_x lg) src).
  { unfold honours. rewrite Hpx.
    destruct (Z.eqb_spec (ls_iter st) 0) as [E0 | E0].
    - rewrite Heq, (H0 E0). lra.
    - rewrite !potential_vadd_vscale by congruence.
      specialize (H1 E0). unfold honours in H1. rewrite <- H1 in Heq. nra. }
  split; [exact Hhon |]. unfold keeps_source. simpl.
  split; [exact Hlay' |]. split; [congruence |].
  split.
  { rewrite Hx', Hpx. destruct (ls_iter st =? 0)%Z; [congruence |].
    rewrite length_vadd; [congruence |]. rewrite length_vscale. congruence. }
  split; [lia |]. split; [lia |].
  intros _. rewrite Hx'. exact Hhon.
Qed.

Lemma loop_honours fuel st :
  keeps st ->
  forall i lg, trace (newton_loop fuel gamma st) !! i = Some lg ->
               honours (pl_x lg) src.
Proof.
  revert st. induction fuel as [| fuel IH]; intros st Hst i lg; [discriminate |].
  rewrite newton_loop_S.
  destruct (newton_pass gamma st) as [[st' lg0] | e] eqn:Ep; [| discriminate].
  destruct (pass_honours _ _ _ Hst Ep) as [Hhon Hnext].
  repeat case_match; simpl;
    (destruct i as [| i]; simpl; [intros [= <-]; exact Hhon |]);
    try discriminate.
  apply IH. exact Hnext.
Qed.

End loop.

Lemma solve_circuit_honours c gamma src :
  built c -> has_ground c -> EMMFSource src ∈ elems c ->
  MMFSource.n1 src <> MMFSource.n2 src ->
  forall i lg, trace (solve_circuit c gamma) !! i = Some lg -> honours (pl_x lg) src.
Proof.
  intros Hb Hg Hin Hne i lg.
  destruct (built_layout c Hb Hg) as (k & _ & Hnn & Hterm & Hlen).
  destruct (elem_mmf_sources _ _ Hin) as [j Hj].
  destruct (solve_circuit_cases c gamma) as [[_ ->] | [_ ->]]; [discriminate |].
  apply (loop_honours gamma k (mmf_sources (elems c)) j src Hj Hne).
  unfold keeps_source. simpl.
  split; [split; [| split]; assumption |]. split; [reflexivity |].
  split.
  { rewrite length_zeros. unfold n_matrix_size.
    rewrite Hnn, get_MMFs_number_count. lia. }
  split; [lia |]. split; [| intros H; contradiction].
  intros _. rewrite !potential_zeros. lra.
Qed.

(** X21. Every estimate the solver produces gives every MMF source with
    two different terminals its value as potential difference: the
    first pass establishes it exactly and every later update keeps it,
    whatever [gamma] is and whether or not the loop converges.  So the
    returned solution honours the sources, also when the iteration
    count ran out. *)
Theorem every_iterate_honours_the_mmf_sources c gamma src :
  built c -> has_ground c -> EMMFSource src ∈ elems c ->
  MMFSource.n1 src <> MMFSource.n2 src ->
  (forall i lg, trace (solve_circuit c gamma) !! i = Some lg ->
     potential (pl_x lg) (MMFSource.n1 src) - potential (pl_x lg) (MMFSource.n2 src)
     = MMFSource.value src) /\
  (forall s c' x, out (solve_circuit c gamma) = Returned s c' x ->
     potential x (MMFSource.n1 src) - potential x (MMFSource.n2 src)
     = MMFSource.value src).
Proof.
  intros Hb Hg Hin Hne.
  pose proof (solve_circuit_honours c gamma src Hb Hg Hin Hne) as Hall.
  split; [exact Hall |].
  intros s c' x Hout.
  destruct (solve_circuit_cases c gamma) as [[_ E] | [_ E]]; rewrite E in *;
    [discriminate |].
  destruct (newton_loop_returned gamma c 2002
              (mk_state c (zeros (Z.to_nat (n_matrix_size c))) 0 0%Z) s c' x)
    as (tr & lg & Ht & -> & _); [reflexivity | exact Hout |].
  apply (Hall (length tr) lg). rewrite Ht.
  rewrite lookup_app_r by lia. rewrite Nat.sub_diag. reflexivity.
Qed.

Lemma every_iterate_honours_the_mmf_sources_witness :
  exists x,
    solution (solve_circuit (gap_circuit 10000) 1) = Some x /\
    potential x 1 - potential x 0 = 10000.
Proof.
  destruct gap_run as (lg0 & lg1 & Hrun & _).
  exists (pl_dx lg0). split; [rewrite Hrun; reflexivity |].
  apply (proj2 (every_iterate_honours_the_mmf_sources (gap_circuit 10000) 1
                  (MMFSource.mk "MMF1" 1 0 10000)
                  (gap_built 10000) (gap_has_ground 10000)
                  ltac:(rewrite gap_circuit_eq; left)
                  ltac:(discriminate))
           CONVERGED (gap_circuit 10000) (pl_dx lg0)).
  rewrite Hrun. reflexivity.
Defined.

End iterates_honour_sources.

(** ** The systems of a run *)

Section systems_of_a_run.
Variable gamma : R.

(** Every pass assembles its system from the caller's circuit: the
    first at the estimate the loop starts from, every later one at the
    iterate of the pass before. *)
Lemma newton_loop_systems c fuel st :
  (forall y, update_mur (ls_circ st) y = update_mur c y) ->
  (forall lg, trace (newton_loop fuel gamma st) !! 0%nat = Some lg ->
     exists c', make_system_matrix c (ls_x st) = Ok (c', (pl_A lg, pl_b lg))) /\
  (forall k lg lg',
     trace (newton_loop fuel gamma st) !! k = Some lg ->
     trace (newton_loop fuel gamma st) !! S k = Some lg' ->
     exists c', make_system_matrix c (pl_x lg) = Ok (c', (pl_A lg', pl_b lg'))).
Proof.
  revert st. induction fuel as [| fuel IH]; intros st Hc.
  { split; intros; discriminate. }
  rewrite newton_loop_S.
  destruct (newton_pass gamma st) as [[st' lg0] | e] eqn:Ep.
  2:{ split; intros; discriminate. }
  pose proof Ep as (Hm & _ & _ & _ & _ & Hx & _)%newton_pass_Ok.
  assert (Hm' : make_system_matrix c (ls_x st)
                = Ok (ls_circ st', (pl_A lg0, pl_b lg0))).
  { rewrite <- Hm. unfold make_system_matrix. rewrite Hc. reflexivity. }
  pose proof (make_system_matrix_update _ _ _ _ _ Hm') as Hu.
  destruct (IH (next_state st')) as [IH0 IHS].
  { intros y. simpl. apply (update_mur_again _ _ _ y Hu). }
  simpl in IH0. rewrite Hx in IH0.
  destruct (np_lt (pl_err lg0) 0.001).
  { simpl. split.
    - intros lg [= <-]. eauto.
    - intros [| k] lg lg' _ H; discriminate. }
  destruct (2000 <? ls_iter st')%Z.
  { simpl. split.
    - intros lg [= <-]. eauto.
    - intros [| k] lg lg' _ H; discriminate. }
  simpl. split.
  - intros lg [= <-]. eauto.
  - intros [| k] lg lg'; simpl.
    + intros [= <-]. apply IH0.
    + apply IHS.
Qed.

Lemma solve_circuit_systems c :
  let r := solve_circuit c gamma in
  (forall lg, trace r !! 0%nat = Some lg ->
     exists c', make_system_matrix c (replicate (Z.to_nat (n_matrix_size c)) 0)
                = Ok (c', (pl_A lg, pl_b lg))) /\
  (forall k lg lg', trace r !! k = Some lg -> trace r !! S k = Some lg' ->
     exists c', make_system_matrix c (pl_x lg) = Ok (c', (pl_A lg', pl_b lg'))).
Proof.
  intros r. subst r.
  destruct (solve_circuit_cases c gamma) as [[_ ->] | [_ ->]].
  { split; intros; discriminate. }
  apply (newton_loop_systems c 2002
           (mk_state c (zeros (Z.to_nat (n_matrix_size c))) 0 0%Z)).
  reflexivity.
Qed.

End systems_of_a_run.

(** ** Where the unknowns of the MMF sources lie *)

Section source_unknowns.

(** The Jacobian of a system holds, for each MMF source, its row and,
    the matrix being symmetric, its column. *)
Lemma system_source_rows k c x c' J b :
  laid_out k c -> length x = (k + length (mmf_sources (elems c)))%nat ->
  make_system_matrix c x = Ok (c', (J, b)) ->
  has_source_rows k (length x) (mmf_sources (elems c)) J /\ symmetric J.
Proof.
  intros Hlay Hx Hm.
  unfold make_system_matrix in Hm. bind_inv Hm. bind_inv Hm.
  injection Hm as <- <- <-. rename a into c1, a0 into s.
  apply update_mur_refreshed in E. subst c1.
  pose proof (laid_out_refreshed k c c x Hlay) as Hlay1.
  assert (Hsrc : mmf_sources (elems (set_elems c (map (refreshed c x) (elems c))))
                 = mmf_sources (elems c)) by apply mmf_sources_refreshed.
  split; [| apply (assemble_symmetric _ _ _ E0)].
  rewrite Hx in E0 |- *. rewrite <- Hsrc in E0.
  destruct (assemble_source_rows k _ s Hlay1 E0) as (_ & _ & HrdA & _).
  rewrite Hsrc in HrdA. exact HrdA.
Qed.

(** C2. In a circuit built through the methods with the ground name
    registered, the solver's unknown count is the number of nodes other
    than ground plus the number of MMF sources; every pass works on
    arrays of that size; node [i] has unknown [i - 1], below the node
    count, and the [j]-th MMF source of the element list has the
    unknown after them at position [j]: in both assembled matrices
    that row and that column hold 1 at the source's first terminal,
    -1 at its second and 0 elsewhere, the right-hand side holds the
    source's value there, and the matrix of every system the solver
    solves has the same row and column. *)
Theorem unknowns_are_nodes_then_mmf_sources c :
  built c -> has_ground c ->
  let n := n_matrix_size c in
  let k := Z.to_nat (nodes_excl_ground c) in
  n = (nodes_excl_ground c + get_MMFs_number c)%Z /\
  get_MMFs_number c = Z.of_nat (length (mmf_sources (elems c))) /\
  (forall gamma i lg, trace (solve_circuit c gamma) !! i = Some lg ->
     square (Z.to_nat n) (pl_A lg) /\ length (pl_b lg) = Z.to_nat n /\
     length (pl_x lg) = Z.to_nat n) /\
  (forall e, e ∈ elems c ->
     (0 <= elem_n1 e <= nodes_excl_ground c)%Z /\
     (0 <= elem_n2 e <= nodes_excl_ground c)%Z) /\
  (exists s,
     assemble c (Z.to_nat n) = Ok s /\ shaped (Z.to_nat n) s /\
     forall j src, mmf_sources (elems c) !! j = Some src ->
       sb s !! (k + j)%nat = Some (MMFSource.value src) /\
       forall col, (col < Z.to_nat n)%nat ->
         entry (sA s) (k + j) col = Some (source_row src col) /\
         entry (sA s) col (k + j) = Some (source_row src col) /\
         entry (sdA s) (k + j) col = Some (source_row src col) /\
         entry (sdA s) col (k + j) = Some (source_row src col)) /\
  (forall gamma i lg, trace (solve_circuit c gamma) !! i = Some lg ->
     forall j src col, mmf_sources (elems c) !! j = Some src ->
       (col < Z.to_nat n)%nat ->
       entry (pl_A lg) (k + j) col = Some (source_row src col) /\
       entry (pl_A lg) col (k + j) = Some (source_row src col)).
Proof.
  intros Hb Hg n k.
  destruct (built_layout c Hb Hg) as (k0 & Hk & Hnn & Hterm & Hlen).
  assert (Ek : k = k0) by (subst k; rewrite Hk; apply Nat2Z.id).
  clearbody k. subst k0.
  pose proof (get_MMFs_number_count c) as HM.
  assert (Hlay : laid_out k c) by (split; [| split]; assumption).
  assert (Hn : Z.to_nat n = (k + length (mmf_sources (elems c)))%nat).
  { subst n. unfold n_matrix_size. lia. }
  split; [subst n; unfold n_matrix_size; lia |]. split; [exact HM |].
  split.
  { intros gamma i lg Hi.
    destruct (solve_circuit_dimension c gamma i lg Hi) as (HA & Hbl & _ & Hx). auto. }
  split.
  { intros e He. rewrite Hk. apply (proj1 (Forall_forall _ _) Hterm e He). }
  split.
  { destruct (laid_out_assemble k c Hlay) as [s Hs].
    exists s. rewrite Hn. split; [exact Hs |].
    destruct (assemble_source_rows k c s Hlay Hs) as (Hsh & HrA & HrdA & Hsb).
    destruct (assemble_symmetric _ _ _ Hs) as [HsA HsdA].
    split; [exact Hsh |].
    intros j src Hj. split; [apply (Hsb j src Hj) |].
    intros col Hcol.
    rewrite (HsA col (k + j)%nat), (HsdA col (k + j)%nat).
    rewrite (HrA j src col Hj Hcol), (HrdA j src col Hj Hcol). auto. }
  intros gamma i lg Hi j src col Hj Hcol.
  assert (Hsys : exists x c', length x = Z.to_nat n /\
            make_system_matrix c x = Ok (c', (pl_A lg, pl_b lg))).
  { destruct (solve_circuit_systems gamma c) as [H0 HS]. cbv zeta in H0, HS.
    destruct i as [| i].
    - destruct (H0 lg Hi) as [c' Hm].
      eexists _, c'. split; [| exact Hm]. apply length_replicate.
    - destruct (lookup_lt_is_Some_2 (trace (solve_circuit c gamma)) i) as [lg0 Hi0].
      { apply lookup_lt_Some in Hi. lia. }
      destruct (HS i lg0 lg Hi0 Hi) as [c' Hm].
      exists (pl_x lg0), c'. split; [| exact Hm].
      apply (solve_circuit_dimension c gamma i lg0 Hi0). }
  destruct Hsys as (x & c' & Hx & Hm).
  rewrite Hn in Hx, Hcol.
  destruct (system_source_rows k c x c' _ _ Hlay Hx Hm) as [Hrows Hsym].
  rewrite (Hsym col (k + j)%nat). rewrite Hx in Hrows.
  rewrite (Hrows j src col Hj Hcol). auto.
Qed.

End source_unknowns.

Section source_unknowns_examples.

(** C2 at the gap circuit: one node besides ground, one MMF source from
    node 1 to ground; its unknown is the second, and row and column 1
    of the assembled matrix hold 1 in position 0 and 0 in position
    1. *)
Lemma unknowns_are_nodes_then_mmf_sources_witness :
  n_matrix_size (gap_circuit 10000)
  = (nodes_excl_ground (gap_circuit 10000) + get_MMFs_number (gap_circuit 10000))%Z /\
  n_matrix_size (gap_circuit 10000) = 2%Z /\
  assemble (gap_circuit 10000) 2 = Ok (mk_sys gap_A gap_A [0; 1 * 10000]) /\
  entry gap_A 1 0 = Some 1 /\ entry gap_A 0 1 = Some 1 /\ entry gap_A 1 1 = Some 0 /\
  (exists s, assemble (gap_circuit 10000) 2 = Ok s /\
     sb s !! 1%nat = Some 10000 /\
     entry (sA s) 1 0 = Some 1 /\ entry (sA s) 0 1 = Some 1 /\
     entry (sA s) 1 1 = Some 0 /\ entry (sdA s) 1 0 = Some 1).
Proof.
  pose proof (unknowns_are_nodes_then_mmf_sources (gap_circuit 10000)
                (gap_built 10000) (gap_has_ground 10000)) as H.
  cbv zeta in H. destruct H as (Hn & _ & _ & _ & (s & Hs & _ & Hsrc) & _).
  split; [exact Hn |]. split; [apply gap_matrix_size |].
  split; [apply gap_assemble |].
  split; [reflexivity |]. split; [reflexivity |]. split; [reflexivity |].
  rewrite gap_matrix_size in Hs, Hsrc.
  assert (Hk : Z.to_nat (nodes_excl_ground (gap_circuit 10000)) = 1%nat).
  { pose proof (gap_matrix_size 10000) as E. rewrite Hn in E.
    rewrite gap_circuit_eq in E |- *. reflexivity. }
  rewrite Hk in Hsrc.
  assert (Hj : mmf_sources (elems (gap_circuit 10000)) !! 0%nat
               = Some (MMFSource.mk "MMF1" 1 0 10000))
    by (rewrite gap_circuit_eq; reflexivity).
  destruct (Hsrc 0%nat _ Hj) as [Hb Hcols].
  destruct (Hcols 0%nat ltac:(simpl; lia)) as (H10 & H01 & Hd10 & _).
  destruct (Hcols 1%nat ltac:(simpl; lia)) as (H11 & _).
  exists s. split; [exact Hs |].
  split; [exact Hb |].
  split; [exact H10 |]. split; [exact H01 |].
  split; [exact H11 | exact Hd10].
Defined.

End source_unknowns_examples.

(** ** The update rule of the loop *)

Section zero_columns.




End zero_columns.

Section update_rule.
Variables (c : Circuit) (gamma : R).


End update_rule.

Section update_rule_examples.




End update_rule_examples.
